(** * nPerlinNoise: the sampling pipeline of [NPerlin] (src/nPerlin.py)

    A shallow embedding of the [NPerlin] class.  Python numbers (int,
    float32, float64) are embedded as exact integers [Z] and exact
    rationals [Q]: rounding is not modelled, two rationals are the same
    number when they are [Qeq].  The only machine width kept is the one the
    source writes out itself, [astype(np.uint16)] in [findBounds].

    Python exceptions are values of [exn]; a method that can raise returns a
    [result]; a method of the object runs in the monad [M], which threads
    the object's attributes.  The random value provider is given twice: as
    the seed and the mapping it stands for ([NPrng]), and as a live object
    whose requests change its state ([Provider], [Live]); the two are
    related by [live_call]. *)

From Stdlib Require Import ZArith QArith Qround Qabs List Bool Lia Lqa.
Import ListNotations.

(** ** Exceptions and results *)

Inductive exn : Type :=
| AssertionError
| TypeError
| IndexError
| ValueError
| ZeroDivisionError.

Inductive result (A : Type) : Type :=
| Ok (a : A)
| Raise (e : exn).

Arguments Ok {A} a.
Arguments Raise {A} e.

Definition bindR {A B} (r : result A) (k : A -> result B) : result B :=
  match r with
  | Ok a => k a
  | Raise e => Raise e
  end.

Declare Scope result_scope.
Delimit Scope result_scope with result.
Notation "x <- r ;; k" := (bindR r (fun x => k))
  (at level 61, r at next level, right associativity) : result_scope.
Notation "' p <- r ;; k" := (bindR r (fun x => let p := x in k))
  (at level 61, p pattern, r at next level, right associativity) : result_scope.
Local Open Scope result_scope.

Fixpoint mapM {A B} (f : A -> result B) (l : list A) : result (list B) :=
  match l with
  | [] => Ok []
  | x :: t => y <- f x ;; ys <- mapM f t ;; Ok (y :: ys)
  end.

Fixpoint foldM {A B} (f : A -> B -> result A) (l : list B) (a : A) : result A :=
  match l with
  | [] => Ok a
  | x :: t => a' <- f a x ;; foldM f t a'
  end.

Definition is_raise {A} (r : result A) : Prop := exists e, r = Raise e.

(** ** Python values handed to the constructor and the setters *)

(** Modelled from the spec: class [Warp] of selectionTools, which is not
    part of src/.  The spec gives it as a callable from a fractional offset
    to a blend weight, applied elementwise to arrays. *)
Definition Warp : Type := Q -> Q.

#[warnings="-register-all"]
Inductive pyval : Type :=
| PyNone
| PyBool (b : bool)
| PyInt (z : Z)
| PyFloat (q : Q)
| PyTuple (l : list pyval)
| PyList (l : list pyval)
| PyWarp (w : Warp).

(** [isinstance(v, int)]: bool is a subclass of int. *)
Definition isinstance_int (v : pyval) : bool :=
  match v with PyInt _ | PyBool _ => true | _ => false end.

(** [isinstance(v, (int, float))] *)
Definition isinstance_real (v : pyval) : bool :=
  match v with PyInt _ | PyBool _ | PyFloat _ => true | _ => false end.

Definition isinstance_tuple (v : pyval) : bool :=
  match v with PyTuple _ => true | _ => false end.

Definition isinstance_Warp (v : pyval) : bool :=
  match v with PyWarp _ => true | _ => false end.

(** The number a numeric Python value stands for. *)
Definition num (v : pyval) : Q :=
  match v with
  | PyBool true => 1
  | PyInt z => inject_Z z
  | PyFloat q => q
  | _ => 0
  end.

Definition int_of (v : pyval) : Z :=
  match v with
  | PyBool true => 1%Z
  | PyInt z => z
  | _ => 0%Z
  end.

Definition warp_of (v : pyval) : Warp :=
  match v with PyWarp w => w | _ => fun t => t end.

(** [v > k] for an int literal [k]: ordering a non-number against an int
    raises TypeError. *)
Definition py_gt (v : pyval) (k : Z) : result bool :=
  if isinstance_real v
  then Ok (if Qlt_le_dec (inject_Z k) (num v) then true else false)
  else Raise TypeError.

(** [len(v)] *)
Definition py_len (v : pyval) : result nat :=
  match v with
  | PyTuple l | PyList l => Ok (length l)
  | _ => Raise TypeError
  end.

(** [v[i]] for a non-negative literal [i]. *)
Definition py_getitem (v : pyval) (i : nat) : result pyval :=
  match v with
  | PyTuple l | PyList l =>
      match nth_error l i with Some x => Ok x | None => Raise IndexError end
  | _ => Raise TypeError
  end.

(** [all(p(x) for x in l)]: stops at the first false element, and an
    exception raised by [p] before that propagates. *)
Fixpoint py_all (p : pyval -> result bool) (l : list pyval) : result bool :=
  match l with
  | [] => Ok true
  | x :: t => b <- p x ;; if b then py_all p t else Ok false
  end.

(** [a and b] on results, [b] evaluated only when [a] is true. *)
Definition py_and (a : result bool) (b : result bool) : result bool :=
  x <- a ;; if x then b else Ok false.

(** ** tools.NTuple *)

Module NTuple.

(** Modelled from the spec: class [NTuple] of tools, which is not part of
    src/.  A fixed sequence of per-axis values; iteration yields the
    declared values; an index beyond the declared length repeats the last
    declared value; a negative index counts from the end as for a tuple;
    [t * k] multiplies every entry. *)
Definition getitem {A} (t : list A) (i : Z) : result A :=
  let n := Z.of_nat (length t) in
  let j := if (i <? 0)%Z then (n + i)%Z
           else if (n <=? i)%Z then (n - 1)%Z else i in
  if (j <? 0)%Z then Raise IndexError
  else match nth_error t (Z.to_nat j) with
       | Some x => Ok x
       | None => Raise IndexError
       end.

(** [t[:n]], every position read with the broadcasting index. *)
Definition slice {A} (t : list A) (n : nat) : result (list A) :=
  mapM (fun i => getitem t (Z.of_nat i)) (seq 0 n).

Definition scaleZ (t : list Z) (k : Z) : list Z := map (fun x => (x * k)%Z) t.
Definition scaleQ (t : list Q) (k : Z) : list Q := map (fun x => x * inject_Z k) t.

End NTuple.

(** ** tools: iterable, maxLen, findCorners *)

(** One positional coordinate argument: a bare number or a sequence. *)
Inductive coord : Type :=
| Scalar (x : Q)
| Seq (xs : list Q).

(** Modelled from the spec: [iterable] of tools (isIterable). *)
Definition iterable (c : coord) : bool :=
  match c with Scalar _ => false | Seq _ => true end.

(** [x if iterable(x) else (x,)] *)
Definition as_seq (c : coord) : list Q :=
  match c with Scalar x => [x] | Seq xs => xs end.

(** Modelled from the spec: [maxLen] of tools (maxLength), the largest
    element count over the collection under [key]. *)
Definition maxLen (coords : list coord) : nat :=
  fold_right (fun c m => Nat.max (length (as_seq c)) m) 0%nat coords.

(** Modelled from the spec: [findCorners] of tools (hypercubeVertices), the
    2^dim vectors of {0,1}^dim, the all-zero vertex first and the last
    component varying fastest. *)
Fixpoint findCorners (dim : nat) : list (list Z) :=
  match dim with
  | O => [[]]
  | S k => map (cons 0%Z) (findCorners k) ++ map (cons 1%Z) (findCorners k)
  end.

(** [np.ravel(coo)] *)
Definition ravel (c : coord) : list Q := as_seq c.

(** ** tools.NPrng *)

(** Modelled from the spec: class [NPrng] of tools, which is not part of
    src/.  The provider holds a seed and a pure mapping from the seed and an
    absolute integer multi-index to a value; [shaped shape off] is the
    window of that mapping with the given per-axis extent and start index,
    and a value is read from a window by its absolute index, whatever
    window was requested around it.  Reading outside the window is an
    IndexError. *)
Record NPrng : Type := mkNPrng {
  prng_seed : Z;
  prng_value : Z -> list Z -> Q
}.

Record Window : Type := mkWindow {
  w_shape : list Z;
  w_off : list Z;
  w_value : list Z -> Q
}.

Definition shaped (p : NPrng) (shape off : list Z) : Window :=
  {| w_shape := shape; w_off := off; w_value := prng_value p (prng_seed p) |}.

Fixpoint in_window (idx off shape : list Z) : bool :=
  match idx, off, shape with
  | [], [], [] => true
  | i :: idx', o :: off', n :: shape' =>
      (o <=? i)%Z && (i <? o + n)%Z && in_window idx' off' shape'
  | _, _, _ => false
  end.

Definition window_get (w : Window) (idx : list Z) : result Q :=
  if in_window idx (w_off w) (w_shape w) then Ok (w_value w idx)
  else Raise IndexError.

(** Modelled from the spec: [Warp.improved()], the smootherstep curve
    6t^5 - 15t^4 + 10t^3. *)
Definition Warp_improved : Warp :=
  fun t => t * t * t * (t * (t * 6 - 15) + 10).

(** ** The NPerlin object *)

Record NPerlin : Type := mkNPerlin {
  fwm : Z;
  __frequency : list Z;
  __waveLength : list Q;
  __prng : NPrng;
  __warp : list Warp;
  __range : Q * Q;
  __rangeMul : Q
}.

(** Methods run on the object: they return a value or raise, and leave the
    object in a (possibly new) state. *)
Definition M (A : Type) : Type := NPerlin -> result A * NPerlin.

Definition retM {A} (a : A) : M A := fun self => (Ok a, self).

Definition bindM {A B} (m : M A) (k : A -> M B) : M B :=
  fun self =>
    match m self with
    | (Ok a, self') => k a self'
    | (Raise e, self') => (Raise e, self')
    end.

(** Evaluate an expression that only reads the object. *)
Definition reads {A} (f : NPerlin -> result A) : M A := fun self => (f self, self).

(** Attribute assignment. *)
Definition assign (f : NPerlin -> NPerlin) : M unit := fun self => (Ok tt, f self).

Declare Scope meth_scope.
Delimit Scope meth_scope with meth.
Notation "x <- m ;; k" := (bindM m (fun x => k))
  (at level 61, m at next level, right associativity) : meth_scope.
Notation "' p <- m ;; k" := (bindM m (fun x => let p := x in k))
  (at level 61, p pattern, m at next level, right associativity) : meth_scope.

(** *** Validation of constructor and setter arguments *)

Definition __getFrequency (frequency : pyval) : result (list Z) :=
  let frequency := if isinstance_int frequency then PyTuple [frequency] else frequency in
  match frequency with
  | PyTuple fs =>
      ok <- py_all (fun f => py_and (py_gt f 1) (Ok (isinstance_int f))) fs ;;
      if ok then Ok (map int_of fs) else Raise AssertionError
  | _ => Raise AssertionError
  end.

Definition __getWaveLength (waveLength : pyval) : result (list Q) :=
  let waveLength := if isinstance_real waveLength then PyTuple [waveLength] else waveLength in
  match waveLength with
  | PyTuple ws =>
      ok <- py_all (fun w => py_and (py_gt w 0) (Ok (isinstance_real w))) ws ;;
      if ok then Ok (map num ws) else Raise AssertionError
  | _ => Raise AssertionError
  end.

Definition __getWarp (warp : pyval) : result (list Warp) :=
  let warp := if isinstance_Warp warp then PyTuple [warp] else warp in
  match warp with
  | PyTuple ws =>
      if forallb isinstance_Warp ws then Ok (map warp_of ws) else Raise AssertionError
  | _ => Raise AssertionError
  end.

Definition __getRange (_range : pyval) : result ((Q * Q) * Q) :=
  n <- py_len _range ;;
  ok <- (if Nat.eqb n 2
         then py_and (r0 <- py_getitem _range 0 ;; Ok (isinstance_real r0))
                     (r1 <- py_getitem _range 1 ;; Ok (isinstance_real r1))
         else Ok false) ;;
  if ok
  then r0 <- py_getitem _range 0 ;;
       r1 <- py_getitem _range 1 ;;
       let _rangeMul := num r1 - num r0 in
       Ok ((num r0, num r1), _rangeMul)
  else Raise AssertionError.

(** *** Properties and setters *)

Definition frequency (self : NPerlin) : list Z := __frequency self.

Definition waveLength (self : NPerlin) : list Q := __waveLength self.

Definition warp (self : NPerlin) : list Warp := __warp self.

Definition range (self : NPerlin) : Q * Q := __range self.

(** [fabric(shape, off)] *)
Definition fabric (self : NPerlin) (shape off : list Z) : Window :=
  shaped (__prng self) shape off.

Definition seed (self : NPerlin) : Z := prng_seed (__prng self).

Definition mFrequency (self : NPerlin) : list Z :=
  NTuple.scaleZ (__frequency self) (fwm self).

Definition mWaveLength (self : NPerlin) : list Q :=
  NTuple.scaleQ (__waveLength self) (fwm self).

(** [w / f] with an int divisor *)
Definition py_div (w : Q) (f : Z) : result Q :=
  if (f =? 0)%Z then Raise ZeroDivisionError else Ok (w / inject_Z f).

(** [NTuple(w / f for w, f in zip(self.mWaveLength, self.mFrequency))] *)
Definition amp (self : NPerlin) : result (list Q) :=
  mapM (fun wf => py_div (fst wf) (snd wf))
       (combine (mWaveLength self) (mFrequency self)).

Definition setSeed (seed : Z) : M unit :=
  assign (fun self =>
    mkNPerlin (fwm self) (__frequency self) (__waveLength self)
              (mkNPrng seed (prng_value (__prng self)))
              (__warp self) (__range self) (__rangeMul self)).

Definition setFrequency (frequency' : pyval) : M unit :=
  (f <- reads (fun _ => __getFrequency frequency') ;;
   assign (fun self =>
     mkNPerlin (fwm self) f (__waveLength self) (__prng self)
               (__warp self) (__range self) (__rangeMul self)))%meth.

Definition setWaveLength (waveLength' : pyval) : M unit :=
  (w <- reads (fun _ => __getWaveLength waveLength') ;;
   assign (fun self =>
     mkNPerlin (fwm self) (__frequency self) w (__prng self)
               (__warp self) (__range self) (__rangeMul self)))%meth.

Definition setWarp (warp' : pyval) : M unit :=
  (w <- reads (fun _ => __getWarp warp') ;;
   assign (fun self =>
     mkNPerlin (fwm self) (__frequency self) (__waveLength self) (__prng self)
               w (__range self) (__rangeMul self)))%meth.

Definition setRange (_range : pyval) : M unit :=
  (rm <- reads (fun _ => __getRange _range) ;;
   assign (fun self =>
     mkNPerlin (fwm self) (__frequency self) (__waveLength self) (__prng self)
               (__warp self) (fst rm) (snd rm)))%meth.

(** [NPerlin(seed, frequency, waveLength, warp, _range, fwm=fwm)].  [PyNone]
    selects the default of an argument.  The provider class supplies the
    value mapping [gen] and, when no seed is given, a seed of its own
    choice [fresh]. *)
Definition __init__ (gen : Z -> list Z -> Q) (fresh : Z)
    (seed' : option Z) (frequency' waveLength' warp' _range : pyval) (fwm' : Z)
    : result NPerlin :=
  let frequency' := match frequency' with PyNone => PyInt 8 | v => v end in
  let waveLength' := match waveLength' with PyNone => PyInt 128 | v => v end in
  let warp' := match warp' with PyNone => PyWarp Warp_improved | v => v end in
  let _range := match _range with PyNone => PyTuple [PyInt 0; PyInt 1] | v => v end in
  f <- __getFrequency frequency' ;;
  w <- __getWaveLength waveLength' ;;
  let p := mkNPrng (match seed' with Some z => z | None => fresh end) gen in
  wp <- __getWarp warp' ;;
  rm <- __getRange _range ;;
  Ok (mkNPerlin fwm' f w p wp (fst rm) (snd rm)).

(** ** The sampling pipeline *)

(** [np.repeat(xs, k)]: every element [k] times, in order. *)
Definition np_repeat {A} (xs : list A) (k : nat) : list A :=
  flat_map (fun x => repeat x k) xs.

(** Assignment [row[a:b] = vals] into a slice of [n] slots: the value must
    have [n] elements, or one element, which is then broadcast. *)
Definition assign_slice (n : nat) (vals : list Q) : result (list Q) :=
  if Nat.eqb (length vals) n then Ok vals
  else if Nat.eqb (length vals) 1 then Ok (repeat (hd 0 vals) n)
  else Raise ValueError.

(** [xs[-1]] *)
Definition seq_last (xs : list Q) : result Q :=
  match xs with
  | [] => Raise IndexError
  | _ => Ok (last xs 0)
  end.

(** One turn of the loop of [formatCoords]: row [d] of [__coords]. *)
Definition formatRow (maxLength : nat) (c : coord) : result (list Q) :=
  let cd := as_seq c in
  let stretch := (maxLength / Nat.max 1 (length cd))%nat in
  let left := (maxLength mod Nat.max 1 (length cd))%nat in
  a <- assign_slice (maxLength - left) (np_repeat cd stretch) ;;
  l <- seq_last cd ;;
  b <- assign_slice left (repeat l left) ;;
  Ok (a ++ b).

(** [NPerlin.formatCoords].  The array is built with a two-element shape,
    so the assertion on its depth holds for every input and is not a case
    of the model. *)
Definition formatCoords (coords : list coord) : result (list (list Q)) :=
  let maxLength := maxLen coords in
  __coords <- mapM (formatRow maxLength) coords ;;
  Ok (map (map Qabs) __coords).

(** [x.astype(np.uint16)] of a whole number held in a float.  numpy
    converts through a signed 32-bit integer, of which the low 16 bits are
    kept: a whole number in [-2^31, 2^31) is reduced modulo 2^16; one
    outside converts to the 32-bit pattern 0x80000000, whose low 16 bits
    are 0. *)
Definition uint16 (z : Z) : Z :=
  if ((-2147483648 <=? z) && (z <? 2147483648))%Z then (z mod 65536)%Z else 0%Z.

(** [m / [[a] for a in amps]]: row [d] divided by [amps[d]]. *)
Definition div_rows (m : list (list Q)) (amps : list Q) : result (list (list Q)) :=
  if Nat.eqb (length m) (length amps)
  then Ok (map (fun ra => map (fun x => x / snd ra) (fst ra)) (combine m amps))
  else Raise ValueError.

(** [bIndex %= [[[f]] for f in fs]]: row [d] reduced modulo [fs[d]]. *)
Definition mod_rows (m : list (list (list Z))) (fs : list Z)
    : result (list (list (list Z))) :=
  if Nat.eqb (length m) (length fs)
  then Ok (map (fun rf => map (map (fun i => (i mod snd rf)%Z)) (fst rf)) (combine m fs))
  else Raise ValueError.

(** [(lowerIndex + np.array(corners)[..., None]).transpose((1, 0, 2))]:
    entry [d][v][n] is [lowerIndex[d][n] + corners[v][d]]. *)
Definition add_corners (lowerIndex : list (list Z)) (corners : list (list Z))
    : list (list (list Z)) :=
  map (fun dr => map (fun c => map (fun li => (li + nth (fst dr) c 0)%Z) (snd dr)) corners)
      (combine (seq 0 (length lowerIndex)) lowerIndex).

(** [NPerlin.findBounds] *)
Definition findBounds (self : NPerlin) (fCoords : list (list Q))
    : result (list (list (list Z)) * list (list Q)) :=
  a <- amp self ;;
  a <- NTuple.slice a (length fCoords) ;;
  bCoords <- div_rows (rev fCoords) a ;;
  let lowerIndex := map (map (fun u => uint16 (Qfloor u))) bCoords in
  let bCoords :=
    map (fun ul => map (fun xl => fst xl - inject_Z (snd xl)) (combine (fst ul) (snd ul)))
        (combine bCoords lowerIndex) in
  let bIndex := add_corners lowerIndex (findCorners (length bCoords)) in
  f <- NTuple.slice (mFrequency self) (length bIndex) ;;
  bIndex <- mod_rows bIndex f ;;
  Ok (bIndex, rev bCoords).

(** [a.min((1, 2))] and [a.max((1, 2))] of one row: a reduction over no
    element raises ValueError. *)
Definition row_min (row : list (list Z)) : result Z :=
  match concat row with
  | [] => Raise ValueError
  | x :: t => Ok (fold_left Z.min t x)
  end.

Definition row_max (row : list (list Z)) : result Z :=
  match concat row with
  | [] => Raise ValueError
  | x :: t => Ok (fold_left Z.max t x)
  end.

(** [NPerlin.findFab] *)
Definition findFab (self : NPerlin) (bIndex : list (list (list Z))) : result Window :=
  lo <- mapM row_min bIndex ;;
  hi <- mapM row_max bIndex ;;
  Ok (shaped (__prng self)
             (map (fun hl => (fst hl - snd hl + 1)%Z) (combine hi lo))
             lo).

(** [fab[tuple(bIndex)]]: entry [v][n] is read at the index tuple
    [(bIndex[0][v][n], ..., bIndex[D-1][v][n])]. *)
Definition fancy_index (fab : Window) (bIndex : list (list (list Z)))
    : result (list (list Q)) :=
  let V := length (hd [] bIndex) in
  let N := length (hd [] (hd [] bIndex)) in
  mapM (fun v =>
    mapM (fun n => window_get fab (map (fun row => nth n (nth v row []) 0%Z) bIndex))
         (seq 0 N))
       (seq 0 V).

(** [m.T] of a two-dimensional array *)
Definition transpose {A} (d : A) (m : list (list A)) : list (list A) :=
  map (fun j => map (fun row => nth j row d) m) (seq 0 (length (hd [] m))).

(** [a.reshape(-1, 2)] of the flattened array [a] *)
Fixpoint reshape2 (a : list Q) : result (list (Q * Q)) :=
  match a with
  | [] => Ok []
  | x :: y :: t => ps <- reshape2 t ;; Ok ((x, y) :: ps)
  | _ => Raise ValueError
  end.

(** [NPerlin.__interpolation].  The expression is elementwise over the
    weights and the pairs: the two have the same length, as in the arrays
    built by [__call__], or one of them has a single element, which numpy
    broadcasts over the other; any other lengths are a shape mismatch. *)
Definition __interpolation (self : NPerlin) (pairs : list (Q * Q)) (coords : list Q)
    (d : Z) : result (list Q) :=
  let heightStretch := map (fun p => snd p - fst p) pairs in
  w <- NTuple.getitem (__warp self) d ;;
  if Nat.eqb (length coords) (length pairs)
  then Ok (map (fun chp => w (fst chp) * fst (snd chp) + fst (snd (snd chp)))
               (combine coords (combine heightStretch pairs)))
  else if Nat.eqb (length coords) 1
  then Ok (map (fun hp => w (hd 0 coords) * fst hp + fst (snd hp))
               (combine heightStretch pairs))
  else if Nat.eqb (length pairs) 1
  then Ok (map (fun c => w c * hd 0 heightStretch + fst (hd (0, 0) pairs)) coords)
  else Raise ValueError.

(** [bCoords[:, d]] *)
Definition column (bCoords : list (list Q)) (d : nat) : list Q :=
  map (fun row => nth d row 0) bCoords.

(** One turn of the loop of [bNoise], for axis [d]. *)
Definition bNoise_turn (self : NPerlin) (bCoords : list (list Q)) (dims : nat)
    (pairs : list (Q * Q)) (d : nat) : result (list (Q * Q)) :=
  let coords := np_repeat (column bCoords d) (2 ^ (dims - 1 - d)) in
  v <- __interpolation self pairs coords (Z.of_nat d) ;;
  reshape2 v.

(** [NPerlin.bNoise] *)
Definition bNoise (self : NPerlin) (bSpace bCoords : list (list Q)) : result (list Q) :=
  let dims := length (hd [] bCoords) in
  pairs <- reshape2 (concat bSpace) ;;
  pairs <- foldM (bNoise_turn self bCoords dims) (seq 0 (dims - 1)) pairs ;;
  if Nat.eqb dims 0 then Raise IndexError
  else __interpolation self pairs (column bCoords (dims - 1)) (-1).

(** [NPerlin.applyRange] *)
Definition applyRange (self : NPerlin) (noise : list Q) : list Q :=
  map (fun x => x * __rangeMul self + fst (range self)) noise.

(** [NPerlin.__call__] *)
Definition __call__ (coords : list coord) : M (list Q) :=
  (let coords := match coords with [] => [Scalar 0] | _ => coords end in
   fCoords <- reads (fun _ => formatCoords (map (fun coo => Seq (ravel coo)) coords)) ;;
   bb <- reads (fun self => findBounds self fCoords) ;;
   fab <- reads (fun self => findFab self (fst bb)) ;;
   bSpace <- reads (fun _ => fancy_index fab (fst bb)) ;;
   noise <- reads (fun self => bNoise self (transpose 0 bSpace) (transpose 0 (snd bb))) ;;
   reads (fun self => Ok (applyRange self noise)))%meth.

(** A provider for concrete runs: the value at an index is a fraction in
    [0, 1) determined by the seed and the index. *)
Definition demo_value (seed : Z) (idx : list Z) : Q :=
  ((fold_left (fun h i => (h * 31 + i + 1)%Z) idx seed) mod 7)%Z # 7.

Definition demo (frequency' waveLength' warp' _range : pyval) : result NPerlin :=
  __init__ demo_value 0 (Some 0%Z) frequency' waveLength' warp' _range 1.

Definition run {A} (r : result NPerlin) (m : M A) : result A :=
  self <- r ;; fst (m self).


(** ** The provider as an object with a state of its own *)

(** Modelled from the spec: the interface of class [NPrng] of tools, which
    is not part of src/, as [NPerlin] calls it.  The provider is an object
    and [shaped] is a method call on it: it returns a window and leaves the
    provider in a state of its own choice (a generator position, a cache, a
    count of requests).  [p_holds] is the seed and the mapping the state
    stands for, the provider state of the spec's data model. *)
Record Provider : Type := mkProvider {
  p_state : Type;
  p_holds : p_state -> NPrng;
  p_shaped : list Z -> list Z -> p_state -> Window * p_state
}.


Module Live.

(** The [NPerlin] object with a live provider in [self.__prng]. *)
Record obj (P : Provider) : Type := mkObj {
  o_fwm : Z;
  o_frequency : list Z;
  o_waveLength : list Q;
  o_prng : p_state P;
  o_warp : list Warp;
  o_range : Q * Q;
  o_rangeMul : Q
}.

Arguments mkObj P _ _ _ _ _ _ _ : clear implicits.
Arguments o_fwm {P} _.
Arguments o_frequency {P} _.
Arguments o_waveLength {P} _.
Arguments o_prng {P} _.
Arguments o_warp {P} _.
Arguments o_range {P} _.
Arguments o_rangeMul {P} _.

(** What the object shows of itself: its attributes, and of the provider
    the seed and the mapping. *)
Definition view {P} (o : obj P) : NPerlin :=
  mkNPerlin (o_fwm o) (o_frequency o) (o_waveLength o) (p_holds P (o_prng o))
            (o_warp o) (o_range o) (o_rangeMul o).

(** The object once the provider has moved to the state [st]. *)
Definition with_prng {P} (o : obj P) (st : p_state P) : obj P :=
  mkObj P (o_fwm o) (o_frequency o) (o_waveLength o) st
        (o_warp o) (o_range o) (o_rangeMul o).

Definition M (P : Provider) (A : Type) : Type := obj P -> result A * obj P.

Definition bindM {P A B} (m : M P A) (k : A -> M P B) : M P B :=
  fun self =>
    match m self with
    | (Ok a, self') => k a self'
    | (Raise e, self') => (Raise e, self')
    end.

(** Evaluate an expression that reads the attributes only. *)
Definition reads {P A} (f : NPerlin -> result A) : M P A :=
  fun self => (f (view self), self).

(** [self.__prng.shaped(shape, off)] *)
Definition shaped {P} (shape off : list Z) : M P Window :=
  fun self =>
    let ws := p_shaped P shape off (o_prng self) in
    (Ok (fst ws), with_prng self (snd ws)).

Declare Scope live_scope.
Delimit Scope live_scope with live.
Notation "x <- m ;; k" := (bindM m (fun x => k))
  (at level 61, m at next level, right associativity) : live_scope.

(** [NPerlin.findFab] *)
Definition findFab {P} (bIndex : list (list (list Z))) : M P Window :=
  (hl <- reads (fun _ => (lo <- mapM row_min bIndex ;;
                          hi <- mapM row_max bIndex ;;
                          Ok (hi, lo))%result) ;;
   shaped (map (fun hl => (fst hl - snd hl + 1)%Z) (combine (fst hl) (snd hl)))
          (snd hl))%live.

(** [NPerlin.__call__] *)
Definition __call__ {P} (coords : list coord) : M P (list Q) :=
  (let coords := match coords with [] => [Scalar 0] | _ => coords end in
   fCoords <- reads (fun _ => formatCoords (map (fun coo => Seq (ravel coo)) coords)) ;;
   bb <- reads (fun self => findBounds self fCoords) ;;
   fab <- findFab (fst bb) ;;
   bSpace <- reads (fun _ => fancy_index fab (fst bb)) ;;
   noise <- reads (fun self => bNoise self (transpose 0 bSpace) (transpose 0 (snd bb))) ;;
   reads (fun self => Ok (applyRange self noise)))%live.

End Live.


(** ** Vocabulary of the statements *)

(** The operations a client can run on an object, and the object each
    leaves behind (an operation that raises leaves what it had assigned so
    far, which for every setter is nothing). *)
Inductive operation : Type :=
| OpSetSeed (seed' : Z)
| OpSetFrequency (v : pyval)
| OpSetWaveLength (v : pyval)
| OpSetWarp (v : pyval)
| OpSetRange (v : pyval)
| OpCall (coords : list coord).

Definition perform (o : operation) (self : NPerlin) : NPerlin :=
  match o with
  | OpSetSeed z => snd (setSeed z self)
  | OpSetFrequency v => snd (setFrequency v self)
  | OpSetWaveLength v => snd (setWaveLength v self)
  | OpSetWarp v => snd (setWarp v self)
  | OpSetRange v => snd (setRange v self)
  | OpCall coords => snd (__call__ coords self)
  end.

Definition perform_all (ops : list operation) (self : NPerlin) : NPerlin :=
  fold_left (fun s o => perform o s) ops self.

Definition range_invariant (self : NPerlin) : Prop :=
  __rangeMul self = snd (range self) - fst (range self).

(** The entries of a scalar-or-tuple argument. *)
Definition entries (v : pyval) : list pyval :=
  match v with PyTuple l => l | _ => [v] end.

(** A frequency argument with an entry that is not an integer or is at
    most 1.  [PyNone] stands for the default at construction. *)
Definition malformed_frequency (v : pyval) : bool :=
  match v with
  | PyNone => false
  | _ => existsb (fun f => negb (isinstance_int f) || (int_of f <=? 1)%Z) (entries v)
  end.

(** A wave-length argument with an entry that is not a number or is not
    positive. *)
Definition malformed_waveLength (v : pyval) : bool :=
  match v with
  | PyNone => false
  | _ => existsb (fun w => negb (isinstance_real w) || Qle_bool (num w) 0) (entries v)
  end.

(** A range argument that is not a sequence of exactly two numbers. *)
Definition malformed_range (v : pyval) : bool :=
  match v with
  | PyNone => false
  | PyTuple [a; b] | PyList [a; b] => negb (isinstance_real a && isinstance_real b)
  | _ => true
  end.

(** The failures the validators raise. *)
Definition validation_failure {A} (r : result A) : Prop :=
  r = Raise AssertionError \/ r = Raise TypeError.

Definition safe {A} (r : result A) : Prop := ~ validation_failure r.

(** The fill rule in the words of the specification: each value of the
    axis [N div L] times, then the last value [N mod L] times. *)
Definition spec_fill (N : nat) (xs : list Q) : list Q :=
  let L := length xs in
  np_repeat xs (N / L) ++ repeat (last xs 0) (N mod L).

(** The formatted matrix in the words of the specification: an axis shorter
    than the longest one is filled by [spec_fill], the others are kept. *)
Definition spec_formatCoords (coords : list coord) : list (list Q) :=
  let N := maxLen coords in
  map (fun c => let xs := as_seq c in
                if Nat.ltb (length xs) N then spec_fill N xs else xs) coords.

(** ** The pipeline seen one sample at a time

    [__call__] works on whole arrays.  The definitions below give the value
    of one sample from that sample's coordinates; the theorems relate them
    to what [__call__] returns. *)

(** A configuration as the validators and the spec's data model leave it:
    frequencies above 1, positive wave lengths, a multiplier of at least
    1, no per-axis tuple empty. *)
Definition valid (self : NPerlin) : Prop :=
  (1 <= fwm self)%Z /\
  __frequency self <> [] /\ Forall (fun f => (1 < f)%Z) (__frequency self) /\
  __waveLength self <> [] /\ Forall (fun w => 0 < w) (__waveLength self) /\
  __warp self <> [].

(** [self.amp[:D]] and [self.mFrequency[:D]] *)
Definition spacing (self : NPerlin) (D : nat) : result (list Q) :=
  a <- amp self ;; NTuple.slice a D.

Definition periods (self : NPerlin) (D : nat) : result (list Z) :=
  NTuple.slice (mFrequency self) D.

(** [self.mWaveLength[:D]] *)
Definition wavelengths (self : NPerlin) (D : nat) : result (list Q) :=
  NTuple.slice (mWaveLength self) D.

(** An array of [D] rows of [N] entries. *)
Definition matrix {A} (D N : nat) (m : list (list A)) : Prop :=
  length m = D /\ Forall (fun row => length row = N) m.

Fixpoint pairs_of (l : list Q) : list (Q * Q) :=
  match l with
  | a :: b :: t => (a, b) :: pairs_of t
  | _ => []
  end.

Definition blend (wt : Q) (p : Q * Q) : Q := wt * (snd p - fst p) + fst p.

Definition collapse_step (wt : Q) (vals : list Q) : list Q :=
  map (blend wt) (pairs_of vals).

Definition warp_at (self : NPerlin) (d : Z) : Warp :=
  match NTuple.getitem (__warp self) d with
  | Ok w => w
  | Raise _ => fun t => t
  end.

(** One turn of the loop of [bNoise] on the values of one sample. *)
Definition collapse_turn (self : NPerlin) (fr : list Q) (vs : list Q) (d : nat) : list Q :=
  collapse_step (warp_at self (Z.of_nat d) (nth d fr 0)) vs.

(** The corner values [vals] of one sample blended along the axes, with the
    sample's fractional offsets [fr]. *)
Definition collapse (self : NPerlin) (vals fr : list Q) : Q :=
  let dims := length fr in
  hd 0 (collapse_step (warp_at self (-1) (nth (dims - 1) fr 0))
          (fold_left (collapse_turn self fr) (seq 0 (dims - 1)) vals)).

(** Unitized coordinates of a sample [x], in the reversed axis order of
    [findBounds], with the spacings [aD] read in declared order. *)
Definition sample_unit (aD : list Q) (x : list Q) : list Q :=
  map (fun xa => Qabs (fst xa) / snd xa) (combine (rev x) aD).

Definition sample_lower (us : list Q) : list Z :=
  map (fun u => uint16 (Qfloor u)) us.

Definition sample_frac (us : list Q) : list Q :=
  rev (map (fun u => u - inject_Z (uint16 (Qfloor u))) us).

Definition sample_corner (fD : list Z) (lis : list Z) (c : list Z) : list Z :=
  map (fun dlf => ((fst (snd dlf) + nth (fst dlf) c 0) mod snd (snd dlf))%Z)
      (combine (seq 0 (length lis)) (combine lis fD)).

Definition sample (self : NPerlin) (aD : list Q) (fD : list Z) (x : list Q) : Q :=
  let us := sample_unit aD x in
  let vals := map (fun c => prng_value (__prng self) (seed self)
                              (sample_corner fD (sample_lower us) c))
                  (findCorners (length x)) in
  collapse self vals (sample_frac us) * __rangeMul self + fst (range self).

(** The arrays of [findBounds] for the spacings [aD] and the periods [fD]
    read for the axes. *)
Definition unitize (aD : list Q) (fCoords : list (list Q)) : list (list Q) :=
  map (fun ra => map (fun x => x / snd ra) (fst ra)) (combine (rev fCoords) aD).

Definition bounds_index (aD : list Q) (fD : list Z) (fCoords : list (list Q))
    : list (list (list Z)) :=
  map (fun rf => map (map (fun i => (i mod snd rf)%Z)) (fst rf))
      (combine (add_corners (map (map (fun u => uint16 (Qfloor u))) (unitize aD fCoords))
                            (findCorners (length fCoords)))
               fD).

Definition bounds_frac (aD : list Q) (fCoords : list (list Q)) : list (list Q) :=
  rev (map (map (fun u => u - inject_Z (uint16 (Qfloor u)))) (unitize aD fCoords)).

(** Objects for concrete runs, as the constructor builds them. *)
Definition engine (frequency' : list Z) (waveLength' : list Q) (warp' : list Warp)
    (lo hi : Q) : NPerlin :=
  mkNPerlin 1 frequency' waveLength' (mkNPrng 0 demo_value) warp' (lo, hi) (hi - lo).

(** The fractional offsets the specification asks of the bounds resolver:
    axis [d] divided by its own spacing [aD[d]], less the floor. *)
Definition spec_frac (aD : list Q) (fCoords : list (list Q)) : list (list Q) :=
  map (fun ra => map (fun x => x / snd ra - inject_Z (Qfloor (x / snd ra))) (fst ra))
      (combine fCoords aD).

(** [a.min()] and [a.max()] of a flattened row that is not empty. *)
Definition flat_min (row : list (list Z)) : Z :=
  match concat row with [] => 0%Z | x :: t => fold_left Z.min t x end.

Definition flat_max (row : list (list Z)) : Z :=
  match concat row with [] => 0%Z | x :: t => fold_left Z.max t x end.

(** A warp is a function of the number it is given, whatever fraction
    writes that number. *)
Definition respectful (w : Warp) : Prop := forall p q, p == q -> w p == w q.

(** f(0) = 0 *)
Definition zero_at_zero (w : Warp) : Prop := forall q, q == 0 -> w q == 0.

(** Column [n] of an integer matrix. *)
Definition columnZ (m : list (list Z)) (n : nat) : list Z :=
  map (fun row => nth n row 0%Z) m.

(** The provider index of the lattice node [K] (one node index per axis):
    every axis wrapped modulo its period, the axes in reverse order, as
    [findBounds] lays the index tuple out. *)
Definition node_index (fD : list Z) (K : list Z) : list Z :=
  rev (map (fun kf => (fst kf mod snd kf)%Z) (combine K fD)).

(** A warp that maps [0, 1] into [0, 1]. *)
Definition unit_warp (w : Warp) : Prop := forall t, 0 <= t <= 1 -> 0 <= w t <= 1.

(** A provider whose values lie in [0, 1). *)
Definition unit_provider (p : NPrng) : Prop :=
  forall sd idx, 0 <= prng_value p sd idx /\ prng_value p sd idx < 1.

(** ** Vocabulary of the further properties *)

(** The coordinate argument with every value negated. *)
Definition negate (c : coord) : coord :=
  match c with
  | Scalar x => Scalar (- x)
  | Seq xs => Seq (map Qopp xs)
  end.

(** An operation that does not hand an empty tuple to a per-axis setter. *)
Definition declares_axes (o : operation) : Prop :=
  match o with
  | OpSetFrequency v | OpSetWaveLength v | OpSetWarp v => v <> PyTuple []
  | _ => True
  end.

(** The object with another multiplier. *)
Definition with_fwm (self : NPerlin) (k : Z) : NPerlin :=
  mkNPerlin k (__frequency self) (__waveLength self) (__prng self)
            (__warp self) (__range self) (__rangeMul self).
(** * Properties *)

(** ** Sampling leaves the object alone *)

Lemma bindM_reads_state {A B} (f : NPerlin -> result A) (k : A -> M B) self :
  (forall a s, snd (k a s) = s) ->
  snd (bindM (reads f) k self) = self.
Proof.
  intros Hk. unfold bindM, reads.
  destruct (f self) as [a|e]; [apply Hk | reflexivity].
Qed.

Lemma call_state (coords : list coord) (self : NPerlin) :
  snd (__call__ coords self) = self.
Proof.
  unfold __call__.
  repeat (apply bindM_reads_state; intros).
  reflexivity.
Qed.








(** ** The range and its multiplier *)

Lemma getRange_invariant v rm :
  __getRange v = Ok rm -> snd rm = snd (fst rm) - fst (fst rm).
Proof.
  unfold __getRange. intros H.
  destruct (py_len v) as [n|]; simpl in H; [|discriminate].
  destruct (if Nat.eqb n 2 then _ else _) as [[|]|]; simpl in H; try discriminate.
  destruct (py_getitem v 0) as [r0|]; simpl in H; [|discriminate].
  destruct (py_getitem v 1) as [r1|]; simpl in H; [|discriminate].
  inversion H; subst; reflexivity.
Qed.

Lemma init_range_invariant gen fresh sd f w wp r k self :
  __init__ gen fresh sd f w wp r k = Ok self -> range_invariant self.
Proof.
  unfold __init__. intros H.
  destruct (__getFrequency _); simpl in H; [|discriminate].
  destruct (__getWaveLength _); simpl in H; [|discriminate].
  destruct (__getWarp _); simpl in H; [|discriminate].
  destruct (__getRange _) as [rm|] eqn:E; simpl in H; [|discriminate].
  inversion H; subst. unfold range_invariant; simpl.
  eapply getRange_invariant; eauto.
Qed.

Lemma setter_shape {A} (g : result A) (upd : A -> NPerlin -> NPerlin) self :
  snd (bindM (reads (fun _ => g)) (fun a => assign (upd a)) self)
  = match g with Ok a => upd a self | Raise _ => self end.
Proof. unfold bindM, reads, assign. destruct g; reflexivity. Qed.

Lemma perform_range (o : operation) (self : NPerlin) :
  match o with
  | OpSetRange _ => True
  | _ => range (perform o self) = range self /\ __rangeMul (perform o self) = __rangeMul self
  end.
Proof.
  destruct o; simpl; auto;
    try (unfold setFrequency, setWaveLength, setWarp; rewrite setter_shape;
         match goal with |- context [match ?g with _ => _ end] => destruct g end;
         split; reflexivity).
  rewrite call_state; split; reflexivity.
Qed.

Lemma perform_range_invariant (o : operation) (self : NPerlin) :
  range_invariant self -> range_invariant (perform o self).
Proof.
  intros H. pose proof (perform_range o self) as P.
  destruct o;
    try (unfold range_invariant; rewrite (proj1 P), (proj2 P); exact H).
  simpl. unfold setRange. rewrite setter_shape.
  destruct (__getRange v) as [rm|] eqn:E; [|exact H].
  unfold range_invariant; simpl. eapply getRange_invariant; eauto.
Qed.

Lemma perform_all_range_invariant ops self :
  range_invariant self -> range_invariant (perform_all ops self).
Proof.
  revert self. induction ops as [|o ops IH]; intros self H; simpl; auto.
  apply IH, perform_range_invariant, H.
Qed.

(** C9.  After construction and after any sequence of operations (in
    particular after every [setRange]) the stored multiplier is
    [range[1] - range[0]], so [applyRange] maps [raw] to
    [range[0] + raw * (range[1] - range[0])]; and [setSeed],
    [setFrequency], [setWaveLength], [setWarp] and sampling leave the stored
    range and the multiplier as they were. *)
Theorem range_multiplier_invariant gen fresh sd f w wp r k self
    (ops : list operation) (o : operation) (raw : list Q) :
  __init__ gen fresh sd f w wp r k = Ok self ->
  let self' := perform_all ops self in
  range_invariant self' /\
  range_invariant (perform o self') /\
  Forall2 Qeq (applyRange self' raw)
              (map (fun x => fst (range self') + x * (snd (range self') - fst (range self'))) raw) /\
  match o with
  | OpSetRange _ => True
  | _ => range (perform o self') = range self' /\ __rangeMul (perform o self') = __rangeMul self'
  end.
Proof.
  intros Hinit self'.
  assert (Hinv : range_invariant self')
    by (apply perform_all_range_invariant, (init_range_invariant _ _ _ _ _ _ _ _ _ Hinit)).
  split; [exact Hinv|].
  split; [apply perform_range_invariant, Hinv|].
  split; [|apply perform_range].
  unfold applyRange. rewrite Hinv.
  induction raw as [|x raw IH]; simpl; constructor; auto. ring.
Qed.

Lemma range_multiplier_invariant_witness :
  let self := mkNPerlin 1 [8%Z] [128] (mkNPrng 0 demo_value) [Warp_improved] (2, 5) (5 - 2) in
  let self' := perform_all [OpSetRange (PyTuple [PyInt (-1); PyFloat (1#2)]); OpCall [Scalar 3]] self in
  range_invariant self' /\
  range_invariant (perform (OpSetSeed 4) self') /\
  Forall2 Qeq (applyRange self' [1#3])
              (map (fun x => fst (range self') + x * (snd (range self') - fst (range self'))) [1#3]) /\
  range (perform (OpSetSeed 4) self') = range self' /\
  __rangeMul (perform (OpSetSeed 4) self') = __rangeMul self'.
Proof.
  apply (range_multiplier_invariant demo_value 0 (Some 0%Z) (PyInt 8) (PyInt 128)
           PyNone (PyTuple [PyInt 2; PyInt 5]) 1 _
           [OpSetRange (PyTuple [PyInt (-1); PyFloat (1#2)]); OpCall [Scalar 3]]
           (OpSetSeed 4) [1#3]).
  reflexivity.
Defined.

(** ** Validation happens in the constructor and the setters *)

Lemma py_all_bad (check : pyval -> result bool) (bad : pyval -> bool) fs :
  (forall x, bad x = true -> check x = Ok false \/ is_raise (check x)) ->
  existsb bad fs = true ->
  py_all check fs = Ok false \/ is_raise (py_all check fs).
Proof.
  intros Hbad. induction fs as [|x fs IH]; simpl; intros H; [discriminate|].
  destruct (bad x) eqn:Bx; simpl in H.
  - destruct (Hbad x Bx) as [E|[e E]]; rewrite E; simpl; [left|right; exists e]; reflexivity.
  - destruct (check x) as [[|]|e]; simpl; auto. right; exists e; reflexivity.
Qed.

Lemma frequency_entry_bad x :
  negb (isinstance_int x) || (int_of x <=? 1)%Z = true ->
  py_and (py_gt x 1) (Ok (isinstance_int x)) = Ok false
  \/ is_raise (py_and (py_gt x 1) (Ok (isinstance_int x))).
Proof.
  unfold py_and, py_gt. intros H.
  destruct x as [|[|]|z|q|l|l|w]; simpl in *; try discriminate;
    try (right; eexists; reflexivity); auto;
    try match goal with
    | |- context [Qlt_le_dec ?a ?b] => destruct (Qlt_le_dec a b) as [L|L]; simpl; auto
    end.
  exfalso. rewrite <- Zlt_Qlt in L. apply Z.leb_le in H. lia.
Qed.

Lemma waveLength_entry_bad x :
  negb (isinstance_real x) || Qle_bool (num x) 0 = true ->
  py_and (py_gt x 0) (Ok (isinstance_real x)) = Ok false
  \/ is_raise (py_and (py_gt x 0) (Ok (isinstance_real x))).
Proof.
  unfold py_and, py_gt. intros H.
  destruct (isinstance_real x) eqn:R; simpl in *; [|right; eexists; reflexivity].
  apply Qle_bool_iff in H.
  destruct (Qlt_le_dec (inject_Z 0) (num x)) as [L|L]; simpl; auto.
  exfalso. apply (Qlt_not_le _ _ L). exact H.
Qed.

Lemma getFrequency_rejects v :
  malformed_frequency v = true -> is_raise (__getFrequency v).
Proof.
  intros H. unfold __getFrequency.
  assert (T : forall fs, existsb (fun f => negb (isinstance_int f) || (int_of f <=? 1)%Z) fs = true ->
              is_raise (ok <- py_all (fun f => py_and (py_gt f 1) (Ok (isinstance_int f))) fs ;;
                        if ok then Ok (map int_of fs) else Raise AssertionError)).
  { intros fs Hfs.
    destruct (py_all_bad _ _ fs frequency_entry_bad Hfs) as [E|[e E]];
      rewrite E; simpl; eexists; reflexivity. }
  destruct v; try discriminate;
    cbv beta iota zeta delta [isinstance_int isinstance_real];
    try (apply T; exact H); eexists; reflexivity.
Qed.

Lemma getWaveLength_rejects v :
  malformed_waveLength v = true -> is_raise (__getWaveLength v).
Proof.
  intros H. unfold __getWaveLength.
  assert (T : forall ws, existsb (fun w => negb (isinstance_real w) || Qle_bool (num w) 0) ws = true ->
              is_raise (ok <- py_all (fun w => py_and (py_gt w 0) (Ok (isinstance_real w))) ws ;;
                        if ok then Ok (map num ws) else Raise AssertionError)).
  { intros ws Hws.
    destruct (py_all_bad _ _ ws waveLength_entry_bad Hws) as [E|[e E]];
      rewrite E; simpl; eexists; reflexivity. }
  destruct v; try discriminate;
    cbv beta iota zeta delta [isinstance_int isinstance_real];
    try (apply T; exact H); eexists; reflexivity.
Qed.

Lemma getRange_rejects v :
  malformed_range v = true -> v <> PyNone -> is_raise (__getRange v).
Proof.
  intros H Hn. unfold __getRange.
  destruct v as [| | | |l|l|]; simpl in *; try congruence;
    try (eexists; reflexivity);
    (destruct l as [|a [|b [|c l]]]; simpl; try (eexists; reflexivity);
     destruct (isinstance_real a), (isinstance_real b); simpl in *;
     try discriminate; eexists; reflexivity).
Qed.

Lemma setter_rejects {A} (g : result A) (upd : A -> NPerlin -> NPerlin) self :
  is_raise g ->
  let r := bindM (reads (fun _ => g)) (fun a => assign (upd a)) self in
  is_raise (fst r) /\ snd r = self.
Proof.
  intros [e E]. subst g. unfold bindM, reads; simpl. split; [exists e|]; reflexivity.
Qed.

(** No stage of the pipeline raises what the validators raise. *)

Lemma Ok_safe {A} (a : A) : safe (Ok a).
Proof. intros [H|H]; discriminate. Qed.

Lemma Raise_safe {A} (e : exn) :
  e <> AssertionError -> e <> TypeError -> safe (@Raise A e).
Proof. intros H1 H2 [H|H]; inversion H; congruence. Qed.

Lemma bindR_safe {A B} (r : result A) (k : A -> result B) :
  safe r -> (forall a, safe (k a)) -> safe (bindR r k).
Proof.
  intros Hr Hk. destruct r as [a|e]; simpl; [apply Hk|].
  intros [H|H]; apply Hr; [left|right]; inversion H; reflexivity.
Qed.

Lemma mapM_safe {A B} (f : A -> result B) l :
  (forall x, safe (f x)) -> safe (mapM f l).
Proof.
  intros Hf. induction l as [|x l IH]; simpl; [apply Ok_safe|].
  apply bindR_safe; [apply Hf|intros]. apply bindR_safe; [apply IH|intros; apply Ok_safe].
Qed.

Lemma foldM_safe {A B} (f : A -> B -> result A) l a :
  (forall a x, safe (f a x)) -> safe (foldM f l a).
Proof.
  intros Hf. revert a. induction l as [|x l IH]; intros a; simpl; [apply Ok_safe|].
  apply bindR_safe; [apply Hf|intros; apply IH].
Qed.

Ltac safe_step :=
  first
    [ apply Ok_safe
    | apply Raise_safe; discriminate
    | apply bindR_safe; [|intros]
    | apply mapM_safe; intros
    | apply foldM_safe; intros
    | match goal with
      | |- safe (if ?b then _ else _) => destruct b
      | |- safe (match ?x with _ => _ end) => destruct x
      end ].

Ltac safe_tac := repeat safe_step.

Lemma getitem_safe {A} (t : list A) i : safe (NTuple.getitem t i).
Proof. unfold NTuple.getitem. safe_tac. Qed.

Lemma formatCoords_safe coords : safe (formatCoords coords).
Proof. unfold formatCoords, formatRow, assign_slice, seq_last. safe_tac. Qed.

Lemma findBounds_safe self fCoords : safe (findBounds self fCoords).
Proof.
  unfold findBounds, div_rows, mod_rows.
  safe_tac; try apply getitem_safe.
  unfold py_div. safe_tac.
Qed.

Lemma findFab_safe self bIndex : safe (findFab self bIndex).
Proof. unfold findFab, row_min, row_max. safe_tac. Qed.

Lemma fancy_index_safe fab bIndex : safe (fancy_index fab bIndex).
Proof. unfold fancy_index, window_get. safe_tac. Qed.

Lemma reshape2_safe a : safe (reshape2 a).
Proof.
  assert (H : forall n a, (length a <= n)%nat -> safe (reshape2 a)).
  { induction n as [|n IH]; intros [|x [|y t]] L; simpl in *; safe_tac; try lia.
    apply IH; lia. }
  apply (H (length a)); lia.
Qed.

Lemma interpolation_safe self pairs coords d : safe (__interpolation self pairs coords d).
Proof. unfold __interpolation. safe_tac. apply getitem_safe. Qed.

Lemma bNoise_safe self bSpace bCoords : safe (bNoise self bSpace bCoords).
Proof.
  unfold bNoise. safe_tac;
    try apply reshape2_safe; try apply interpolation_safe; try apply getitem_safe.
Qed.

Lemma bindM_reads_fst {A B} (f : NPerlin -> result A) (k : A -> M B) self :
  safe (f self) -> (forall a s, safe (fst (k a s))) ->
  safe (fst (bindM (reads f) k self)).
Proof.
  intros Hf Hk. unfold bindM, reads.
  destruct (f self) as [a|e]; [apply Hk|].
  intros [H|H]; apply Hf; [left|right]; simpl in H; inversion H; reflexivity.
Qed.

Lemma call_safe coords self : safe (fst (__call__ coords self)).
Proof.
  unfold __call__.
  apply bindM_reads_fst; [apply formatCoords_safe|intros].
  apply bindM_reads_fst; [apply findBounds_safe|intros].
  apply bindM_reads_fst; [apply findFab_safe|intros].
  apply bindM_reads_fst; [apply fancy_index_safe|intros].
  apply bindM_reads_fst; [apply bNoise_safe|intros].
  apply Ok_safe.
Qed.

Lemma init_rejects gen fresh sd f w wp r k :
  is_raise (__getFrequency (match f with PyNone => PyInt 8 | v => v end))
  \/ is_raise (__getWaveLength (match w with PyNone => PyInt 128 | v => v end))
  \/ is_raise (__getRange (match r with PyNone => PyTuple [PyInt 0; PyInt 1] | v => v end)) ->
  is_raise (__init__ gen fresh sd f w wp r k).
Proof.
  unfold __init__. intros H.
  destruct (__getFrequency _) as [f'|e]; simpl; [|exists e; reflexivity].
  destruct (__getWaveLength _) as [w'|e]; simpl; [|exists e; reflexivity].
  destruct (__getWarp _) as [wp'|e]; simpl; [|exists e; reflexivity].
  destruct (__getRange _) as [rm|e]; simpl; [|exists e; reflexivity].
  destruct H as [[e E]|[[e E]|[e E]]]; discriminate.
Qed.

(** C8.  A frequency with an entry that is not an integer or is at most 1,
    a wave length with an entry that is not positive, and a range that is
    not a pair of numbers are each rejected when handed to the constructor
    or to their setter: the call raises and the object is left as it was.
    A sampling call never raises what the validators raise. *)
Theorem validation_is_eager (f w r : pyval) (self : NPerlin) :
  malformed_frequency f = true ->
  malformed_waveLength w = true ->
  malformed_range r = true ->
  (is_raise (fst (setFrequency f self)) /\ snd (setFrequency f self) = self) /\
  (is_raise (fst (setWaveLength w self)) /\ snd (setWaveLength w self) = self) /\
  (is_raise (fst (setRange r self)) /\ snd (setRange r self) = self) /\
  (forall gen fresh sd f' w' wp' r' k,
      is_raise (__init__ gen fresh sd f w' wp' r' k) /\
      is_raise (__init__ gen fresh sd f' w wp' r' k) /\
      is_raise (__init__ gen fresh sd f' w' wp' r k)) /\
  (forall coords, ~ validation_failure (fst (__call__ coords self))).
Proof.
  intros Hf Hw Hr.
  assert (Nf : f <> PyNone) by (intros ->; discriminate).
  assert (Nw : w <> PyNone) by (intros ->; discriminate).
  assert (Nr : r <> PyNone) by (intros ->; discriminate).
  pose proof (getFrequency_rejects f Hf) as Rf.
  pose proof (getWaveLength_rejects w Hw) as Rw.
  pose proof (getRange_rejects r Hr Nr) as Rr.
  repeat split; try (apply setter_rejects; assumption).
  - apply init_rejects. left. destruct f; congruence.
  - apply init_rejects. right; left. destruct w; congruence.
  - apply init_rejects. right; right. destruct r; congruence.
  - intros coords. apply call_safe.
Qed.

Lemma validation_is_eager_witness :
  let self := mkNPerlin 1 [8%Z] [128] (mkNPrng 0 demo_value) [Warp_improved] (0, 1) 1 in
  let f := PyTuple [PyInt 4; PyInt 1] in
  let w := PyFloat (-3 # 2) in
  let r := PyTuple [PyInt 0] in
  (is_raise (fst (setFrequency f self)) /\ snd (setFrequency f self) = self) /\
  (is_raise (fst (setWaveLength w self)) /\ snd (setWaveLength w self) = self) /\
  (is_raise (fst (setRange r self)) /\ snd (setRange r self) = self) /\
  (forall gen fresh sd f' w' wp' r' k,
      is_raise (__init__ gen fresh sd f w' wp' r' k) /\
      is_raise (__init__ gen fresh sd f' w wp' r' k) /\
      is_raise (__init__ gen fresh sd f' w' wp' r k)) /\
  (forall coords, ~ validation_failure (fst (__call__ coords self))).
Proof.
  apply validation_is_eager; reflexivity.
Defined.

(** ** Formatting of the coordinates *)

Lemma np_repeat_length {A} (xs : list A) k :
  length (np_repeat xs k) = (length xs * k)%nat.
Proof.
  unfold np_repeat. induction xs as [|x xs IH]; simpl; auto.
  rewrite length_app, repeat_length, IH. reflexivity.
Qed.

Lemma np_repeat_1 {A} (xs : list A) : np_repeat xs 1 = xs.
Proof.
  unfold np_repeat. induction xs as [|x xs IH]; simpl; auto.
  f_equal. exact IH.
Qed.

Lemma maxLen_ge coords c : In c coords -> (length (as_seq c) <= maxLen coords)%nat.
Proof.
  induction coords as [|c' coords IH]; simpl; intros H; [contradiction|].
  destruct H as [->|H]; [lia|]. specialize (IH H). lia.
Qed.

Lemma assign_slice_exact n vals : length vals = n -> assign_slice n vals = Ok vals.
Proof. intros H. unfold assign_slice. rewrite H, Nat.eqb_refl. reflexivity. Qed.

Lemma seq_last_ok xs : xs <> [] -> seq_last xs = Ok (last xs 0).
Proof. destruct xs; [congruence|reflexivity]. Qed.

Lemma formatRow_fill N c :
  as_seq c <> [] -> (length (as_seq c) <= N)%nat ->
  formatRow N c = Ok (if Nat.ltb (length (as_seq c)) N
                      then spec_fill N (as_seq c) else as_seq c).
Proof.
  intros Hne Hle. unfold formatRow, spec_fill.
  rewrite (seq_last_ok _ Hne).
  remember (as_seq c) as xs eqn:Exs. remember (length xs) as L eqn:EL.
  assert (HL : (1 <= L)%nat) by (subst L; destruct xs; simpl; [congruence|lia]).
  replace (Nat.max 1 L) with L by lia.
  pose proof (Nat.div_mod_eq N L) as DM.
  pose proof (Nat.mod_upper_bound N L ltac:(lia)) as MB.
  rewrite assign_slice_exact by (rewrite np_repeat_length, <- EL; lia).
  simpl bindR. rewrite assign_slice_exact by apply repeat_length. simpl bindR.
  destruct (Nat.ltb L N) eqn:E; [reflexivity|].
  apply Nat.ltb_ge in E. assert (EN : N = L) by lia. rewrite EN.
  rewrite Nat.div_same, Nat.Div0.mod_same by lia.
  rewrite np_repeat_1. simpl. rewrite app_nil_r. reflexivity.
Qed.

Lemma mapM_ok {A B} (f : A -> result B) (g : A -> B) l :
  (forall x, In x l -> f x = Ok (g x)) -> mapM f l = Ok (map g l).
Proof.
  induction l as [|x l IH]; intros H; simpl; auto.
  rewrite (H x) by (left; reflexivity). simpl.
  rewrite IH by (intros; apply H; right; assumption). reflexivity.
Qed.

Lemma spec_fill_length N xs :
  xs <> [] -> length (spec_fill N xs) = N.
Proof.
  intros H. unfold spec_fill. rewrite length_app, np_repeat_length, repeat_length.
  pose proof (Nat.div_mod_eq N (length xs)). lia.
Qed.

(** C6, the rule as stated, at an axis with a negative value: the code
    returns the absolute values. *)
Lemma formatCoords_negative_counterexample :
  let coords := [Seq [-1; 2]; Seq [10; 20; 30]] in
  formatCoords coords = Ok [[1; 2; 2]; [10; 20; 30]] /\
  spec_formatCoords coords = [[-1; 2; 2]; [10; 20; 30]] /\
  formatCoords coords <> Ok (spec_formatCoords coords).
Proof.
  cbv zeta. split; [reflexivity|]. split; [reflexivity|].
  intros H. vm_compute in H. discriminate.
Qed.

(** C6, amended.  For per-axis inputs that are scalars or non-empty
    sequences, [formatCoords] returns the dimensions x N matrix, N the
    largest element count, whose axis of length L < N holds each of its
    values N div L times and then its last value N mod L times, with the
    absolute value taken of every entry; [[1,2,3], 5] gives [5,5,5] on
    axis 1 and [[1,2],[10,20,30]] gives [1,2,2] on axis 0. *)
Theorem formatCoords_fill (coords : list coord) :
  Forall (fun c => as_seq c <> []) coords ->
  formatCoords coords = Ok (map (map Qabs) (spec_formatCoords coords)) /\
  length (spec_formatCoords coords) = length coords /\
  Forall (fun row => length row = maxLen coords) (spec_formatCoords coords) /\
  formatCoords [Seq [1; 2; 3]; Scalar 5] = Ok [[1; 2; 3]; [5; 5; 5]] /\
  formatCoords [Seq [1; 2]; Seq [10; 20; 30]] = Ok [[1; 2; 2]; [10; 20; 30]].
Proof.
  intros Hne. rewrite Forall_forall in Hne.
  split; [|split; [|split; [|split; reflexivity]]].
  - unfold formatCoords, spec_formatCoords.
    rewrite (mapM_ok _ (fun c => if Nat.ltb (length (as_seq c)) (maxLen coords)
                                 then spec_fill (maxLen coords) (as_seq c) else as_seq c)).
    + reflexivity.
    + intros c Hc. apply formatRow_fill; [apply Hne, Hc | apply maxLen_ge, Hc].
  - unfold spec_formatCoords. apply length_map.
  - unfold spec_formatCoords. rewrite Forall_map, Forall_forall. intros c Hc.
    destruct (Nat.ltb _ _) eqn:E.
    + apply spec_fill_length, Hne, Hc.
    + apply Nat.ltb_ge in E. pose proof (maxLen_ge _ _ Hc). lia.
Qed.

Lemma formatCoords_fill_witness :
  let coords := [Seq [-1; 2]; Scalar 7; Seq [10; 20; 30; 40; 50]] in
  formatCoords coords = Ok (map (map Qabs) (spec_formatCoords coords)) /\
  length (spec_formatCoords coords) = length coords /\
  Forall (fun row => length row = maxLen coords) (spec_formatCoords coords) /\
  formatCoords [Seq [1; 2; 3]; Scalar 5] = Ok [[1; 2; 3]; [5; 5; 5]] /\
  formatCoords [Seq [1; 2]; Seq [10; 20; 30]] = Ok [[1; 2; 2]; [10; 20; 30]].
Proof.
  apply formatCoords_fill.
  repeat constructor; discriminate.
Defined.

(** ** The array code computes every sample on its own *)

Lemma combine_app {A B} (a1 a2 : list A) (b1 b2 : list B) :
  length a1 = length b1 ->
  combine (a1 ++ a2) (b1 ++ b2) = combine a1 b1 ++ combine a2 b2.
Proof.
  revert b1. induction a1 as [|x a1 IH]; intros [|y b1] H; simpl in *; try discriminate; auto.
  f_equal. apply IH. lia.
Qed.

Lemma map_combine_map {A B C} (f : A * B -> C) (g : A -> B) (l : list A) :
  map f (combine l (map g l)) = map (fun x => f (x, g x)) l.
Proof. induction l as [|x l IH]; simpl; auto. f_equal. exact IH. Qed.

Lemma map_fst_combine {A B} (l : list A) (l' : list B) :
  length l = length l' -> map fst (combine l l') = l.
Proof.
  revert l'. induction l as [|x l IH]; intros [|y l'] H; simpl in *; try discriminate; auto.
  f_equal. apply IH. lia.
Qed.

Lemma map_combine_again {A B C D} (F : C * B -> D) (G : A * B -> C) rows (cs : list B) :
  map F (combine (map G (combine rows cs)) cs)
  = map (fun rc => F (G rc, snd rc)) (combine rows cs).
Proof.
  revert cs. induction rows as [|r rows IH]; intros [|c cs]; simpl; auto.
  f_equal. apply IH.
Qed.

Lemma pairs_of_app r t m :
  length r = (2 * m)%nat -> pairs_of (r ++ t) = pairs_of r ++ pairs_of t.
Proof.
  revert r. induction m as [|m IH]; intros r H.
  - destruct r; [reflexivity|discriminate].
  - destruct r as [|a [|b r]]; simpl in H; try lia.
    simpl. f_equal. apply IH. lia.
Qed.

Lemma pairs_of_length l m : length l = (2 * m)%nat -> length (pairs_of l) = m.
Proof.
  revert l. induction m as [|m IH]; intros l H.
  - destruct l; [reflexivity|discriminate].
  - destruct l as [|a [|b l]]; simpl in H; try lia.
    simpl. f_equal. apply IH. lia.
Qed.

Lemma reshape2_pairs_of l m : length l = (2 * m)%nat -> reshape2 l = Ok (pairs_of l).
Proof.
  revert l. induction m as [|m IH]; intros l H.
  - destruct l; [reflexivity|discriminate].
  - destruct l as [|a [|b l]]; simpl in H; try lia.
    simpl. rewrite IH by lia. reflexivity.
Qed.

Lemma pow2_succ n : (2 ^ (n + 1) = 2 * 2 ^ n)%nat.
Proof. rewrite Nat.add_1_r. apply Nat.pow_succ_r'. Qed.

Lemma concat_rows_length {A} (rows : list (list A)) k :
  Forall (fun r => length r = k) rows -> length (concat rows) = (length rows * k)%nat.
Proof.
  induction 1 as [|r rows Hr _ IH]; simpl; auto.
  rewrite length_app, IH, Hr. reflexivity.
Qed.

Lemma collapse_step_length wt vals m :
  length vals = (2 * m)%nat -> length (collapse_step wt vals) = m.
Proof. intros H. unfold collapse_step. rewrite length_map. apply pairs_of_length, H. Qed.

Lemma getitem_warp_at self d :
  __warp self <> [] -> (-1 <= d)%Z -> NTuple.getitem (__warp self) d = Ok (warp_at self d).
Proof.
  intros Hne Hd. unfold warp_at.
  assert (E : exists w, NTuple.getitem (__warp self) d = Ok w).
  { unfold NTuple.getitem.
    destruct (__warp self) as [|w0 ws] eqn:Ew; [congruence|].
    set (n := Z.of_nat (length (w0 :: ws))).
    assert (Hn : (1 <= n)%Z) by (subst n; simpl length; lia).
    set (j := if (d <? 0)%Z then (n + d)%Z else if (n <=? d)%Z then (n - 1)%Z else d).
    assert (Hj : (0 <= j < n)%Z).
    { subst j. destruct (d <? 0)%Z eqn:E1; [apply Z.ltb_lt in E1; lia|].
      apply Z.ltb_ge in E1. destruct (n <=? d)%Z eqn:E2;
        [apply Z.leb_le in E2|apply Z.leb_gt in E2]; lia. }
    destruct (j <? 0)%Z eqn:E3; [apply Z.ltb_lt in E3; lia|].
    destruct (nth_error (w0 :: ws) (Z.to_nat j)) as [w|] eqn:E4; [eexists; reflexivity|].
    apply nth_error_None in E4. subst n. lia. }
  destruct E as [w E]. rewrite E. reflexivity.
Qed.

Section Rows.

Variable self : NPerlin.
Variable cs : list (list Q).
Variable dims : nat.
Hypothesis warp_declared : __warp self <> [].

Lemma interpolation_rows (d : Z) (j : nat) (m : nat) (rows : list (list Q)) :
  (-1 <= d)%Z ->
  length rows = length cs ->
  Forall (fun r => length r = (2 * m)%nat) rows ->
  __interpolation self (pairs_of (concat rows)) (np_repeat (column cs j) m) d
  = Ok (concat (map (fun rc => collapse_step (warp_at self d (nth j (snd rc) 0)) (fst rc))
                    (combine rows cs))).
Proof.
  intros Hd Hlen Hrows. unfold __interpolation.
  rewrite (getitem_warp_at _ _ warp_declared Hd). simpl bindR.
  assert (L1 : length (pairs_of (concat rows)) = (length rows * m)%nat).
  { apply pairs_of_length. rewrite (concat_rows_length _ _ Hrows). lia. }
  rewrite np_repeat_length. unfold column at 1. rewrite length_map, L1, <- Hlen, Nat.eqb_refl.
  f_equal. clear L1. revert Hlen Hrows. generalize cs as cs'.
  induction rows as [|r rows IH]; intros [|c cs'] Hlen Hrows; simpl in Hlen; try discriminate.
  - reflexivity.
  - inversion Hrows as [|? ? Hr Hrows']; subst.
    simpl concat. rewrite (pairs_of_app _ _ _ Hr).
    unfold np_repeat, column. simpl flat_map. fold (column cs' j). fold (np_repeat (column cs' j) m).
    rewrite List.map_app.
    assert (Lp : length (pairs_of r) = m) by (apply pairs_of_length, Hr).
    rewrite !combine_app by (rewrite ?length_combine, ?length_map, ?repeat_length; lia).
    rewrite List.map_app. simpl combine. simpl map. f_equal.
    + unfold collapse_step. simpl fst; simpl snd.
      rewrite <- Lp. clear. induction (pairs_of r) as [|p ps IHp]; simpl; auto.
      f_equal. exact IHp.
    + apply IH; [lia|assumption].
Qed.

Lemma loop_rows (k : nat) : forall (d : nat) (rows : list (list Q)),
  (d + k = dims - 1)%nat ->
  length rows = length cs ->
  Forall (fun r => length r = (2 ^ (k + 1))%nat) rows ->
  foldM (bNoise_turn self cs dims) (seq d k) (pairs_of (concat rows))
  = Ok (pairs_of (concat (map (fun rc => fold_left (collapse_turn self (snd rc)) (seq d k) (fst rc))
                              (combine rows cs)))).
Proof.
  induction k as [|k IH]; intros d rows Hd Hlen Hrows.
  - simpl. rewrite map_fst_combine by assumption. reflexivity.
  - simpl foldM. unfold bNoise_turn at 1. cbv zeta.
    replace (dims - 1 - d)%nat with (S k) by lia.
    rewrite (interpolation_rows (Z.of_nat d) d (2 ^ S k) rows); try assumption; try lia.
    2:{ eapply Forall_impl; [|exact Hrows]. intros r Hr. cbv beta in Hr.
        rewrite Hr. apply pow2_succ. }
    simpl bindR.
    set (rows1 := map (fun rc => collapse_step (warp_at self (Z.of_nat d) (nth d (snd rc) 0)) (fst rc))
                      (combine rows cs)).
    assert (Hrows1 : Forall (fun r => length r = (2 ^ (k + 1))%nat) rows1).
    { subst rows1. rewrite Forall_map, Forall_forall. intros [r c] Hin. simpl.
      apply collapse_step_length.
      apply in_combine_l in Hin. rewrite Forall_forall in Hrows. rewrite (Hrows r Hin).
      rewrite pow2_succ. f_equal. f_equal. lia. }
    assert (Hlen1 : length rows1 = length cs).
    { subst rows1. rewrite length_map, length_combine. lia. }
    rewrite (reshape2_pairs_of _ (length rows1 * 2 ^ k)).
    2:{ rewrite (concat_rows_length _ _ Hrows1), pow2_succ. lia. }
    simpl bindR. rewrite (IH (S d) rows1) by (assumption || lia).
    do 3 f_equal. subst rows1. rewrite map_combine_again. reflexivity.
Qed.

Lemma collapse_turns_length c (k : nat) : forall (d : nat) (r : list Q),
  length r = (2 ^ (k + 1))%nat ->
  length (fold_left (collapse_turn self c) (seq d k) r) = 2%nat.
Proof.
  induction k as [|k IH]; intros d r Hr; [exact Hr|].
  simpl. apply IH. apply collapse_step_length. rewrite Hr, pow2_succ.
  f_equal. f_equal. lia.
Qed.

Lemma concat_singletons {A B} (g : A -> list B) (d : B) (l : list A) :
  (forall x, In x l -> length (g x) = 1%nat) ->
  concat (map g l) = map (fun x => hd d (g x)) l.
Proof.
  induction l as [|x l IH]; intros H; simpl; auto.
  rewrite IH by (intros; apply H; right; assumption).
  specialize (H x (or_introl eq_refl)).
  destruct (g x) as [|y [|z t]]; simpl in *; try discriminate. reflexivity.
Qed.

Lemma bNoise_rows (rows : list (list Q)) :
  (1 <= dims)%nat -> cs <> [] -> length rows = length cs ->
  Forall (fun r => length r = (2 ^ dims)%nat) rows ->
  Forall (fun c => length c = dims) cs ->
  bNoise self rows cs
  = Ok (map (fun rc => collapse self (fst rc) (snd rc)) (combine rows cs)).
Proof.
  intros Hd Hne Hlen Hrows Hcs. unfold bNoise. cbv zeta.
  assert (Hhd : length (hd [] cs) = dims).
  { destruct cs as [|c cs']; [congruence|]. inversion Hcs; assumption. }
  rewrite Hhd.
  assert (Hrows' : Forall (fun r => length r = (2 ^ (dims - 1 + 1))%nat) rows).
  { replace (dims - 1 + 1)%nat with dims by lia. exact Hrows. }
  rewrite (reshape2_pairs_of _ (length rows * 2 ^ (dims - 1))).
  2:{ rewrite (concat_rows_length _ _ Hrows'), pow2_succ. lia. }
  simpl bindR.
  pose proof (loop_rows (dims - 1) 0 rows ltac:(lia) Hlen Hrows') as L.
  rewrite L. clear L.
  simpl bindR.
  destruct (Nat.eqb dims 0) eqn:E0; [apply Nat.eqb_eq in E0; lia|].
  rewrite <- (np_repeat_1 (column cs (dims - 1))).
  rewrite interpolation_rows; try lia.
  - f_equal. rewrite map_combine_again. simpl fst; simpl snd.
    rewrite (concat_singletons _ 0).
    + apply map_ext_in. intros [r c] Hin. simpl fst; simpl snd.
      unfold collapse.
      rewrite Forall_forall in Hcs. rewrite (Hcs c (in_combine_r _ _ _ _ Hin)). reflexivity.
    + intros [r c] Hin. simpl fst; simpl snd.
      apply collapse_step_length. apply collapse_turns_length.
      rewrite Forall_forall in Hrows'. apply Hrows'. exact (in_combine_l _ _ _ _ Hin).
  - rewrite length_map, length_combine. lia.
  - rewrite Forall_map, Forall_forall. intros [r c] Hin. simpl fst; simpl snd.
    apply collapse_turns_length.
    rewrite Forall_forall in Hrows'. apply Hrows'. exact (in_combine_l _ _ _ _ Hin).
Qed.

End Rows.

(** ** Per-axis parameters of a valid configuration *)

Lemma getitem_broadcast {A} (t : list A) (d : A) (i : nat) :
  t <> [] ->
  NTuple.getitem t (Z.of_nat i) = Ok (nth (Nat.min i (length t - 1)) t d).
Proof.
  intros Hne. unfold NTuple.getitem.
  assert (HL : (1 <= length t)%nat) by (destruct t; simpl; [congruence|lia]).
  destruct (Z.of_nat i <? 0)%Z eqn:E1; [apply Z.ltb_lt in E1; lia|].
  destruct (Z.of_nat (length t) <=? Z.of_nat i)%Z eqn:E2.
  - apply Z.leb_le in E2.
    destruct (Z.of_nat (length t) - 1 <? 0)%Z eqn:E3; [apply Z.ltb_lt in E3; lia|].
    replace (Z.to_nat (Z.of_nat (length t) - 1)) with (Nat.min i (length t - 1)) by lia.
    rewrite (nth_error_nth' t d) by lia. reflexivity.
  - apply Z.leb_gt in E2. rewrite E1.
    replace (Z.to_nat (Z.of_nat i)) with (Nat.min i (length t - 1)) by lia.
    rewrite (nth_error_nth' t d) by lia. reflexivity.
Qed.

Lemma slice_broadcast {A} (t : list A) (d : A) (n : nat) :
  t <> [] ->
  NTuple.slice t n = Ok (map (fun i => nth (Nat.min i (length t - 1)) t d) (seq 0 n)).
Proof.
  intros Hne. unfold NTuple.slice. apply mapM_ok.
  intros i _. apply getitem_broadcast, Hne.
Qed.

Lemma slice_length {A} (t : list A) n l : NTuple.slice t n = Ok l -> length l = n.
Proof.
  unfold NTuple.slice. rewrite <- (length_seq n 0) at 2.
  generalize (seq 0 n) as s. intros s. revert l.
  induction s as [|i s IH]; intros l H; simpl in H.
  - inversion H; reflexivity.
  - destruct (NTuple.getitem t (Z.of_nat i)); simpl in H; [|discriminate].
    destruct (mapM _ s) as [l'|]; simpl in H; [|discriminate].
    inversion H; subst. simpl. f_equal. apply IH. reflexivity.
Qed.

Lemma slice_Forall {A} (P : A -> Prop) (t : list A) n l :
  Forall P t -> NTuple.slice t n = Ok l -> Forall P l.
Proof.
  intros HP H.
  assert (E : t = [] \/ t <> []) by (destruct t; [left; reflexivity|right; discriminate]).
  destruct E as [E|E].
  - subst t. destruct n; simpl in H; [inversion H; constructor|discriminate].
  - destruct t as [|x t'] eqn:Et; [congruence|]. rewrite <- Et in *.
    rewrite (slice_broadcast t x n E) in H. injection H as <-.
    rewrite Forall_map, Forall_forall. intros i _.
    rewrite Forall_forall in HP. apply HP, nth_In.
    assert (1 <= length t)%nat by (rewrite Et; simpl; lia). lia.
Qed.

Lemma amp_ok self :
  Forall (fun f => f <> 0%Z) (mFrequency self) ->
  amp self = Ok (map (fun wf => fst wf / inject_Z (snd wf))
                     (combine (mWaveLength self) (mFrequency self))).
Proof.
  intros H. unfold amp. apply mapM_ok. intros [w f] Hin. simpl.
  unfold py_div. rewrite Forall_forall in H.
  destruct (f =? 0)%Z eqn:E; [|reflexivity].
  apply Z.eqb_eq in E. exfalso. apply (H f); [|exact E].
  exact (in_combine_r _ _ _ _ Hin).
Qed.

Lemma valid_mFrequency self :
  valid self -> mFrequency self <> [] /\ Forall (fun f => (0 < f)%Z) (mFrequency self).
Proof.
  intros (Hk & Hne & Hf & _). unfold mFrequency, NTuple.scaleZ. split.
  - destruct (__frequency self); [congruence|discriminate].
  - rewrite Forall_map. eapply Forall_impl; [|exact Hf]. intros f H1. simpl in *. nia.
Qed.

Lemma valid_amp self :
  valid self ->
  exists a, amp self = Ok a /\ a <> [] /\ Forall (fun x => 0 < x) a.
Proof.
  intros Hv. destruct (valid_mFrequency self Hv) as [HFne HF].
  destruct Hv as (Hk & Hne & Hf & Hwne & Hw & _).
  eexists. split; [|split].
  - apply amp_ok. eapply Forall_impl; [|exact HF]. simpl. intros; lia.
  - unfold mWaveLength, mFrequency, NTuple.scaleQ, NTuple.scaleZ.
    destruct (__waveLength self); [congruence|]. destruct (__frequency self); [congruence|].
    discriminate.
  - rewrite Forall_map, Forall_forall. intros [w f] Hin. simpl.
    assert (Hw' : 0 < w).
    { apply in_combine_l in Hin. unfold mWaveLength, NTuple.scaleQ in Hin.
      apply in_map_iff in Hin. destruct Hin as (w0 & <- & Hin0).
      rewrite Forall_forall in Hw. specialize (Hw w0 Hin0).
      apply Qmult_lt_0_compat; [exact Hw|]. unfold Qlt; simpl. lia. }
    assert (Hf' : (0 < f)%Z).
    { apply in_combine_r in Hin. rewrite Forall_forall in HF. apply HF, Hin. }
    apply Qlt_shift_div_l; [unfold Qlt; simpl; lia|]. lra.
Qed.

Lemma valid_axes self D :
  valid self ->
  exists aD fD,
    spacing self D = Ok aD /\ periods self D = Ok fD /\
    length aD = D /\ length fD = D /\
    Forall (fun a => 0 < a) aD /\ Forall (fun f => (0 < f)%Z) fD.
Proof.
  intros Hv. destruct (valid_amp self Hv) as (a & Ea & Hane & Ha).
  destruct (valid_mFrequency self Hv) as [HFne HF].
  unfold spacing, periods. rewrite Ea. simpl bindR.
  rewrite (slice_broadcast a 0 D Hane), (slice_broadcast _ 0%Z D HFne).
  do 2 eexists. split; [reflexivity|]. split; [reflexivity|].
  rewrite !length_map, !length_seq. split; [reflexivity|]. split; [reflexivity|].
  split.
  - eapply slice_Forall; [exact Ha|apply (slice_broadcast a 0 D Hane)].
  - eapply slice_Forall; [exact HF|apply (slice_broadcast _ 0%Z D HFne)].
Qed.

(** ** The arrays of [findBounds] *)

Lemma nth_map_lt {A B} (f : A -> B) (l : list A) (n : nat) (d : A) (d' : B) :
  (n < length l)%nat -> nth n (map f l) d' = f (nth n l d).
Proof.
  intros H. rewrite (nth_indep _ d' (f d)) by (rewrite length_map; exact H).
  apply map_nth.
Qed.

Lemma nth_combine_lt {A B} (l : list A) (l' : list B) n (d : A) (d' : B) :
  (n < length l)%nat -> (n < length l')%nat ->
  nth n (combine l l') (d, d') = (nth n l d, nth n l' d').
Proof.
  revert l l'. induction n as [|n IH]; intros [|x l] [|y l'] H H'; simpl in *; try lia; auto.
  apply IH; lia.
Qed.

Lemma findCorners_length D : length (findCorners D) = (2 ^ D)%nat.
Proof.
  induction D as [|D IH]; simpl; auto.
  rewrite length_app, !length_map, IH. lia.
Qed.

Lemma findBounds_explicit self fCoords aD fD D N :
  matrix D N fCoords -> spacing self D = Ok aD -> periods self D = Ok fD ->
  findBounds self fCoords = Ok (bounds_index aD fD fCoords, bounds_frac aD fCoords).
Proof.
  intros [HD HN] Ha Hf. unfold findBounds.
  unfold spacing in Ha. destruct (amp self) as [a|]; simpl in Ha; [|discriminate].
  simpl bindR. rewrite HD, Ha. simpl bindR.
  assert (La : length aD = D) by (eapply slice_length; eauto).
  assert (Lf : length fD = D) by (eapply slice_length; eauto).
  unfold div_rows. rewrite length_rev, HD, La, Nat.eqb_refl. simpl bindR.
  fold (unitize aD fCoords).
  assert (LU : length (unitize aD fCoords) = D).
  { unfold unitize. rewrite length_map, length_combine, length_rev. lia. }
  rewrite !length_map, length_combine, !length_map, LU, Nat.min_id.
  unfold add_corners at 1. rewrite length_map, length_combine, length_seq, !length_map, LU, Nat.min_id.
  unfold periods in Hf. rewrite Hf. simpl bindR.
  unfold mod_rows.
  unfold add_corners at 1. rewrite length_map, length_combine, length_seq, !length_map, LU, Nat.min_id.
  rewrite Lf, Nat.eqb_refl. simpl bindR.
  unfold bounds_index, bounds_frac. rewrite HD. do 3 f_equal.
  rewrite map_combine_map. apply map_ext. intros row. simpl fst; simpl snd.
  rewrite map_combine_map. reflexivity.
Qed.

Lemma unitize_nth aD fCoords D N d n :
  matrix D N fCoords -> length aD = D -> (d < D)%nat -> (n < N)%nat ->
  length (nth d (unitize aD fCoords) []) = N /\
  nth n (nth d (unitize aD fCoords) []) 0
  = nth n (nth d (rev fCoords) []) 0 / nth d aD 0.
Proof.
  intros [HD HN] La Hd Hn. unfold unitize.
  rewrite (nth_map_lt _ _ _ ([], 0)) by (rewrite length_combine, length_rev; lia).
  rewrite nth_combine_lt by (rewrite ?length_rev; lia). simpl fst; simpl snd.
  assert (Lrow : length (nth d (rev fCoords) []) = N).
  { rewrite Forall_forall in HN. apply HN. apply in_rev.
    apply nth_In. rewrite length_rev. lia. }
  rewrite length_map. split; [exact Lrow|].
  rewrite (nth_map_lt _ _ _ 0) by lia. reflexivity.
Qed.

Lemma bounds_index_nth aD fD fCoords D N d v n :
  matrix D N fCoords -> length aD = D -> length fD = D ->
  (d < D)%nat -> (v < 2 ^ D)%nat -> (n < N)%nat ->
  nth n (nth v (nth d (bounds_index aD fD fCoords) []) []) 0%Z
  = ((uint16 (Qfloor (nth n (nth d (unitize aD fCoords) []) 0%Q))
      + nth d (nth v (findCorners D) []) 0) mod nth d fD 0)%Z.
Proof.
  intros HM La Lf Hd Hv Hn.
  destruct (unitize_nth aD fCoords D N d n HM La Hd Hn) as [LU _].
  assert (LUU : length (unitize aD fCoords) = D).
  { unfold unitize. rewrite length_map, length_combine, length_rev. destruct HM. lia. }
  unfold bounds_index, add_corners. destruct HM as [HD HN]. rewrite HD.
  rewrite !length_map, LUU.
  rewrite (nth_map_lt _ _ _ ([], 0%Z))
    by (rewrite length_combine, length_map, length_combine, length_seq, length_map; lia).
  rewrite nth_combine_lt
    by (rewrite ?length_map, ?length_combine, ?length_seq, ?length_map; lia).
  simpl fst; simpl snd.
  rewrite (nth_map_lt _ _ _ (0%nat, []))
    by (rewrite length_combine, length_seq, length_map; lia).
  rewrite nth_combine_lt by (rewrite ?length_seq, ?length_map; lia).
  simpl fst; simpl snd. rewrite seq_nth by lia. simpl Nat.add.
  rewrite (nth_map_lt _ _ _ []) by (rewrite length_map, findCorners_length; lia).
  rewrite (nth_map_lt _ _ _ []) by (rewrite findCorners_length; lia).
  rewrite (nth_map_lt _ _ _ 0%Z) by (rewrite length_map, (nth_map_lt _ _ _ []), length_map; lia).
  rewrite (nth_map_lt _ _ _ 0%Z) by (rewrite (nth_map_lt _ _ _ []), length_map; lia).
  rewrite (nth_map_lt _ _ _ []) by lia.
  rewrite (nth_map_lt _ _ _ 0) by lia.
  reflexivity.
Qed.

Lemma bounds_frac_nth aD fCoords D N d n :
  matrix D N fCoords -> length aD = D -> (d < D)%nat -> (n < N)%nat ->
  nth n (nth d (rev (bounds_frac aD fCoords)) []) 0
  = nth n (nth d (unitize aD fCoords) []) 0
    - inject_Z (uint16 (Qfloor (nth n (nth d (unitize aD fCoords) []) 0))).
Proof.
  intros HM La Hd Hn.
  destruct (unitize_nth aD fCoords D N d n HM La Hd Hn) as [LU _].
  assert (LUU : length (unitize aD fCoords) = D).
  { unfold unitize. rewrite length_map, length_combine, length_rev. destruct HM. lia. }
  unfold bounds_frac. rewrite rev_involutive.
  rewrite (nth_map_lt _ _ _ []) by lia.
  rewrite (nth_map_lt _ _ _ 0) by lia. reflexivity.
Qed.

(** ** The lower index is a 16-bit integer *)

Lemma uint16_int32 z :
  (-2147483648 <= z < 2147483648)%Z -> uint16 z = (z mod 65536)%Z.
Proof.
  intros H. unfold uint16.
  replace (-2147483648 <=? z)%Z with true by (symmetry; apply Z.leb_le; lia).
  replace (z <? 2147483648)%Z with true by (symmetry; apply Z.ltb_lt; lia).
  reflexivity.
Qed.

Lemma uint16_small z : (0 <= z < 65536)%Z -> uint16 z = z.
Proof.
  intros H. rewrite uint16_int32 by lia. apply Z.mod_small. lia.
Qed.

Lemma uint16_beyond z : (2147483648 <= z)%Z -> uint16 z = 0%Z.
Proof.
  intros H. unfold uint16.
  replace (z <? 2147483648)%Z with false by (symmetry; apply Z.ltb_ge; lia).
  rewrite andb_false_r. reflexivity.
Qed.

Lemma uint16_range z : (0 <= uint16 z < 65536)%Z.
Proof.
  unfold uint16. destruct (_ && _); [apply Z.mod_pos_bound|]; lia.
Qed.

Lemma Qfloor_ge_65536 u : 65536 <= u -> (65536 <= Qfloor u)%Z.
Proof.
  intros H. change 65536%Z with (Qfloor (inject_Z 65536)).
  apply Qfloor_resp_le. exact H.
Qed.

(** C10.  The lower lattice index of a sample is [floor(unitizedCoord)]
    cast to an unsigned 16-bit integer; only then is the corner offset
    added and the index wrapped modulo the effective frequency, and the
    fractional offset is the unitized coordinate less that 16-bit value.
    For a unitized coordinate in [-2^31, 2^31) the cast is the reduction of
    the floor modulo 2^16.  For a unitized coordinate of at least 2^16 the
    index is below the true floor and the offset differs from the
    coordinate less its floor. *)
Theorem lower_index_is_uint16 self fCoords D N d v n :
  valid self -> matrix D N fCoords ->
  (d < D)%nat -> (v < 2 ^ D)%nat -> (n < N)%nat ->
  exists aD fD bIndex bCoords,
    spacing self D = Ok aD /\ periods self D = Ok fD /\
    findBounds self fCoords = Ok (bIndex, bCoords) /\
    let u := nth n (nth d (rev fCoords) []) 0 / nth d aD 0 in
    let lowerIndex := uint16 (Qfloor u) in
    nth n (nth v (nth d bIndex []) []) 0%Z
      = ((lowerIndex + nth d (nth v (findCorners D) []) 0) mod nth d fD 0)%Z /\
    nth n (nth d (rev bCoords) []) 0 = u - inject_Z lowerIndex /\
    (- 2147483648 <= u -> u < 2147483648 ->
     lowerIndex = (Qfloor u mod 65536)%Z) /\
    (65536 <= u ->
     (lowerIndex < Qfloor u)%Z /\
     1 <= u - inject_Z lowerIndex /\
     ~ u - inject_Z lowerIndex == u - inject_Z (Qfloor u)).
Proof.
  intros Hv HM Hd Hvv Hn.
  destruct (valid_axes self D Hv) as (aD & fD & Ha & Hf & La & Lf & _).
  exists aD, fD, (bounds_index aD fD fCoords), (bounds_frac aD fCoords).
  split; [exact Ha|]. split; [exact Hf|].
  split; [eapply findBounds_explicit; eauto|].
  destruct (unitize_nth aD fCoords D N d n HM La Hd Hn) as [_ EU].
  cbv zeta. split; [|split; [|split]].
  - rewrite (bounds_index_nth aD fD fCoords D N d v n HM La Lf Hd Hvv Hn), EU. reflexivity.
  - rewrite (bounds_frac_nth aD fCoords D N d n HM La Hd Hn), EU. reflexivity.
  - intros Hlo Hhi. apply uint16_int32.
    remember (nth n (nth d (rev fCoords) []) 0 / nth d aD 0) as u eqn:Eu.
    split.
    + change (-2147483648)%Z with (Qfloor (inject_Z (-2147483648))).
      apply Qfloor_resp_le. exact Hlo.
    + pose proof (Qfloor_le u) as F.
      assert (F' : inject_Z (Qfloor u) < inject_Z 2147483648)
        by (eapply Qle_lt_trans; [exact F|exact Hhi]).
      rewrite <- Zlt_Qlt in F'. exact F'.
  - intros Hu. pose proof (Qfloor_ge_65536 _ Hu) as HF.
    remember (nth n (nth d (rev fCoords) []) 0 / nth d aD 0) as u eqn:Eu.
    remember (Qfloor u) as fl eqn:Efl.
    pose proof (uint16_range fl) as HB.
    split; [lia|]. split.
    + assert (inject_Z (uint16 fl) <= inject_Z 65535) by (rewrite <- Zle_Qle; lia).
      assert (inject_Z 65535 == 65535) by reflexivity. lra.
    + intros E.
      assert (E' : inject_Z (uint16 fl) == inject_Z fl) by lra.
      pose proof (proj1 (inject_Z_injective _ _) E') as E2. lia.
Qed.

Lemma lower_index_is_uint16_witness :
  exists aD fD bIndex bCoords,
    spacing (engine [8%Z] [8] [Warp_improved] 0 1) 1 = Ok aD /\
    periods (engine [8%Z] [8] [Warp_improved] 0 1) 1 = Ok fD /\
    findBounds (engine [8%Z] [8] [Warp_improved] 0 1) [[131073 # 2]] = Ok (bIndex, bCoords) /\
    let u := nth 0 (nth 0 (rev [[131073 # 2]]) []) 0 / nth 0 aD 0 in
    let lowerIndex := uint16 (Qfloor u) in
    nth 0 (nth 1 (nth 0 bIndex []) []) 0%Z
      = ((lowerIndex + nth 0 (nth 1 (findCorners 1) []) 0) mod nth 0 fD 0)%Z /\
    nth 0 (nth 0 (rev bCoords) []) 0 = u - inject_Z lowerIndex /\
    (- 2147483648 <= u -> u < 2147483648 ->
     lowerIndex = (Qfloor u mod 65536)%Z) /\
    (65536 <= u ->
     (lowerIndex < Qfloor u)%Z /\
     1 <= u - inject_Z lowerIndex /\
     ~ u - inject_Z lowerIndex == u - inject_Z (Qfloor u)).
Proof.
  apply (lower_index_is_uint16 (engine [8%Z] [8] [Warp_improved] 0 1) [[131073 # 2]] 1 1 0 1 0).
  - unfold valid; simpl. repeat split; try lia; try discriminate;
      repeat constructor.
  - split; [reflexivity|repeat constructor].
  - lia.
  - simpl; lia.
  - lia.
Defined.

(** C10 as stated, at the unitized coordinate 2^31 + 256 (period 7, spacing
    7/7, so the coordinate is its own unitized value): the cast gives the
    lower index 0, where reduction modulo 2^16 gives 256; the corner index
    is 0 and not [256 mod 7 = 4], and the offset is the whole coordinate
    and not the coordinate less 256. *)
Lemma lower_index_beyond_int32_counterexample :
  let self := engine [7%Z] [7] [Warp_improved] 0 1 in
  let u : Q := 2147483904 in
  exists bIndex bCoords,
    findBounds self [[u]] = Ok (bIndex, bCoords) /\
    65536 <= u /\
    (Qfloor u mod 65536)%Z = 256%Z /\
    nth 0 (nth 0 (nth 0 bIndex []) []) 0%Z = 0%Z /\
    nth 0 (nth 0 (nth 0 bIndex []) []) 0%Z
      <> ((Qfloor u mod 65536 + nth 0 (nth 0 (findCorners 1) []) 0) mod 7)%Z /\
    nth 0 (nth 0 (rev bCoords) []) 0 == u /\
    ~ nth 0 (nth 0 (rev bCoords) []) 0 == u - inject_Z (Qfloor u mod 65536).
Proof.
  cbv zeta. eexists. eexists. split; [vm_compute; reflexivity|].
  split; [unfold Qle; simpl; lia|].
  split; [reflexivity|].
  split; [reflexivity|].
  split; [vm_compute; discriminate|].
  split; [reflexivity|].
  intros E. vm_compute in E. discriminate E.
Qed.

(** ** The bounds resolver pairs the axes with the parameters in mirror order *)

(** C5 at frequency (2, 4), waveLength (8, 8), coordinates (1, 1): the
    spacings are (4, 2); the resolver returns the offsets 1/2 on axis 0 and
    1/4 on axis 1, where the own spacing of each axis gives 1/4 and 1/2.
    And at spacing 1 and coordinate 65536.5 the offset is 65536.5, outside
    [0, 1). *)
Theorem findBounds_mirrored_axes :
  let self := engine [2%Z; 4%Z] [8; 8] [Warp_improved] 0 1 in
  let fCoords := [[1]; [1]] in
  spacing self 2 = Ok [8 # 2; 8 # 4] /\
  (exists bIndex bCoords,
     findBounds self fCoords = Ok (bIndex, bCoords) /\
     Forall2 (Forall2 Qeq) bCoords [[1 # 2]; [1 # 4]] /\
     Forall2 (Forall2 Qeq) (spec_frac [8 # 2; 8 # 4] fCoords) [[1 # 4]; [1 # 2]] /\
     ~ Forall2 (Forall2 Qeq) bCoords (spec_frac [8 # 2; 8 # 4] fCoords)) /\
  (exists bIndex bCoords,
     findBounds (engine [8%Z] [8] [Warp_improved] 0 1) [[131073 # 2]] = Ok (bIndex, bCoords) /\
     bIndex = [[[0%Z]; [1%Z]]] /\
     Forall2 (Forall2 Qeq) bCoords [[131073 # 2]]).
Proof.
  cbv zeta. split; [reflexivity|]. split.
  - eexists _, _. split; [vm_compute; reflexivity|]. split; [|split].
    + repeat constructor.
    + vm_compute. repeat constructor.
    + intros H. vm_compute in H. inversion H as [|? ? ? ? H1 _]; subst.
      inversion H1 as [|? ? ? ? H2 _]; subst. vm_compute in H2. discriminate.
  - eexists _, _. split; [vm_compute; reflexivity|]. split; [reflexivity|].
    repeat constructor.
Qed.

(** ** The window requested from the provider *)

Lemma fold_min_spec t : forall x,
  In (fold_left Z.min t x) (x :: t) /\
  forall y, In y (x :: t) -> (fold_left Z.min t x <= y)%Z.
Proof.
  induction t as [|z t IH]; intros x; simpl.
  - split; [left; reflexivity|]. intros y [->|[]]. lia.
  - destruct (IH (Z.min x z)) as [Hin Hle]. split.
    + destruct Hin as [E|Hin]; [|right; right; exact Hin].
      rewrite <- E. destruct (Z.min_spec x z) as [[_ ->]|[_ ->]]; auto.
    + intros y Hy.
      assert (Hm : (fold_left Z.min t (Z.min x z) <= Z.min x z)%Z)
        by (apply Hle; left; reflexivity).
      destruct Hy as [<-|[<-|Hy]]; try lia.
      apply Hle. right. exact Hy.
Qed.

Lemma fold_max_spec t : forall x,
  In (fold_left Z.max t x) (x :: t) /\
  forall y, In y (x :: t) -> (y <= fold_left Z.max t x)%Z.
Proof.
  induction t as [|z t IH]; intros x; simpl.
  - split; [left; reflexivity|]. intros y [->|[]]. lia.
  - destruct (IH (Z.max x z)) as [Hin Hle]. split.
    + destruct Hin as [E|Hin]; [|right; right; exact Hin].
      rewrite <- E. destruct (Z.max_spec x z) as [[_ ->]|[_ ->]]; auto.
    + intros y Hy.
      assert (Hm : (Z.max x z <= fold_left Z.max t (Z.max x z))%Z)
        by (apply Hle; left; reflexivity).
      destruct Hy as [<-|[<-|Hy]]; try lia.
      apply Hle. right. exact Hy.
Qed.

Lemma flat_min_spec row :
  concat row <> [] ->
  row_min row = Ok (flat_min row) /\
  In (flat_min row) (concat row) /\
  forall y, In y (concat row) -> (flat_min row <= y)%Z.
Proof.
  intros H. unfold row_min, flat_min. destruct (concat row) as [|x t]; [congruence|].
  split; [reflexivity|]. apply fold_min_spec.
Qed.

Lemma flat_max_spec row :
  concat row <> [] ->
  row_max row = Ok (flat_max row) /\
  In (flat_max row) (concat row) /\
  forall y, In y (concat row) -> (y <= flat_max row)%Z.
Proof.
  intros H. unfold row_max, flat_max. destruct (concat row) as [|x t]; [congruence|].
  split; [reflexivity|]. apply fold_max_spec.
Qed.

Lemma findFab_explicit self bIndex :
  Forall (fun row => concat row <> []) bIndex ->
  findFab self bIndex
  = Ok (shaped (__prng self)
          (map (fun hl => (fst hl - snd hl + 1)%Z)
               (combine (map flat_max bIndex) (map flat_min bIndex)))
          (map flat_min bIndex)).
Proof.
  intros H. rewrite Forall_forall in H. unfold findFab.
  rewrite (mapM_ok row_min flat_min) by (intros row Hr; apply flat_min_spec, H, Hr).
  simpl bindR.
  rewrite (mapM_ok row_max flat_max) by (intros row Hr; apply flat_max_spec, H, Hr).
  reflexivity.
Qed.

(** The rows of the corner-index tensor. *)
Lemma bounds_index_row aD fD fCoords D N d :
  matrix D N fCoords -> length aD = D -> length fD = D -> (d < D)%nat ->
  exists rowDV : list (list Z),
    nth d (bounds_index aD fD fCoords) []
    = map (map (fun i => (i mod nth d fD 0)%Z)) rowDV /\
    length rowDV = (2 ^ D)%nat /\ Forall (fun r => length r = N) rowDV.
Proof.
  intros HM La Lf Hd.
  assert (LUU : length (unitize aD fCoords) = D).
  { unfold unitize. rewrite length_map, length_combine, length_rev. destruct HM. lia. }
  assert (LU : length (nth d (unitize aD fCoords) []) = N).
  { destruct HM as [HD HN]. unfold unitize.
    rewrite (nth_map_lt _ _ _ ([], 0)) by (rewrite length_combine, length_rev; lia).
    rewrite length_map, nth_combine_lt by (rewrite ?length_rev; lia). simpl fst.
    rewrite Forall_forall in HN. apply HN, in_rev, nth_In. rewrite length_rev. lia. }
  unfold bounds_index, add_corners. destruct HM as [HD HN]. rewrite HD.
  rewrite !length_map, LUU.
  rewrite (nth_map_lt _ _ _ ([], 0%Z))
    by (rewrite length_combine, length_map, length_combine, length_seq, length_map; lia).
  rewrite nth_combine_lt
    by (rewrite ?length_map, ?length_combine, ?length_seq, ?length_map; lia).
  simpl fst; simpl snd.
  eexists. split; [reflexivity|].
  rewrite (nth_map_lt _ _ _ (0%nat, []))
    by (rewrite length_combine, length_seq, length_map; lia).
  rewrite length_map, findCorners_length. split; [reflexivity|].
  rewrite Forall_map, Forall_forall. intros c _.
  rewrite length_map, nth_combine_lt by (rewrite ?length_seq, ?length_map; lia).
  simpl snd. rewrite (nth_map_lt _ _ _ []) by lia. rewrite length_map. exact LU.
Qed.

Lemma pow2_pos D : (1 <= 2 ^ D)%nat.
Proof. induction D; simpl; lia. Qed.

Lemma bounds_index_shape aD fD fCoords D N :
  matrix D N fCoords -> length aD = D -> length fD = D ->
  length (bounds_index aD fD fCoords) = D /\
  Forall (fun row => length row = (2 ^ D)%nat /\ Forall (fun r => length r = N) row)
         (bounds_index aD fD fCoords).
Proof.
  intros HM La Lf.
  assert (LB : length (bounds_index aD fD fCoords) = D).
  { unfold bounds_index, add_corners, unitize. destruct HM as [HD HN].
    rewrite !length_map, !length_combine, !length_map, !length_combine, length_seq,
      !length_map, !length_combine, length_rev. lia. }
  split; [exact LB|].
  rewrite Forall_forall. intros row Hin.
  destruct (In_nth _ _ [] Hin) as (d & Hd & <-). rewrite LB in Hd.
  destruct (bounds_index_row aD fD fCoords D N d HM La Lf Hd) as (rowDV & -> & L1 & L2).
  rewrite length_map. split; [exact L1|].
  rewrite Forall_map. eapply Forall_impl; [|exact L2]. intros r Hr. simpl.
  rewrite length_map. exact Hr.
Qed.

Lemma rows_not_empty (row : list (list Z)) V N :
  length row = V -> Forall (fun r => length r = N) row ->
  (1 <= V)%nat -> (1 <= N)%nat -> concat row <> [].
Proof.
  intros LV LN HV HN. destruct row as [|r row]; [simpl in LV; lia|].
  inversion LN as [|? ? Lr _]; subst. destruct r; [simpl in HN; lia|]. discriminate.
Qed.

(** C7.  For the corner-index tensor of any coordinate matrix, [findFab]
    asks the provider for the window whose offset on every axis is the
    least corner index of that axis over all vertices and samples and whose
    extent is the greatest less the least plus one; the indices having been
    wrapped modulo the effective frequency before, the extent is at most
    the effective frequency of the axis, whatever the coordinates. *)
Theorem findFab_window self fCoords D N d :
  valid self -> matrix D N fCoords -> (1 <= N)%nat -> (d < D)%nat ->
  exists fD bIndex bCoords fab lo hi,
    periods self D = Ok fD /\
    findBounds self fCoords = Ok (bIndex, bCoords) /\
    findFab self bIndex = Ok fab /\
    length (w_off fab) = D /\ length (w_shape fab) = D /\
    let row := concat (nth d bIndex []) in
    (In lo row /\ forall i, In i row -> (lo <= i)%Z) /\
    (In hi row /\ forall i, In i row -> (i <= hi)%Z) /\
    nth d (w_off fab) 0%Z = lo /\
    nth d (w_shape fab) 0%Z = (hi - lo + 1)%Z /\
    (1 <= nth d (w_shape fab) 0 <= nth d fD 0)%Z.
Proof.
  intros Hv HM HN Hd.
  destruct (valid_axes self D Hv) as (aD & fD & Ha & Hf & La & Lf & _ & Hpos).
  destruct (bounds_index_shape aD fD fCoords D N HM La Lf) as [LB Hshape].
  assert (Hne : Forall (fun row => concat row <> []) (bounds_index aD fD fCoords)).
  { eapply Forall_impl; [|exact Hshape]. intros row [L1 L2].
    eapply rows_not_empty; eauto. apply pow2_pos. }
  set (bIndex := bounds_index aD fD fCoords) in *.
  exists fD, bIndex, (bounds_frac aD fCoords).
  eexists. exists (flat_min (nth d bIndex [])), (flat_max (nth d bIndex [])).
  split; [exact Hf|]. split; [eapply findBounds_explicit; eauto|].
  split; [apply findFab_explicit, Hne|].
  simpl w_off; simpl w_shape.
  rewrite !length_map, length_combine, !length_map, LB, Nat.min_id.
  split; [reflexivity|]. split; [reflexivity|].
  assert (Hrow : concat (nth d bIndex []) <> []).
  { rewrite Forall_forall in Hne. apply Hne, nth_In. lia. }
  destruct (flat_min_spec _ Hrow) as (_ & Hmin1 & Hmin2).
  destruct (flat_max_spec _ Hrow) as (_ & Hmax1 & Hmax2).
  cbv zeta. split; [split; assumption|]. split; [split; assumption|].
  rewrite (nth_map_lt _ _ _ []) by lia. split; [reflexivity|].
  rewrite (nth_map_lt _ _ _ (0%Z, 0%Z)) by (rewrite length_combine, !length_map; lia).
  rewrite nth_combine_lt by (rewrite length_map; lia). simpl fst; simpl snd.
  rewrite !(nth_map_lt _ _ _ []) by lia. split; [reflexivity|].
  assert (Hbound : forall i, In i (concat (nth d bIndex [])) -> (0 <= i < nth d fD 0)%Z).
  { intros i Hi. subst bIndex.
    destruct (bounds_index_row aD fD fCoords D N d HM La Lf Hd) as (rowDV & E & _).
    rewrite E in Hi. apply in_concat in Hi. destruct Hi as (r & Hr & Hi).
    apply in_map_iff in Hr. destruct Hr as (r0 & <- & _).
    apply in_map_iff in Hi. destruct Hi as (i0 & <- & _).
    apply Z.mod_pos_bound. rewrite Forall_forall in Hpos. apply Hpos, nth_In. lia. }
  pose proof (Hbound _ Hmin1). pose proof (Hbound _ Hmax1).
  pose proof (Hmin2 _ Hmax1). lia.
Qed.

Lemma findFab_window_witness :
  exists fD bIndex bCoords fab lo hi,
    periods (engine [8%Z] [128] [Warp_improved] 0 1) 2 = Ok fD /\
    findBounds (engine [8%Z] [128] [Warp_improved] 0 1)
               [[3; 2000000; 40]; [5; 6; 1000]] = Ok (bIndex, bCoords) /\
    findFab (engine [8%Z] [128] [Warp_improved] 0 1) bIndex = Ok fab /\
    length (w_off fab) = 2%nat /\ length (w_shape fab) = 2%nat /\
    let row := concat (nth 1 bIndex []) in
    (In lo row /\ forall i, In i row -> (lo <= i)%Z) /\
    (In hi row /\ forall i, In i row -> (i <= hi)%Z) /\
    nth 1 (w_off fab) 0%Z = lo /\
    nth 1 (w_shape fab) 0%Z = (hi - lo + 1)%Z /\
    (1 <= nth 1 (w_shape fab) 0 <= nth 1 fD 0)%Z.
Proof.
  apply (findFab_window (engine [8%Z] [128] [Warp_improved] 0 1)
           [[3; 2000000; 40]; [5; 6; 1000]] 2 3 1).
  - unfold valid; simpl. repeat split; try lia; try discriminate; repeat constructor.
  - split; [reflexivity|repeat constructor].
  - lia.
  - lia.
Defined.

(** ** Reading the window and transposing *)

Lemma nth_map_seq {A} (g : nat -> A) (N n : nat) (d : A) :
  (n < N)%nat -> nth n (map g (seq 0 N)) d = g n.
Proof.
  intros H. rewrite (nth_map_lt _ _ _ 0%nat) by (rewrite length_seq; exact H).
  rewrite seq_nth by exact H. reflexivity.
Qed.

Lemma map_nth_seq {A B} (g : A -> B) (l : list A) (d : A) :
  map (fun v => g (nth v l d)) (seq 0 (length l)) = map g l.
Proof.
  apply (nth_ext _ _ (g d) (g d)).
  - rewrite !length_map, length_seq. reflexivity.
  - intros n Hn. rewrite length_map, length_seq in Hn.
    rewrite nth_map_seq by exact Hn. rewrite map_nth. reflexivity.
Qed.

Lemma combine_map_l {A B C} (f : A -> C) (l : list A) (l' : list B) :
  combine (map f l) l' = map (fun p => (f (fst p), snd p)) (combine l l').
Proof.
  revert l'. induction l as [|x l IH]; intros [|y l']; simpl; auto.
  f_equal. apply IH.
Qed.

Lemma combine_map_same {A B C} (f : A -> B) (g : A -> C) (l : list A) :
  combine (map f l) (map g l) = map (fun x => (f x, g x)) l.
Proof. induction l as [|x l IH]; simpl; auto. f_equal. exact IH. Qed.

Lemma in_window_rows (pick : list (list Z) -> Z) (rows : list (list (list Z))) :
  (forall row, In row rows -> concat row <> [] /\ In (pick row) (concat row)) ->
  in_window (map pick rows) (map flat_min rows)
            (map (fun hl => (fst hl - snd hl + 1)%Z)
                 (combine (map flat_max rows) (map flat_min rows))) = true.
Proof.
  induction rows as [|row rows IH]; intros H; simpl; auto.
  destruct (H row (or_introl eq_refl)) as [Hne Hin].
  destruct (flat_min_spec _ Hne) as (_ & _ & Hmin).
  destruct (flat_max_spec _ Hne) as (_ & _ & Hmax).
  specialize (Hmin _ Hin). specialize (Hmax _ Hin).
  rewrite IH by (intros; apply H; right; assumption).
  rewrite andb_true_r. apply andb_true_iff. split.
  - apply Z.leb_le. exact Hmin.
  - apply Z.ltb_lt. lia.
Qed.

Lemma fancy_index_explicit self (bIndex : list (list (list Z))) D V N :
  length bIndex = D -> (1 <= D)%nat -> (1 <= V)%nat -> (1 <= N)%nat ->
  Forall (fun row => length row = V /\ Forall (fun r => length r = N) row) bIndex ->
  fancy_index
    (shaped (__prng self)
       (map (fun hl => (fst hl - snd hl + 1)%Z)
            (combine (map flat_max bIndex) (map flat_min bIndex)))
       (map flat_min bIndex)) bIndex
  = Ok (map (fun v =>
          map (fun n => prng_value (__prng self) (seed self)
                          (map (fun row => nth n (nth v row []) 0%Z) bIndex))
              (seq 0 N))
          (seq 0 V)).
Proof.
  intros LD HD HV HN Hshape. unfold fancy_index.
  assert (EV : length (hd [] bIndex) = V /\ length (hd [] (hd [] bIndex)) = N).
  { destruct bIndex as [|row rest]; [simpl in LD; lia|]. simpl hd.
    inversion Hshape as [|? ? [L1 L2] _]; subst. split; [reflexivity|].
    destruct row as [|r row']; [simpl in HV; lia|]. inversion L2; assumption. }
  destruct EV as [-> ->].
  apply mapM_ok. intros v Hv. apply in_seq in Hv.
  apply mapM_ok. intros n Hn. apply in_seq in Hn.
  unfold window_get. simpl w_off; simpl w_shape; simpl w_value.
  rewrite (in_window_rows (fun row => nth n (nth v row []) 0%Z)); [reflexivity|].
  intros row Hrow. rewrite Forall_forall in Hshape. destruct (Hshape row Hrow) as [L1 L2].
  assert (Hr : In (nth v row []) row) by (apply nth_In; lia).
  assert (Hl : length (nth v row []) = N) by (rewrite Forall_forall in L2; apply L2, Hr).
  assert (Hi : In (nth n (nth v row []) 0%Z) (concat row)).
  { apply in_concat. exists (nth v row []). split; [exact Hr|]. apply nth_In. lia. }
  split; [|exact Hi]. intros E. rewrite E in Hi. exact Hi.
Qed.

Lemma transpose_grid {A} (d : A) (g : nat -> nat -> A) (V N : nat) :
  (1 <= V)%nat ->
  transpose d (map (fun v => map (g v) (seq 0 N)) (seq 0 V))
  = map (fun n => map (fun v => g v n) (seq 0 V)) (seq 0 N).
Proof.
  intros HV. unfold transpose.
  assert (E : length (hd [] (map (fun v => map (g v) (seq 0 N)) (seq 0 V))) = N).
  { destruct V; [lia|]. simpl. rewrite length_map, length_seq. reflexivity. }
  rewrite E. apply map_ext_in. intros n Hn. apply in_seq in Hn.
  rewrite map_map. apply map_ext. intros v. apply nth_map_seq. lia.
Qed.

Lemma transpose_matrix {A} (d : A) (m : list (list A)) D N :
  matrix D N m -> (1 <= D)%nat ->
  transpose d m = map (fun n => map (fun row => nth n row d) m) (seq 0 N).
Proof.
  intros [HD HN] H1. unfold transpose.
  destruct m as [|row rest]; [simpl in HD; lia|].
  inversion HN; subst. reflexivity.
Qed.

(** ** The unitized coordinates of one sample *)

Lemma unitize_column aD X D N n :
  matrix D N X -> (n < N)%nat ->
  map (fun row => nth n row 0) (unitize aD (map (map Qabs) X))
  = sample_unit aD (column X n).
Proof.
  intros [HD HN] Hn. unfold unitize, sample_unit, column.
  rewrite map_map. rewrite <- !map_rev. rewrite !combine_map_l, !map_map.
  apply map_ext_in. intros [row a] Hin. simpl fst; simpl snd.
  assert (Hrow : length row = N).
  { apply in_combine_l in Hin. apply in_rev in Hin.
    rewrite Forall_forall in HN. apply HN, Hin. }
  rewrite (nth_map_lt _ _ _ 0) by (rewrite length_map; lia).
  rewrite (nth_map_lt _ _ _ 0) by lia. reflexivity.
Qed.

Lemma unitize_matrix aD fCoords D N :
  matrix D N fCoords -> length aD = D -> matrix D N (unitize aD fCoords).
Proof.
  intros [HD HN] La. unfold unitize. split.
  - rewrite length_map, length_combine, length_rev. lia.
  - rewrite Forall_map, Forall_forall. intros [row a] Hin. simpl. rewrite length_map.
    apply in_combine_l in Hin. apply in_rev in Hin.
    rewrite Forall_forall in HN. apply HN, Hin.
Qed.

Lemma abs_matrix X D N : matrix D N X -> matrix D N (map (map Qabs) X).
Proof.
  intros [HD HN]. split; [rewrite length_map; exact HD|].
  rewrite Forall_map. eapply Forall_impl; [|exact HN]. intros r Hr. simpl.
  rewrite length_map. exact Hr.
Qed.

Lemma bounds_frac_column aD X D N n :
  matrix D N X -> length aD = D -> (n < N)%nat ->
  map (fun row => nth n row 0) (bounds_frac aD (map (map Qabs) X))
  = sample_frac (sample_unit aD (column X n)).
Proof.
  intros HM La Hn. unfold bounds_frac, sample_frac.
  rewrite <- (unitize_column aD X D N n HM Hn).
  rewrite map_rev. f_equal. rewrite !map_map.
  apply map_ext_in. intros urow Hin.
  destruct (unitize_matrix aD _ D N (abs_matrix X D N HM) La) as [_ HU].
  rewrite Forall_forall in HU.
  rewrite (nth_map_lt _ _ _ 0) by (rewrite (HU urow Hin); exact Hn). reflexivity.
Qed.

Lemma bounds_index_column aD fD X D N v n :
  matrix D N X -> length aD = D -> length fD = D ->
  (v < 2 ^ D)%nat -> (n < N)%nat ->
  map (fun row => nth n (nth v row []) 0%Z) (bounds_index aD fD (map (map Qabs) X))
  = sample_corner fD (sample_lower (sample_unit aD (column X n)))
                  (nth v (findCorners D) []).
Proof.
  intros HM La Lf Hv Hn.
  pose proof (abs_matrix X D N HM) as HMa.
  destruct (bounds_index_shape aD fD _ D N HMa La Lf) as [LB _].
  assert (LS : length (sample_unit aD (column X n)) = D).
  { unfold sample_unit, column. destruct HM as [HD _].
    rewrite length_map, length_combine, length_rev, length_map. lia. }
  apply (nth_ext _ _ 0%Z 0%Z).
  - unfold sample_corner, sample_lower.
    rewrite !length_map, !length_combine, length_seq, !length_map. lia.
  - intros d Hd. rewrite length_map, LB in Hd.
    rewrite (nth_map_lt _ _ _ []) by lia.
    rewrite (bounds_index_nth aD fD _ D N d v n HMa La Lf Hd Hv Hn).
    unfold sample_corner, sample_lower.
    rewrite (nth_map_lt _ _ _ (0%nat, (0%Z, 0%Z)))
      by (rewrite !length_combine, length_seq, !length_map; lia).
    rewrite !nth_combine_lt
      by (rewrite ?length_combine, ?length_seq, ?length_map; lia).
    simpl fst; simpl snd. rewrite seq_nth by (rewrite length_map; lia). simpl Nat.add.
    rewrite (nth_map_lt _ _ _ 0) by lia.
    rewrite <- (unitize_column aD X D N n HM Hn).
    destruct (unitize_matrix aD _ D N HMa La) as [LU _].
    rewrite (nth_map_lt _ _ _ []) by lia. reflexivity.
Qed.

(** ** What a call returns, sample by sample *)

Lemma maxLen_matrix coords D N :
  matrix D N (map ravel coords) -> (1 <= D)%nat ->
  maxLen (map (fun coo => Seq (ravel coo)) coords) = N.
Proof.
  intros [HD HN] H1. rewrite length_map in HD. rewrite Forall_map in HN.
  destruct coords as [|c coords]; [simpl in HD; lia|].
  clear HD H1. revert c HN. induction coords as [|c' coords IH]; intros c HN.
  - inversion HN; subst. simpl. unfold ravel. lia.
  - inversion HN as [|? ? Hc HN']; subst. specialize (IH c' HN').
    change (maxLen (map (fun coo => Seq (ravel coo)) (c :: c' :: coords)))
      with (Nat.max (length (ravel c)) (maxLen (map (fun coo => Seq (ravel coo)) (c' :: coords)))).
    rewrite IH. lia.
Qed.

Lemma formatCoords_matrix coords D N :
  matrix D N (map ravel coords) -> (1 <= D)%nat -> (1 <= N)%nat ->
  formatCoords (map (fun coo => Seq (ravel coo)) coords)
  = Ok (map (map Qabs) (map ravel coords)).
Proof.
  intros HM HD HN. unfold formatCoords.
  rewrite (maxLen_matrix coords D N HM HD).
  rewrite (mapM_ok (formatRow N) as_seq).
  - simpl bindR. rewrite !map_map. reflexivity.
  - intros c Hc. apply in_map_iff in Hc. destruct Hc as (coo & <- & Hcoo).
    destruct HM as [_ HNrows]. rewrite Forall_map, Forall_forall in HNrows.
    specialize (HNrows coo Hcoo). simpl in HNrows.
    rewrite formatRow_fill.
    + simpl as_seq. rewrite HNrows, Nat.ltb_irrefl. reflexivity.
    + simpl as_seq. intros E. rewrite E in HNrows. simpl in HNrows. lia.
    + simpl as_seq. lia.
Qed.

Lemma call_samples self coords D N aD fD :
  valid self -> matrix D N (map ravel coords) -> (1 <= D)%nat -> (1 <= N)%nat ->
  spacing self D = Ok aD -> periods self D = Ok fD ->
  __call__ coords self
  = (Ok (map (fun n => sample self aD fD (column (map ravel coords) n)) (seq 0 N)), self).
Proof.
  intros Hv HM HD HN Ha Hf.
  assert (La : length aD = D).
  { unfold spacing in Ha. destruct (amp self); simpl in Ha; [|discriminate].
    eapply slice_length; eauto. }
  assert (Lf : length fD = D) by (eapply slice_length; eauto).
  set (X := map ravel coords) in *.
  pose proof (abs_matrix X D N HM) as HMa.
  destruct (bounds_index_shape aD fD _ D N HMa La Lf) as [LB Hshape].
  assert (Hne : Forall (fun row => concat row <> []) (bounds_index aD fD (map (map Qabs) X))).
  { eapply Forall_impl; [|exact Hshape]. intros row [L1 L2].
    eapply rows_not_empty; eauto. apply pow2_pos. }
  unfold __call__.
  assert (Ec : match coords with [] => [Scalar 0] | _ :: _ => coords end = coords).
  { destruct coords; [|reflexivity]. destruct HM as [HD0 _]. simpl in HD0. lia. }
  rewrite Ec. unfold bindM, reads.
  rewrite (formatCoords_matrix coords D N HM HD HN). fold X.
  rewrite (findBounds_explicit self _ aD fD D N HMa Ha Hf). simpl fst; simpl snd.
  rewrite (findFab_explicit self _ Hne).
  rewrite (fancy_index_explicit self _ D (2 ^ D) N LB HD (pow2_pos D) HN Hshape).
  rewrite transpose_grid by apply pow2_pos.
  assert (HMf : matrix D N (bounds_frac aD (map (map Qabs) X))).
  { destruct (unitize_matrix aD _ D N HMa La) as [LU HU]. unfold bounds_frac. split.
    - rewrite length_rev, length_map. exact LU.
    - rewrite Forall_forall. intros r Hr. apply in_rev in Hr.
      apply in_map_iff in Hr. destruct Hr as (u & <- & Hu).
      rewrite length_map. rewrite Forall_forall in HU. apply HU, Hu. }
  rewrite (transpose_matrix 0 _ D N HMf HD).
  destruct Hv as (_ & _ & _ & _ & _ & Hw).
  rewrite (bNoise_rows self _ D Hw).
  - unfold applyRange. rewrite combine_map_same, !map_map. do 2 f_equal.
    apply map_ext_in. intros n Hn. apply in_seq in Hn. simpl fst; simpl snd.
    unfold sample. f_equal. f_equal.
    + f_equal.
      * assert (LC : length (column X n) = D)
          by (unfold column; rewrite length_map; apply HM).
        rewrite LC, <- (map_nth_seq _ (findCorners D) []), findCorners_length.
        apply map_ext_in. intros v Hvv. apply in_seq in Hvv. f_equal.
        apply (bounds_index_column aD fD X D N v n); try assumption; lia.
      * apply (bounds_frac_column aD X D N n HM La). lia.
  - exact HD.
  - intros E. apply (f_equal (@length _)) in E. rewrite length_map, length_seq in E.
    simpl in E. lia.
  - rewrite !length_map. reflexivity.
  - rewrite Forall_map, Forall_forall. intros n _. rewrite length_map, length_seq. reflexivity.
  - rewrite Forall_map, Forall_forall. intros n _. rewrite length_map.
    destruct HMf as [E _]. exact E.
Qed.

(** ** Facts about one sample *)

Lemma Qfloor_unique (x : Q) (n : Z) :
  inject_Z n <= x -> x < inject_Z (n + 1) -> Qfloor x = n.
Proof.
  intros H1 H2.
  pose proof (Qfloor_le x) as F1. pose proof (Qlt_floor x) as F2.
  assert (A : inject_Z n < inject_Z (Qfloor x + 1)) by (eapply Qle_lt_trans; eauto).
  assert (B : inject_Z (Qfloor x) < inject_Z (n + 1)) by (eapply Qle_lt_trans; eauto).
  rewrite <- Zlt_Qlt in A, B. lia.
Qed.

Lemma Qfloor_plus_Z (x : Q) (z : Z) : Qfloor (x + inject_Z z) = (Qfloor x + z)%Z.
Proof.
  apply Qfloor_unique.
  - rewrite inject_Z_plus. pose proof (Qfloor_le x). lra.
  - replace (Qfloor x + z + 1)%Z with ((Qfloor x + 1) + z)%Z by lia.
    rewrite inject_Z_plus. pose proof (Qlt_floor x). lra.
Qed.

Lemma Forall2_of_nth {A B} (R : A -> B -> Prop) (d : A) (d' : B) l l' :
  length l = length l' ->
  (forall i, (i < length l)%nat -> R (nth i l d) (nth i l' d')) ->
  Forall2 R l l'.
Proof.
  revert l'. induction l as [|x l IH]; intros [|y l'] HL H; simpl in HL; try discriminate.
  - constructor.
  - constructor.
    + apply (H 0%nat). simpl. lia.
    + apply IH; [lia|]. intros i Hi. apply (H (S i)). simpl. lia.
Qed.

Lemma Forall2_nth_rel {A B} (R : A -> B -> Prop) (d : A) (d' : B) l l' i :
  Forall2 R l l' -> R d d' -> R (nth i l d) (nth i l' d').
Proof.
  intros H Hd. revert i. induction H as [|x y l l' Hxy _ IH]; intros [|i]; simpl; auto.
Qed.

Lemma sample_unit_nth aD x D j :
  length x = D -> length aD = D -> (j < D)%nat ->
  nth j (sample_unit aD x) 0 = Qabs (nth (D - 1 - j) x 0) / nth j aD 0.
Proof.
  intros Lx La Hj. unfold sample_unit.
  rewrite (nth_map_lt _ _ _ (0, 0)) by (rewrite length_combine, length_rev; lia).
  rewrite nth_combine_lt by (rewrite ?length_rev; lia). simpl fst; simpl snd.
  rewrite rev_nth by lia. rewrite Lx. do 3 f_equal. lia.
Qed.

Lemma sample_unit_length aD x D :
  length x = D -> length aD = D -> length (sample_unit aD x) = D.
Proof.
  intros Lx La. unfold sample_unit. rewrite length_map, length_combine, length_rev. lia.
Qed.

Lemma sample_corner_nth fD lis c D j :
  length lis = D -> length fD = D -> (j < D)%nat ->
  nth j (sample_corner fD lis c) 0%Z = ((nth j lis 0 + nth j c 0) mod nth j fD 0)%Z.
Proof.
  intros Ll Lf Hj. unfold sample_corner.
  rewrite (nth_map_lt _ _ _ (0%nat, (0%Z, 0%Z)))
    by (rewrite !length_combine, length_seq; lia).
  rewrite !nth_combine_lt by (rewrite ?length_combine, ?length_seq; lia).
  simpl fst; simpl snd. rewrite seq_nth by lia. reflexivity.
Qed.

Lemma sample_corner_length fD lis c D :
  length lis = D -> length fD = D -> length (sample_corner fD lis c) = D.
Proof.
  intros Ll Lf. unfold sample_corner. rewrite length_map, !length_combine, length_seq. lia.
Qed.

Lemma symmetric_nth {A} (l : list A) (d : A) D j :
  rev l = l -> length l = D -> (j < D)%nat -> nth (D - 1 - j) l d = nth j l d.
Proof.
  intros Hs HL Hj. rewrite <- Hs at 2. rewrite rev_nth by lia. rewrite HL.
  f_equal. lia.
Qed.

Lemma warp_at_in self d (P : Warp -> Prop) :
  Forall P (__warp self) -> P (fun t => t) -> P (warp_at self d).
Proof.
  intros HP Hid. unfold warp_at, NTuple.getitem.
  destruct (_ <? 0)%Z; [exact Hid|].
  destruct (nth_error _ _) as [w|] eqn:E; [|exact Hid].
  rewrite Forall_forall in HP. apply HP. eapply nth_error_In; eauto.
Qed.

Lemma pairs_of_Forall2 vs vs' :
  Forall2 Qeq vs vs' ->
  Forall2 (fun p p' => fst p == fst p' /\ snd p == snd p') (pairs_of vs) (pairs_of vs').
Proof.
  intros H. assert (G : forall n vs vs', (length vs <= n)%nat -> Forall2 Qeq vs vs' ->
    Forall2 (fun p p' => fst p == fst p' /\ snd p == snd p') (pairs_of vs) (pairs_of vs')).
  { clear. induction n as [|n IH]; intros vs vs' Hn H.
    - destruct H; simpl in *; [constructor|lia].
    - destruct H as [|a a' l l' Ha H]; [constructor|].
      destruct H as [|b b' l l' Hb H]; [constructor|].
      simpl. constructor; [split; assumption|]. apply IH; [simpl in Hn; lia|exact H]. }
  apply (G (length vs)); [lia|exact H].
Qed.

Lemma collapse_step_Forall2 wt wt' vs vs' :
  wt == wt' -> Forall2 Qeq vs vs' ->
  Forall2 Qeq (collapse_step wt vs) (collapse_step wt' vs').
Proof.
  intros Hw H. unfold collapse_step.
  induction (pairs_of_Forall2 vs vs' H) as [|p p' l l' [H1 H2] _ IH]; simpl; constructor; auto.
  unfold blend. rewrite Hw, H1, H2. reflexivity.
Qed.

Lemma collapse_respects self vals vals' fr fr' :
  Forall respectful (__warp self) ->
  Forall2 Qeq vals vals' -> Forall2 Qeq fr fr' ->
  collapse self vals fr == collapse self vals' fr'.
Proof.
  intros Hw Hv Hf. unfold collapse.
  assert (Hwa : forall d, respectful (warp_at self d)).
  { intros d. apply warp_at_in; [exact Hw|]. intros p q E. exact E. }
  assert (Hn : forall d, nth d fr 0 == nth d fr' 0).
  { intros d. apply Forall2_nth_rel; [exact Hf|reflexivity]. }
  rewrite <- (Forall2_length Hf).
  assert (G : forall ds vs vs', Forall2 Qeq vs vs' ->
            Forall2 Qeq (fold_left (collapse_turn self fr) ds vs)
                        (fold_left (collapse_turn self fr') ds vs')).
  { induction ds as [|d ds IH]; intros vs vs' H; simpl; [exact H|].
    apply IH. unfold collapse_turn. apply collapse_step_Forall2; [|exact H].
    apply Hwa, Hn. }
  pose proof (collapse_step_Forall2 _ _ _ _
                (Hwa (-1)%Z _ _ (Hn (length fr - 1)%nat))
                (G (seq 0 (length fr - 1)) vals vals' Hv)) as H.
  destruct H; simpl; [reflexivity|assumption].
Qed.

Lemma collapse_step_head wt vs m h :
  wt == 0 -> length vs = (2 * m)%nat -> (1 <= m)%nat -> hd 0 vs == h ->
  hd 0 (collapse_step wt vs) == h.
Proof.
  intros Hw HL Hm Hh. destruct vs as [|a [|b t]]; simpl in HL; try lia.
  simpl in *. unfold blend. simpl. rewrite Hw, <- Hh. ring.
Qed.

Lemma collapse_zero self vals fr D :
  Forall zero_at_zero (__warp self) ->
  length fr = D -> (1 <= D)%nat -> length vals = (2 ^ D)%nat ->
  Forall (fun q => q == 0) fr ->
  collapse self vals fr == hd 0 vals.
Proof.
  intros Hw Lf HD Lv Hz. unfold collapse. rewrite Lf.
  assert (Hwa : forall d, zero_at_zero (warp_at self d)).
  { intros d. apply warp_at_in; [exact Hw|]. intros q E. exact E. }
  assert (Hn : forall d, nth d fr 0 == 0).
  { intros d. destruct (Nat.lt_ge_cases d (length fr)) as [H|H].
    - rewrite Forall_forall in Hz. apply Hz, nth_In, H.
    - rewrite nth_overflow by exact H. reflexivity. }
  assert (G : forall k d vs, length vs = (2 ^ (k + 1))%nat -> hd 0 vs == hd 0 vals ->
            length (fold_left (collapse_turn self fr) (seq d k) vs) = 2%nat /\
            hd 0 (fold_left (collapse_turn self fr) (seq d k) vs) == hd 0 vals).
  { induction k as [|k IH]; intros d vs HL Hh; simpl; [split; assumption|].
    rewrite pow2_succ in HL. apply IH.
    - unfold collapse_turn. rewrite (collapse_step_length _ _ _ HL).
      f_equal. lia.
    - unfold collapse_turn. apply (collapse_step_head _ _ (2 ^ (k + 1))); auto.
      + apply Hwa, Hn.
      + rewrite HL. f_equal. f_equal. lia.
      + apply (pow2_pos (k + 1)). }
  destruct (G (D - 1)%nat 0%nat vals) as [L2 H2].
  - rewrite Lv. f_equal. lia.
  - reflexivity.
  - apply (collapse_step_head _ _ 1); auto. apply Hwa, Hn.
Qed.

Lemma findCorners_head D : hd [] (findCorners D) = repeat 0%Z D.
Proof.
  induction D as [|D IH]; simpl; auto.
  pose proof (findCorners_length D) as L. pose proof (pow2_pos D) as P.
  destruct (findCorners D) as [|c cs]; simpl in *; [lia|]. now rewrite IH.
Qed.

Lemma hd_map {A B} (g : A -> B) (l : list A) (d : A) (d' : B) :
  l <> [] -> hd d' (map g l) = g (hd d l).
Proof. destruct l; [congruence|reflexivity]. Qed.

Lemma sample_at_node self aD fD x K D :
  (1 <= D)%nat -> length x = D -> length K = D -> length aD = D -> length fD = D ->
  Forall (fun a => 0 < a) aD -> rev aD = aD -> rev fD = fD ->
  Forall zero_at_zero (__warp self) ->
  (forall k, (k < D)%nat ->
     (0 <= nth k K 0 < 65536)%Z /\ nth k x 0 == inject_Z (nth k K 0%Z) * nth k aD 0) ->
  sample self aD fD x
  == prng_value (__prng self) (seed self) (node_index fD K) * __rangeMul self + fst (range self).
Proof.
  intros HD Lx LK La Lf Hpos Sa Sf Hw Hnode.
  assert (Lu : length (sample_unit aD x) = D) by (apply sample_unit_length; assumption).
  assert (Hu : forall j, (j < D)%nat ->
            nth j (sample_unit aD x) 0 == inject_Z (nth (D - 1 - j) K 0%Z)).
  { intros j Hj. rewrite (sample_unit_nth aD x D j Lx La Hj).
    destruct (Hnode (D - 1 - j)%nat ltac:(lia)) as [[K0 K1] Ex].
    assert (Ha : 0 < nth j aD 0) by (rewrite Forall_forall in Hpos; apply Hpos, nth_In; lia).
    rewrite (symmetric_nth aD 0 D j Sa La Hj) in Ex.
    assert (K0' : 0 <= inject_Z (nth (D - 1 - j) K 0%Z))
      by (change 0 with (inject_Z 0); rewrite <- Zle_Qle; exact K0).
    rewrite Ex, Qabs_pos by nra. field. lra. }
  assert (Hli : forall j, (j < D)%nat ->
            uint16 (Qfloor (nth j (sample_unit aD x) 0)) = nth (D - 1 - j) K 0%Z).
  { intros j Hj. rewrite (Hu j Hj), Qfloor_Z.
    apply uint16_small. apply (Hnode (D - 1 - j)%nat). lia. }
  unfold sample. rewrite Lx.
  rewrite (collapse_zero self _ _ D Hw).
  - rewrite (hd_map _ _ []) by (intros E; apply (f_equal (@length _)) in E;
                                rewrite findCorners_length in E; pose proof (pow2_pos D);
                                simpl in E; lia).
    rewrite findCorners_head.
    replace (sample_corner fD (sample_lower (sample_unit aD x)) (repeat 0%Z D))
      with (node_index fD K); [reflexivity|].
    apply (nth_ext _ _ 0%Z 0%Z).
    + unfold node_index. rewrite length_rev, length_map, length_combine.
      rewrite (sample_corner_length fD _ _ D); [lia| |exact Lf].
      unfold sample_lower. rewrite length_map. exact Lu.
    + intros j Hj. unfold node_index in Hj |- *.
      rewrite length_rev, length_map, length_combine in Hj.
      rewrite (sample_corner_nth fD _ _ D j); [| |exact Lf|lia].
      2:{ unfold sample_lower. rewrite length_map. exact Lu. }
      unfold sample_lower. rewrite (nth_map_lt _ _ _ 0) by lia.
      rewrite Hli by lia. rewrite nth_repeat, Z.add_0_r.
      rewrite rev_nth by (rewrite length_map, length_combine; lia).
      rewrite length_map, length_combine, LK, Lf, Nat.min_id.
      rewrite (nth_map_lt _ _ _ (0%Z, 0%Z)) by (rewrite length_combine; lia).
      rewrite nth_combine_lt by lia. simpl fst; simpl snd.
      replace (D - S j)%nat with (D - 1 - j)%nat by lia.
      rewrite (symmetric_nth fD 0%Z D j Sf Lf) by lia. reflexivity.
  - unfold sample_frac. rewrite length_rev, length_map. exact Lu.
  - exact HD.
  - rewrite length_map, findCorners_length. reflexivity.
  - unfold sample_frac. apply Forall_rev. rewrite Forall_map, Forall_forall.
    intros u Hin. destruct (In_nth _ _ 0 Hin) as (j & Hj & <-). rewrite Lu in Hj.
    rewrite (Hli j Hj), (Hu j Hj). ring.
Qed.

(** ** Corner exactness *)

(** C3, as stated, at the lattice node -1 of a lattice of period 8 and
    spacing 1, with the identity warp: the node's wrapped index is 7, the
    claim gives the value there, 1/7; the code mirrors the coordinate to
    node 1 and returns the value there, 2/7. *)
Lemma corner_exactness_negative_counterexample :
  let self := engine [8%Z] [8] [fun t => t] 0 1 in
  spacing self 1 = Ok [8 # 8] /\ -1 == inject_Z (-1) * (8 # 8) /\
  zero_at_zero (fun t => t) /\
  node_index [8%Z] [(-1)%Z] = [7%Z] /\
  exists out,
    fst (__call__ [Scalar (-1)] self) = Ok [out] /\
    out == 2 # 7 /\
    fst (range self)
      + prng_value (__prng self) (seed self) (node_index [8%Z] [(-1)%Z])
        * (snd (range self) - fst (range self)) == 1 # 7 /\
    ~ out == fst (range self)
             + prng_value (__prng self) (seed self) (node_index [8%Z] [(-1)%Z])
               * (snd (range self) - fst (range self)).
Proof.
  cbv zeta. split; [reflexivity|]. split; [reflexivity|].
  split; [intros q E; exact E|]. split; [reflexivity|].
  eexists. split; [vm_compute; reflexivity|].
  split; [reflexivity|]. split; [reflexivity|].
  intros E. vm_compute in E. discriminate.
Qed.

(** C3, amended.  For a valid configuration whose spacings and effective
    frequencies read the same on mirrored axes, and coordinates that are
    lattice nodes k * spacing[axis] with 0 <= k < 2^16 on every axis, if
    every warp f has f(0) = 0 then every sample equals
    lo + v * (hi - lo), v the provider value at the tuple of the wrapped
    node indices k mod effectiveFrequency[axis], axes in reverse order. *)
Theorem corner_exactness self coords (K : list (list Z)) D N aD fD :
  valid self -> range_invariant self ->
  matrix D N (map ravel coords) -> matrix D N K -> (1 <= D)%nat -> (1 <= N)%nat ->
  spacing self D = Ok aD -> periods self D = Ok fD ->
  rev aD = aD -> rev fD = fD ->
  Forall zero_at_zero (__warp self) ->
  (forall d n, (d < D)%nat -> (n < N)%nat ->
     (0 <= nth n (nth d K []) 0 < 65536)%Z /\
     nth n (nth d (map ravel coords) []) 0
       == inject_Z (nth n (nth d K []) 0%Z) * nth d aD 0) ->
  exists out,
    fst (__call__ coords self) = Ok out /\ length out = N /\
    forall n, (n < N)%nat ->
      nth n out 0
      == fst (range self)
         + prng_value (__prng self) (seed self) (node_index fD (columnZ K n))
           * (snd (range self) - fst (range self)).
Proof.
  intros Hv Hr HM HK HD HN Ha Hf Sa Sf Hw Hnode.
  destruct (valid_axes self D Hv) as (aD' & fD' & Ha' & Hf' & La & Lf & Hpos & _).
  rewrite Ha in Ha'. rewrite Hf in Hf'. inversion Ha'; inversion Hf'; subst aD' fD'.
  rewrite (call_samples self coords D N aD fD Hv HM HD HN Ha Hf). simpl fst.
  eexists. split; [reflexivity|]. split; [rewrite length_map, length_seq; reflexivity|].
  intros n Hn. rewrite nth_map_seq by exact Hn.
  rewrite (sample_at_node self aD fD _ (columnZ K n) D); try assumption.
  - rewrite Hr. ring.
  - unfold column. rewrite length_map. apply HM.
  - unfold columnZ. rewrite length_map. apply HK.
  - intros k Hk. unfold column, columnZ.
    rewrite !(nth_map_lt _ _ _ [])
      by (first [rewrite (proj1 HM) | rewrite (proj1 HK)]; exact Hk).
    apply Hnode; assumption.
Qed.

Lemma Warp_improved_zero : zero_at_zero Warp_improved.
Proof. intros q E. unfold Warp_improved. rewrite E. reflexivity. Qed.

Lemma corner_exactness_witness :
  let self := engine [8%Z] [128] [Warp_improved] (-1) 3 in
  exists out,
    fst (__call__ [Seq [16; 32]; Seq [0; 160]] self) = Ok out /\ length out = 2%nat /\
    forall n, (n < 2)%nat ->
      nth n out 0
      == fst (range self)
         + prng_value (__prng self) (seed self)
             (node_index [8%Z; 8%Z] (columnZ [[1%Z; 2%Z]; [0%Z; 10%Z]] n))
           * (snd (range self) - fst (range self)).
Proof.
  apply (corner_exactness (engine [8%Z] [128] [Warp_improved] (-1) 3)
           [Seq [16; 32]; Seq [0; 160]] [[1%Z; 2%Z]; [0%Z; 10%Z]] 2 2
           [128 # 8; 128 # 8] [8%Z; 8%Z]).
  - unfold valid; simpl. repeat split; try lia; try discriminate; repeat constructor.
  - reflexivity.
  - split; [reflexivity|repeat constructor].
  - split; [reflexivity|repeat constructor].
  - lia.
  - lia.
  - reflexivity.
  - reflexivity.
  - reflexivity.
  - reflexivity.
  - repeat constructor. apply Warp_improved_zero.
  - intros d n Hd Hn.
    destruct d as [|[|d]]; [| |lia]; (destruct n as [|[|n]]; [| |lia]);
      (split; [simpl; lia|reflexivity]).
Defined.

(** ** Periodicity *)

Lemma Forall2_Qeq_refl (l : list Q) : Forall2 Qeq l l.
Proof. induction l; constructor; [reflexivity|assumption]. Qed.

Lemma Qfloor_small (u : Q) : 0 <= u -> u < 65536 -> (0 <= Qfloor u < 65536)%Z.
Proof.
  intros H0 H1. split.
  - change 0%Z with (Qfloor (inject_Z 0)). apply Qfloor_resp_le. exact H0.
  - pose proof (Qfloor_le u) as F.
    assert (L : inject_Z (Qfloor u) < inject_Z 65536)
      by (eapply Qle_lt_trans; [exact F|exact H1]).
    rewrite <- Zlt_Qlt in L. exact L.
Qed.

Lemma sample_shift self aD fD wD x x' D :
  length x = D -> length x' = D -> length aD = D -> length fD = D ->
  Forall (fun a => 0 < a) aD -> Forall (fun f => (0 < f)%Z) fD ->
  rev aD = aD -> rev fD = fD ->
  (forall k, (k < D)%nat -> nth k aD 0 * inject_Z (nth k fD 0%Z) == nth k wD 0) ->
  Forall respectful (__warp self) ->
  (forall k, (k < D)%nat ->
     0 <= nth k x 0 /\
     exists m : Z, (0 <= m)%Z /\
       nth k x' 0 == nth k x 0 + inject_Z m * nth k wD 0 /\
       nth k x' 0 / nth k aD 0 < 65536) ->
  sample self aD fD x' == sample self aD fD x.
Proof.
  intros Lx Lx' La Lf Hpa Hpf Sa Sf Hw Hresp Hshift.
  assert (Lu : length (sample_unit aD x) = D) by (apply sample_unit_length; assumption).
  assert (Lu' : length (sample_unit aD x') = D) by (apply sample_unit_length; assumption).
  assert (Key : forall j, (j < D)%nat ->
            exists z : Z,
              nth j (sample_unit aD x') 0 == nth j (sample_unit aD x) 0 + inject_Z z /\
              (z mod nth j fD 0 = 0)%Z /\
              0 <= nth j (sample_unit aD x) 0 /\ 0 <= nth j (sample_unit aD x') 0 /\
              nth j (sample_unit aD x) 0 < 65536 /\ nth j (sample_unit aD x') 0 < 65536).
  { intros j Hj.
    rewrite (sample_unit_nth aD x D j Lx La Hj), (sample_unit_nth aD x' D j Lx' La Hj).
    assert (Hk : (D - 1 - j < D)%nat) by lia.
    destruct (Hshift _ Hk) as (X0 & m & M0 & Ex & Hb).
    specialize (Hw _ Hk).
    rewrite (symmetric_nth aD 0 D j Sa La Hj) in Hw, Hb.
    rewrite (symmetric_nth fD 0%Z D j Sf Lf Hj) in Hw.
    assert (Ha : 0 < nth j aD 0) by (rewrite Forall_forall in Hpa; apply Hpa, nth_In; lia).
    assert (Hf : (0 < nth j fD 0)%Z) by (rewrite Forall_forall in Hpf; apply Hpf, nth_In; lia).
    assert (Hf' : 0 < inject_Z (nth j fD 0%Z))
      by (change 0 with (inject_Z 0); rewrite <- Zlt_Qlt; exact Hf).
    assert (M0' : 0 <= inject_Z m)
      by (change 0 with (inject_Z 0); rewrite <- Zle_Qle; exact M0).
    set (xk := nth (D - 1 - j) x 0) in *. set (xk' := nth (D - 1 - j) x' 0) in *.
    set (a := nth j aD 0) in *. set (f := nth j fD 0%Z) in *.
    set (w := nth (D - 1 - j) wD 0) in *.
    assert (W0 : 0 <= inject_Z m * w).
    { rewrite <- Hw. apply Qmult_le_0_compat; [exact M0'|].
      apply Qmult_le_0_compat; lra. }
    assert (X0' : 0 <= xk') by (rewrite Ex; lra).
    assert (Ediv : xk' / a == xk / a + inject_Z (m * f)).
    { rewrite Ex, <- Hw, inject_Z_mult. field. lra. }
    assert (U0 : 0 <= xk / a) by (apply Qle_shift_div_l; [exact Ha|lra]).
    assert (Z0 : 0 <= inject_Z (m * f))
      by (change 0 with (inject_Z 0); rewrite <- Zle_Qle; nia).
    exists (m * f)%Z. rewrite !Qabs_pos by assumption.
    split; [exact Ediv|]. split; [apply Z_mod_mult|].
    split; [exact U0|]. split; [rewrite Ediv; lra|]. split; [|exact Hb].
    rewrite Ediv in Hb. lra. }
  assert (Hli : forall j, (j < D)%nat ->
            exists z : Z,
              (z mod nth j fD 0 = 0)%Z /\
              uint16 (Qfloor (nth j (sample_unit aD x') 0))
              = (uint16 (Qfloor (nth j (sample_unit aD x) 0%Q)) + z)%Z /\
              nth j (sample_unit aD x') 0 == nth j (sample_unit aD x) 0 + inject_Z z).
  { intros j Hj. destruct (Key j Hj) as (z & E & Hz & U0 & U0' & U1 & U1').
    exists z. split; [exact Hz|]. split; [|exact E].
    pose proof (Qfloor_small _ U0 U1) as B. pose proof (Qfloor_small _ U0' U1') as B'.
    assert (EF : Qfloor (nth j (sample_unit aD x') 0)
                 = (Qfloor (nth j (sample_unit aD x) 0%Q) + z)%Z)
      by (rewrite E; apply Qfloor_plus_Z).
    rewrite !uint16_small by lia. exact EF. }
  unfold sample. rewrite Lx, Lx'.
  apply Qplus_comp; [|reflexivity]. apply Qmult_comp; [|reflexivity].
  replace (map (fun c => prng_value (__prng self) (seed self)
                           (sample_corner fD (sample_lower (sample_unit aD x')) c))
               (findCorners D))
    with (map (fun c => prng_value (__prng self) (seed self)
                           (sample_corner fD (sample_lower (sample_unit aD x)) c))
              (findCorners D)).
  - apply collapse_respects; [exact Hresp|apply Forall2_Qeq_refl|].
    unfold sample_frac. apply (Forall2_of_nth _ 0 0).
    + rewrite !length_rev, !length_map. lia.
    + intros i Hi. rewrite length_rev, length_map, Lu' in Hi.
      rewrite !rev_nth by (rewrite length_map; lia).
      rewrite !length_map, Lu, Lu'.
      rewrite !(nth_map_lt _ _ _ 0) by lia.
      destruct (Hli (D - S i)%nat ltac:(lia)) as (z & _ & E1 & E2).
      rewrite E1, E2, inject_Z_plus. ring.
  - apply map_ext. intros c. f_equal.
    apply (nth_ext _ _ 0%Z 0%Z).
    + rewrite !(sample_corner_length fD _ _ D); unfold sample_lower;
        rewrite ?length_map; auto.
    + intros j Hj.
      rewrite (sample_corner_length fD _ _ D) in Hj
        by (unfold sample_lower; rewrite ?length_map; auto).
      rewrite !(sample_corner_nth fD _ _ D j)
        by (unfold sample_lower; rewrite ?length_map; auto).
      unfold sample_lower. rewrite !(nth_map_lt _ _ _ 0) by lia.
      destruct (Hli j Hj) as (z & Hz & E1 & _). rewrite E1.
      replace (uint16 (Qfloor (nth j (sample_unit aD x) 0%Q)) + z + nth j c 0)%Z
        with ((uint16 (Qfloor (nth j (sample_unit aD x) 0%Q)) + nth j c 0) + z)%Z by lia.
      assert (Hfj : (0 < nth j fD 0)%Z)
        by (rewrite Forall_forall in Hpf; apply Hpf, nth_In; lia).
      assert (Hmod : forall a, ((a + z) mod nth j fD 0 = a mod nth j fD 0)%Z).
      { intros a. rewrite Z.add_mod by lia.
        rewrite Hz, Z.add_0_r, Z.mod_mod by lia. reflexivity. }
      rewrite Hmod. reflexivity.
Qed.

Lemma spacing_period_wavelength self D aD fD wD :
  valid self -> length (__frequency self) = length (__waveLength self) ->
  spacing self D = Ok aD -> periods self D = Ok fD -> wavelengths self D = Ok wD ->
  forall k, (k < D)%nat -> nth k aD 0 * inject_Z (nth k fD 0%Z) == nth k wD 0.
Proof.
  intros Hv HL Ha Hf Hwl k Hk.
  destruct (valid_mFrequency self Hv) as [HFne HF].
  assert (HF0 : Forall (fun f => f <> 0%Z) (mFrequency self))
    by (eapply Forall_impl; [|exact HF]; simpl; intros; lia).
  assert (LF : length (mFrequency self) = length (__frequency self))
    by (unfold mFrequency, NTuple.scaleZ; apply length_map).
  assert (LW : length (mWaveLength self) = length (__frequency self))
    by (unfold mWaveLength, NTuple.scaleQ; rewrite length_map; symmetry; exact HL).
  assert (L1 : (1 <= length (__frequency self))%nat).
  { destruct Hv as (_ & Hne & _). destruct (__frequency self); [congruence|simpl; lia]. }
  assert (HWne : mWaveLength self <> []).
  { intros E. rewrite E in LW. simpl in LW. lia. }
  unfold spacing in Ha. rewrite (amp_ok self HF0) in Ha. simpl bindR in Ha.
  set (A := map (fun wf : Q * Z => fst wf / inject_Z (snd wf))
                (combine (mWaveLength self) (mFrequency self))) in *.
  assert (LA : length A = length (__frequency self)).
  { subst A. rewrite length_map, length_combine. lia. }
  assert (HAne : A <> []) by (intros E; rewrite E in LA; simpl in LA; lia).
  rewrite (slice_broadcast A 0 D HAne) in Ha.
  unfold periods in Hf. rewrite (slice_broadcast _ 0%Z D HFne) in Hf.
  unfold wavelengths in Hwl. rewrite (slice_broadcast _ 0 D HWne) in Hwl.
  injection Ha as <-. injection Hf as <-. injection Hwl as <-.
  rewrite !nth_map_seq by exact Hk. rewrite LA, LF, LW.
  set (j := Nat.min k (length (__frequency self) - 1)).
  assert (Hj : (j < length (__frequency self))%nat) by (subst j; lia).
  subst A. rewrite (nth_map_lt _ _ _ (0, 0%Z)) by (rewrite length_combine; lia).
  rewrite nth_combine_lt by lia. simpl fst; simpl snd.
  assert (Hfj : (0 < nth j (mFrequency self) 0)%Z)
    by (rewrite Forall_forall in HF; apply HF, nth_In; lia).
  field. intros E. change 0 with (inject_Z 0) in E.
  pose proof (proj1 (inject_Z_injective _ _) E) as E0. lia.
Qed.

(** C4, as stated, at coordinate -3 of a lattice of period 8 and spacing 1
    (effective wave length 8): the code mirrors -3 to node 3 and samples
    -3 + 8 at node 5, and the two values differ. *)
Lemma periodicity_negative_counterexample :
  let self := engine [8%Z] [8] [Warp_improved] 0 1 in
  wavelengths self 1 = Ok [8 * 1] /\
  exists out out',
    fst (__call__ [Scalar (-3)] self) = Ok [out] /\
    fst (__call__ [Scalar (-3 + 8 * 1)] self) = Ok [out'] /\
    out == 4 # 7 /\ out' == 6 # 7 /\ ~ out == out'.
Proof.
  cbv zeta. split; [reflexivity|].
  eexists _, _. split; [vm_compute; reflexivity|]. split; [vm_compute; reflexivity|].
  split; [reflexivity|]. split; [reflexivity|].
  intros E. vm_compute in E. discriminate.
Qed.

(** C4, amended.  For a valid configuration whose frequency and waveLength
    have the same number of entries and whose spacings and effective
    frequencies read the same on mirrored axes, respectful warps, and
    non-negative coordinates: adding to the coordinates of any axes
    non-negative whole multiples of the effective wave length of the axis,
    the unitized coordinates staying below 2^16, leaves every sample
    unchanged. *)
Theorem periodicity self coords coords' D N aD fD wD :
  valid self -> length (__frequency self) = length (__waveLength self) ->
  matrix D N (map ravel coords) -> matrix D N (map ravel coords') ->
  (1 <= D)%nat -> (1 <= N)%nat ->
  spacing self D = Ok aD -> periods self D = Ok fD -> wavelengths self D = Ok wD ->
  rev aD = aD -> rev fD = fD ->
  Forall respectful (__warp self) ->
  (forall d n, (d < D)%nat -> (n < N)%nat ->
     let x := nth n (nth d (map ravel coords) []) 0 in
     let x' := nth n (nth d (map ravel coords') []) 0 in
     0 <= x /\
     exists m : Z, (0 <= m)%Z /\
       x' == x + inject_Z m * nth d wD 0 /\
       x' / nth d aD 0 < 65536) ->
  exists out out',
    fst (__call__ coords self) = Ok out /\
    fst (__call__ coords' self) = Ok out' /\
    Forall2 Qeq out out'.
Proof.
  intros Hv HL HM HM' HD HN Ha Hf Hwl Sa Sf Hresp Hshift.
  destruct (valid_axes self D Hv) as (aD' & fD' & Ha' & Hf' & La & Lf & Hpa & Hpf).
  rewrite Ha in Ha'. rewrite Hf in Hf'. inversion Ha'; inversion Hf'; subst aD' fD'.
  rewrite (call_samples self coords D N aD fD Hv HM HD HN Ha Hf).
  rewrite (call_samples self coords' D N aD fD Hv HM' HD HN Ha Hf).
  simpl fst. eexists _, _. split; [reflexivity|]. split; [reflexivity|].
  apply (Forall2_of_nth _ 0 0); [rewrite !length_map; reflexivity|].
  intros n Hn. rewrite length_map, length_seq in Hn.
  rewrite !nth_map_seq by exact Hn. symmetry.
  apply (sample_shift self aD fD wD _ _ D); try assumption.
  - unfold column. rewrite length_map. apply HM.
  - unfold column. rewrite length_map. apply HM'.
  - apply (spacing_period_wavelength self D aD fD wD); assumption.
  - intros k Hk. unfold column.
    rewrite !(nth_map_lt _ _ _ [])
      by (first [rewrite (proj1 HM) | rewrite (proj1 HM')]; exact Hk).
    apply (Hshift k n Hk Hn).
Qed.

Lemma Warp_improved_respectful : respectful Warp_improved.
Proof. intros p q E. unfold Warp_improved. rewrite E. reflexivity. Qed.

Lemma periodicity_witness :
  exists out out',
    fst (__call__ [Seq [3; 200]; Seq [1 # 2; 1 # 2]] (engine [8%Z] [128] [Warp_improved] 0 1))
      = Ok out /\
    fst (__call__ [Seq [131; 200]; Seq [1 # 2; 513 # 2]] (engine [8%Z] [128] [Warp_improved] 0 1))
      = Ok out' /\
    Forall2 Qeq out out'.
Proof.
  apply (periodicity (engine [8%Z] [128] [Warp_improved] 0 1)
           [Seq [3; 200]; Seq [1 # 2; 1 # 2]]
           [Seq [131; 200]; Seq [1 # 2; 513 # 2]] 2 2
           [128 # 8; 128 # 8] [8%Z; 8%Z] [128; 128]).
  - unfold valid; simpl. repeat split; try lia; try discriminate; repeat constructor.
  - reflexivity.
  - split; [reflexivity|repeat constructor].
  - split; [reflexivity|repeat constructor].
  - lia.
  - lia.
  - reflexivity.
  - reflexivity.
  - reflexivity.
  - reflexivity.
  - reflexivity.
  - repeat constructor. apply Warp_improved_respectful.
  - intros d n Hd Hn.
    destruct d as [|[|d]]; [| |lia]; (destruct n as [|[|n]]; [| |lia]); cbv zeta; simpl nth.
    + split; [lra|]. exists 1%Z. split; [lia|]. split; [reflexivity|]. reflexivity.
    + split; [lra|]. exists 0%Z. split; [lia|]. split; [reflexivity|]. reflexivity.
    + split; [lra|]. exists 0%Z. split; [lia|]. split; [reflexivity|]. reflexivity.
    + split; [lra|]. exists 2%Z. split; [lia|]. split; [reflexivity|]. reflexivity.
Defined.

(** ** The range bound *)

Lemma demo_value_unit sd idx : 0 <= demo_value sd idx /\ demo_value sd idx < 1.
Proof.
  unfold demo_value.
  pose proof (Z.mod_pos_bound (fold_left (fun h i => (h * 31 + i + 1)%Z) idx sd) 7 ltac:(lia)) as B.
  unfold Qle, Qlt. simpl. lia.
Qed.

Lemma Warp_improved_unit t : 0 <= t <= 1 -> 0 <= Warp_improved t <= 1.
Proof.
  intros [H0 H1]. unfold Warp_improved.
  assert (P : 0 <= t * (t * 6 - 15) + 10) by nra.
  assert (T3 : 0 <= t * t * t) by (repeat apply Qmult_le_0_compat; assumption).
  split; [apply Qmult_le_0_compat; assumption|].
  assert (E : 1 - t * t * t * (t * (t * 6 - 15) + 10)
              == (1 - t) * (1 - t) * (1 - t) * (6 * t * t + 3 * t + 1)) by ring.
  assert (Q3 : 0 <= (1 - t) * (1 - t) * (1 - t))
    by (repeat apply Qmult_le_0_compat; lra).
  assert (Q2 : 0 <= 6 * t * t + 3 * t + 1) by nra.
  pose proof (Qmult_le_0_compat _ _ Q3 Q2). lra.
Qed.

(** C2 at the default configuration (frequency 8, waveLength 128, the
    default warp, range (0, 1)) and coordinate 1048584 = 65536.5 * 16: the
    warp maps [0, 1] into [0, 1], the provider values lie in [0, 1), the
    16-bit lower index is 0, the offset handed to the warp is 65536.5, and
    the sample is far above the upper end of the range. *)
Theorem range_bound_beyond_uint16 :
  let self := engine [8%Z] [128] [Warp_improved] 0 1 in
  Forall unit_warp (__warp self) /\ unit_provider (__prng self) /\
  (exists bIndex, findBounds self [[1048584]] = Ok (bIndex, [[1048584 / (128 * 1 / 8) - 0]])) /\
  exists out,
    fst (__call__ [Scalar 1048584] self) = Ok [out] /\
    snd (range self) < out /\ 1000000 < out.
Proof.
  cbv zeta. split; [constructor; [exact Warp_improved_unit|constructor]|].
  split; [exact demo_value_unit|].
  split; [eexists; vm_compute; reflexivity|].
  eexists. split; [vm_compute; reflexivity|].
  split; reflexivity.
Qed.

(** Where no lower index exceeds 16 bits the range bound holds: the
    failure above is the truncation and nothing else. *)

Lemma collapse_step_unit wt vs :
  0 <= wt <= 1 -> Forall (fun v => 0 <= v <= 1) vs ->
  Forall (fun v => 0 <= v <= 1) (collapse_step wt vs).
Proof.
  intros Hw. unfold collapse_step.
  assert (G : forall n vs, (length vs <= n)%nat -> Forall (fun v => 0 <= v <= 1) vs ->
            Forall (fun v => 0 <= v <= 1) (map (blend wt) (pairs_of vs))).
  { induction n as [|n IH]; intros [|a [|b t]] Hn H; simpl in *; try constructor; try lia.
    - inversion H as [|? ? Ha H']; subst. inversion H' as [|? ? Hb _]; subst.
      unfold blend; simpl. nra.
    - apply IH; [lia|]. inversion H as [|? ? _ H']; subst. inversion H'; assumption. }
  apply (G (length vs)). lia.
Qed.

Lemma collapse_unit self vals fr :
  Forall unit_warp (__warp self) ->
  Forall (fun v => 0 <= v <= 1) vals -> Forall (fun q => 0 <= q <= 1) fr ->
  0 <= collapse self vals fr <= 1.
Proof.
  intros Hw Hv Hf. unfold collapse.
  assert (Hwa : forall d, unit_warp (warp_at self d)).
  { intros d. apply warp_at_in; [exact Hw|]. intros t Ht. exact Ht. }
  assert (Hn : forall d, 0 <= nth d fr 0 <= 1).
  { intros d. destruct (Nat.lt_ge_cases d (length fr)) as [H|H].
    - rewrite Forall_forall in Hf. apply Hf, nth_In, H.
    - rewrite nth_overflow by exact H. lra. }
  assert (G : forall ds vs, Forall (fun v => 0 <= v <= 1) vs ->
            Forall (fun v => 0 <= v <= 1) (fold_left (collapse_turn self fr) ds vs)).
  { induction ds as [|d ds IH]; intros vs H; simpl; [exact H|].
    apply IH. unfold collapse_turn. apply collapse_step_unit; [apply Hwa, Hn|exact H]. }
  pose proof (collapse_step_unit _ _ (Hwa (-1)%Z _ (Hn (length fr - 1)%nat))
                (G (seq 0 (length fr - 1)) vals Hv)) as H.
  destruct H; simpl; [lra|assumption].
Qed.

Lemma range_bound_below_uint16 self coords D N aD fD :
  valid self -> range_invariant self -> fst (range self) <= snd (range self) ->
  matrix D N (map ravel coords) -> (1 <= D)%nat -> (1 <= N)%nat ->
  spacing self D = Ok aD -> periods self D = Ok fD ->
  Forall unit_warp (__warp self) ->
  (forall idx, 0 <= prng_value (__prng self) (seed self) idx
               /\ prng_value (__prng self) (seed self) idx < 1) ->
  Forall (fun a => Forall (Forall (fun x => Qabs x / a < 65536)) (map ravel coords)) aD ->
  exists out,
    fst (__call__ coords self) = Ok out /\
    Forall (fun y => fst (range self) <= y <= snd (range self)) out.
Proof.
  intros Hv Hr Hlh HM HD HN Ha Hf Hw Hp Hsmall.
  destruct (valid_axes self D Hv) as (aD' & fD' & Ha' & Hf' & La & Lf & Hpa & Hpf).
  rewrite Ha in Ha'. rewrite Hf in Hf'. inversion Ha'; inversion Hf'; subst aD' fD'.
  rewrite (call_samples self coords D N aD fD Hv HM HD HN Ha Hf). simpl fst.
  eexists. split; [reflexivity|].
  rewrite Forall_map, Forall_forall. intros n Hn. apply in_seq in Hn.
  set (x := column (map ravel coords) n).
  assert (Lx : length x = D) by (subst x; unfold column; rewrite length_map; apply HM).
  assert (Lu : length (sample_unit aD x) = D) by (apply sample_unit_length; assumption).
  assert (C : 0 <= collapse self
                     (map (fun c => prng_value (__prng self) (seed self)
                                      (sample_corner fD (sample_lower (sample_unit aD x)) c))
                          (findCorners (length x)))
                     (sample_frac (sample_unit aD x)) <= 1).
  { apply collapse_unit; [exact Hw| |].
    - rewrite Forall_map, Forall_forall. intros c _. destruct (Hp (sample_corner fD
        (sample_lower (sample_unit aD x)) c)). lra.
    - unfold sample_frac. apply Forall_rev. rewrite Forall_map, Forall_forall.
      intros u Hin. destruct (In_nth _ _ 0 Hin) as (j & Hj & <-). rewrite Lu in Hj.
      rewrite (sample_unit_nth aD x D j Lx La Hj).
      assert (Hpos : 0 < nth j aD 0)
        by (rewrite Forall_forall in Hpa; apply Hpa, nth_In; lia).
      assert (U0 : 0 <= Qabs (nth (D - 1 - j) x 0) / nth j aD 0)
        by (apply Qle_shift_div_l; [exact Hpos|]; pose proof (Qabs_nonneg (nth (D - 1 - j) x 0)); lra).
      assert (U1 : Qabs (nth (D - 1 - j) x 0) / nth j aD 0 < 65536).
      { rewrite Forall_forall in Hsmall.
        assert (Hina : In (nth j aD 0) aD) by (apply nth_In; lia).
        pose proof (Hsmall _ Hina) as H1.
        rewrite Forall_forall in H1.
        subst x. unfold column.
        rewrite (nth_map_lt _ _ _ []) by (rewrite (proj1 HM); lia).
        assert (Hrow : In (nth (D - 1 - j) (map ravel coords) []) (map ravel coords))
          by (apply nth_In; rewrite (proj1 HM); lia).
        specialize (H1 _ Hrow). rewrite Forall_forall in H1. apply H1, nth_In.
        destruct HM as [_ HNr]. rewrite Forall_forall in HNr. rewrite (HNr _ Hrow). lia. }
      pose proof (Qfloor_small _ U0 U1) as B.
      rewrite uint16_small by lia.
      pose proof (Qfloor_le (Qabs (nth (D - 1 - j) x 0) / nth j aD 0)).
      pose proof (Qlt_floor (Qabs (nth (D - 1 - j) x 0) / nth j aD 0)) as F.
      rewrite inject_Z_plus in F. change (inject_Z 1) with 1 in F. lra. }
  unfold sample. fold x. rewrite Hr. nra.
Qed.

(** ** What the validators establish *)

Lemma py_all_true (check : pyval -> result bool) fs :
  py_all check fs = Ok true -> Forall (fun x => check x = Ok true) fs.
Proof.
  induction fs as [|x fs IH]; simpl; intros H; [constructor|].
  destruct (check x) as [[|]|] eqn:E; simpl in H; try discriminate.
  constructor; [exact E|apply IH, H].
Qed.

Lemma getFrequency_ok v f :
  __getFrequency v = Ok f -> Forall (fun x => (1 < x)%Z) f.
Proof.
  unfold __getFrequency. intros H.
  destruct (if isinstance_int v then PyTuple [v] else v) as [| | | |fs| |]; try discriminate.
  destruct (py_all _ fs) as [[|]|] eqn:E; simpl in H; try discriminate.
  injection H as <-. apply py_all_true in E. rewrite Forall_map.
  eapply Forall_impl; [|exact E]. intros x Hx. cbv beta in Hx.
  unfold py_and, py_gt in Hx.
  destruct x as [|[|]|z|q|l|l|w]; simpl in Hx; try discriminate;
    try match type of Hx with
        | context [Qlt_le_dec ?a ?b] =>
            destruct (Qlt_le_dec a b) as [L|L]; simpl in Hx; try discriminate
        end;
    simpl; unfold Qlt in L; simpl in L; lia.
Qed.

Lemma getWaveLength_ok v w :
  __getWaveLength v = Ok w -> Forall (fun x => 0 < x) w.
Proof.
  unfold __getWaveLength. intros H.
  destruct (if isinstance_real v then PyTuple [v] else v) as [| | | |ws| |]; try discriminate.
  destruct (py_all _ ws) as [[|]|] eqn:E; simpl in H; try discriminate.
  injection H as <-. apply py_all_true in E. rewrite Forall_map.
  eapply Forall_impl; [|exact E]. intros x Hx. cbv beta in Hx.
  unfold py_and, py_gt in Hx.
  destruct (isinstance_real x); simpl in Hx; [|discriminate].
  destruct (Qlt_le_dec (inject_Z 0) (num x)) as [L|L]; simpl in Hx; [|discriminate].
  exact L.
Qed.

Lemma getFrequency_length v f :
  __getFrequency v = Ok f -> v <> PyTuple [] -> f <> [].
Proof.
  unfold __getFrequency. intros H Hne.
  destruct (isinstance_int v) eqn:I.
  - destruct (py_all _ [v]) as [[|]|]; simpl in H; try discriminate.
    injection H as <-. discriminate.
  - destruct v as [|b|z|q|[|x fs]|l|w]; try discriminate; try congruence.
    destruct (py_all _ (x :: fs)) as [[|]|]; simpl in H; try discriminate.
    injection H as <-. discriminate.
Qed.

Lemma getWaveLength_length v w :
  __getWaveLength v = Ok w -> v <> PyTuple [] -> w <> [].
Proof.
  unfold __getWaveLength. intros H Hne.
  destruct (isinstance_real v) eqn:I.
  - destruct (py_all _ [v]) as [[|]|]; simpl in H; try discriminate.
    injection H as <-. discriminate.
  - destruct v as [|b|z|q|[|x fs]|l|w0]; try discriminate; try congruence.
    destruct (py_all _ (x :: fs)) as [[|]|]; simpl in H; try discriminate.
    injection H as <-. discriminate.
Qed.

Lemma getWarp_length v w :
  __getWarp v = Ok w -> v <> PyTuple [] -> w <> [].
Proof.
  unfold __getWarp. intros H Hne.
  destruct v as [|b|z|q|[|x fs]|l|w0]; simpl in H; try discriminate; try congruence.
  all: try (destruct (isinstance_Warp x && forallb isinstance_Warp fs); [|discriminate];
            injection H as <-; discriminate).
Qed.

(** An object built by the constructor from non-empty per-axis arguments
    and a multiplier of at least 1 is valid and satisfies the range
    invariant. *)
Lemma init_valid gen fresh sd f w wp r k self :
  __init__ gen fresh sd f w wp r k = Ok self ->
  (1 <= k)%Z -> f <> PyTuple [] -> w <> PyTuple [] -> wp <> PyTuple [] ->
  valid self /\ range_invariant self.
Proof.
  intros H Hk Hf Hw Hwp. split; [|eapply init_range_invariant; eauto].
  unfold __init__ in H.
  destruct (__getFrequency _) as [f'|] eqn:Ef; simpl in H; [|discriminate].
  destruct (__getWaveLength _) as [w'|] eqn:Ew; simpl in H; [|discriminate].
  destruct (__getWarp _) as [wp'|] eqn:Ewp; simpl in H; [|discriminate].
  destruct (__getRange _) as [rm|]; simpl in H; [|discriminate].
  injection H as <-. unfold valid; simpl.
  split; [exact Hk|].
  split; [eapply getFrequency_length; [exact Ef|destruct f; congruence]|].
  split; [eapply getFrequency_ok; exact Ef|].
  split; [eapply getWaveLength_length; [exact Ew|destruct w; congruence]|].
  split; [eapply getWaveLength_ok; exact Ew|].
  eapply getWarp_length; [exact Ewp|destruct wp; congruence].
Qed.

(** The objects of the concrete runs are what the constructor returns. *)
Example init_default_engine :
  __init__ demo_value 0 (Some 0%Z) PyNone PyNone PyNone PyNone 1
  = Ok (engine [8%Z] [128] [Warp_improved] 0 1).
Proof. reflexivity. Qed.

Example init_two_axes_engine :
  __init__ demo_value 0 (Some 0%Z) (PyTuple [PyInt 2; PyInt 4]) (PyTuple [PyInt 8; PyInt 8])
       PyNone PyNone 1
  = Ok (engine [2%Z; 4%Z] [8; 8] [Warp_improved] 0 1).
Proof. reflexivity. Qed.

(** * Further properties of the code *)

(** ** Any well-formed argument list is sampled *)

Lemma maxLen_ravel coords :
  maxLen (map (fun coo => Seq (ravel coo)) coords) = maxLen coords.
Proof. induction coords as [|c coords IH]; simpl; auto. Qed.

Lemma formatCoords_filled coords :
  Forall (fun c => as_seq c <> []) coords ->
  formatCoords coords = Ok (map (map Qabs) (spec_formatCoords coords)).
Proof.
  intros Hne. rewrite Forall_forall in Hne. unfold formatCoords, spec_formatCoords.
  rewrite (mapM_ok _ (fun c => if Nat.ltb (length (as_seq c)) (maxLen coords)
                               then spec_fill (maxLen coords) (as_seq c) else as_seq c)).
  - reflexivity.
  - intros c Hc. apply formatRow_fill; [apply Hne, Hc | apply maxLen_ge, Hc].
Qed.

Lemma spec_formatCoords_matrix coords :
  Forall (fun c => as_seq c <> []) coords ->
  matrix (length coords) (maxLen coords) (spec_formatCoords coords).
Proof.
  intros Hne. rewrite Forall_forall in Hne. unfold spec_formatCoords. split.
  - apply length_map.
  - rewrite Forall_map, Forall_forall. intros c Hc.
    destruct (Nat.ltb _ _) eqn:E.
    + apply spec_fill_length, Hne, Hc.
    + apply Nat.ltb_ge in E. pose proof (maxLen_ge _ _ Hc). lia.
Qed.

Lemma maxLen_pos coords :
  coords <> [] -> Forall (fun c => as_seq c <> []) coords -> (1 <= maxLen coords)%nat.
Proof.
  intros Hc Hne. destruct coords as [|c coords]; [congruence|].
  inversion Hne as [|? ? H1 _]; subst.
  change (maxLen (c :: coords)) with (Nat.max (length (as_seq c)) (maxLen coords)).
  destruct (as_seq c); [congruence|simpl length; lia].
Qed.

Lemma formatCoords_ravel coords :
  formatCoords (map (fun coo => Seq (ravel coo)) coords) = formatCoords coords.
Proof.
  unfold formatCoords. rewrite maxLen_ravel.
  assert (E : forall N l, mapM (formatRow N) (map (fun coo => Seq (ravel coo)) l)
                          = mapM (formatRow N) l).
  { intros N l. induction l as [|c l IH]; [reflexivity|].
    simpl map. simpl mapM. rewrite IH. reflexivity. }
  rewrite E. reflexivity.
Qed.

(** A call sees its arguments only through the formatted matrix. *)
Lemma call_through_format coords coords' self :
  coords <> [] -> coords' <> [] ->
  formatCoords coords = formatCoords coords' ->
  __call__ coords self = __call__ coords' self.
Proof.
  intros H H' E. unfold __call__.
  destruct coords as [|c cs]; [congruence|]. destruct coords' as [|c' cs']; [congruence|].
  unfold bindM at 1 3. unfold reads at 1 7.
  rewrite !formatCoords_ravel, E. reflexivity.
Qed.

Lemma formatCoords_of_matrix X D N :
  matrix D N X -> (1 <= D)%nat -> (1 <= N)%nat ->
  formatCoords (map Seq X) = Ok (map (map Qabs) X).
Proof.
  intros HM HD HN.
  assert (E : map ravel (map Seq X) = X)
    by (rewrite map_map; simpl; apply map_id).
  rewrite <- formatCoords_ravel.
  rewrite (formatCoords_matrix (map Seq X) D N); rewrite ?E; auto.
Qed.

Lemma call_filled self coords :
  coords <> [] -> Forall (fun c => as_seq c <> []) coords ->
  __call__ coords self = __call__ (map Seq (spec_formatCoords coords)) self.
Proof.
  intros Hc Hne.
  pose proof (spec_formatCoords_matrix coords Hne) as HM.
  assert (HD : (1 <= length coords)%nat) by (destruct coords; [congruence|simpl; lia]).
  apply call_through_format; [exact Hc| |].
  - intros E. apply (f_equal (@length _)) in E.
    rewrite length_map in E. destruct HM as [L _]. rewrite L in E. simpl in E. lia.
  - rewrite (formatCoords_filled coords Hne).
    symmetry. eapply formatCoords_of_matrix; [exact HM|exact HD|].
    apply maxLen_pos; assumption.
Qed.

(** X1.  Broadcasting: a call with scalars and sequences of unequal
    (non-zero) lengths returns what the call with the filled, equal-length
    sequences returns. *)
Theorem call_broadcast self coords :
  coords <> [] -> Forall (fun c => as_seq c <> []) coords ->
  __call__ coords self = __call__ (map Seq (spec_formatCoords coords)) self.
Proof. exact (call_filled self coords). Qed.

Lemma call_broadcast_witness :
  __call__ [Seq [1; 2; 3]; Scalar 5; Seq [7; 9]] (engine [8%Z] [128] [Warp_improved] 0 1)
  = __call__ (map Seq (spec_formatCoords [Seq [1; 2; 3]; Scalar 5; Seq [7; 9]]))
             (engine [8%Z] [128] [Warp_improved] 0 1).
Proof.
  apply call_broadcast; [discriminate|repeat constructor; discriminate].
Defined.

Lemma call_samples_matrix self X D N aD fD :
  valid self -> matrix D N X -> (1 <= D)%nat -> (1 <= N)%nat ->
  spacing self D = Ok aD -> periods self D = Ok fD ->
  __call__ (map Seq X) self
  = (Ok (map (fun n => sample self aD fD (column X n)) (seq 0 N)), self).
Proof.
  intros Hv HM HD HN Ha Hf.
  assert (E : map ravel (map Seq X) = X) by (rewrite map_map; simpl; apply map_id).
  rewrite (call_samples self (map Seq X) D N aD fD); rewrite ?E; auto.
Qed.

Lemma call_nonempty_samples self coords :
  valid self -> coords <> [] -> Forall (fun c => as_seq c <> []) coords ->
  exists out, __call__ coords self = (Ok out, self) /\ length out = maxLen coords.
Proof.
  intros Hv Hc Hne.
  destruct (valid_axes self (length coords) Hv) as (aD & fD & Ha & Hf & _).
  rewrite (call_filled self coords Hc Hne).
  rewrite (call_samples_matrix self _ (length coords) (maxLen coords) aD fD); auto.
  - eexists. split; [reflexivity|]. rewrite length_map, length_seq. reflexivity.
  - apply spec_formatCoords_matrix, Hne.
  - destruct coords; [congruence|simpl; lia].
  - apply maxLen_pos; assumption.
Qed.

Lemma call_samples_count self coords :
  valid self -> Forall (fun c => as_seq c <> []) coords ->
  exists out,
    __call__ coords self = (Ok out, self) /\
    length out = Nat.max 1 (maxLen coords).
Proof.
  intros Hv Hne. destruct coords as [|c coords].
  - change (__call__ [] self) with (__call__ [Scalar 0] self).
    destruct (call_nonempty_samples self [Scalar 0] Hv) as (out & E & L);
      [discriminate|repeat constructor; discriminate|].
    exists out. split; [exact E|]. rewrite L. reflexivity.
  - destruct (call_nonempty_samples self (c :: coords) Hv) as (out & E & L);
      [discriminate|exact Hne|].
    exists out. split; [exact E|]. rewrite L.
    pose proof (maxLen_pos (c :: coords) ltac:(discriminate) Hne). lia.
Qed.

(** X2.  For a valid configuration a call whose arguments are scalars or
    non-empty sequences, of any lengths and in any number (none included),
    raises nothing, leaves the object as it was and returns as many samples
    as the longest argument has values, one when there is no argument. *)
Theorem call_returns_samples self coords :
  valid self -> Forall (fun c => as_seq c <> []) coords ->
  exists out,
    __call__ coords self = (Ok out, self) /\
    length out = Nat.max 1 (maxLen coords).
Proof. exact (call_samples_count self coords). Qed.

Lemma call_returns_samples_witness :
  exists out,
    __call__ [Seq [1; 2; 3]; Scalar (-5); Seq [70000000; 9]]
             (engine [8%Z; 3%Z] [128] [Warp_improved; fun t => t * t] (-2) 7)
      = (Ok out, engine [8%Z; 3%Z] [128] [Warp_improved; fun t => t * t] (-2) 7) /\
    length out = Nat.max 1 (maxLen [Seq [1; 2; 3]; Scalar (-5); Seq [70000000; 9]]).
Proof.
  apply call_returns_samples.
  - unfold valid; simpl. repeat split; try lia; try discriminate; repeat constructor.
  - repeat constructor; discriminate.
Defined.

(** X3.  Sampling a batch is sampling each of its points: sample [n] of a
    call on equal-length sequences is the single sample of the call on the
    [n]-th value of every axis, although the two calls fetch different
    windows of the lattice. *)
Theorem call_pointwise self X D N :
  valid self -> matrix D N X -> (1 <= D)%nat -> (1 <= N)%nat ->
  exists out,
    __call__ (map Seq X) self = (Ok out, self) /\ length out = N /\
    forall n, (n < N)%nat ->
      __call__ (map Scalar (column X n)) self = (Ok [nth n out 0], self).
Proof.
  intros Hv HM HD HN.
  destruct (valid_axes self D Hv) as (aD & fD & Ha & Hf & _).
  rewrite (call_samples_matrix self X D N aD fD Hv HM HD HN Ha Hf).
  eexists. split; [reflexivity|]. split; [rewrite length_map, length_seq; reflexivity|].
  intros n Hn. rewrite nth_map_seq by exact Hn.
  assert (LC : length (column X n) = D) by (unfold column; rewrite length_map; apply HM).
  assert (HM1 : matrix D 1 (map ravel (map Scalar (column X n)))).
  { split; [rewrite !length_map; exact LC|].
    rewrite !Forall_map, Forall_forall. intros; reflexivity. }
  rewrite (call_samples self _ D 1 aD fD Hv HM1 HD (le_n 1) Ha Hf).
  simpl seq. simpl map at 1. do 3 f_equal.
  unfold column at 1. rewrite !map_map. simpl. rewrite map_id. reflexivity.
Qed.

Lemma call_pointwise_witness :
  exists out,
    __call__ (map Seq [[3; 200; 77]; [1 # 2; 40; 9]]) (engine [8%Z] [128] [Warp_improved] 0 1)
      = (Ok out, engine [8%Z] [128] [Warp_improved] 0 1) /\
    length out = 3%nat /\
    forall n, (n < 3)%nat ->
      __call__ (map Scalar (column [[3; 200; 77]; [1 # 2; 40; 9]] n))
               (engine [8%Z] [128] [Warp_improved] 0 1)
      = (Ok [nth n out 0], engine [8%Z] [128] [Warp_improved] 0 1).
Proof.
  apply (call_pointwise (engine [8%Z] [128] [Warp_improved] 0 1)
           [[3; 200; 77]; [1 # 2; 40; 9]] 2 3).
  - unfold valid; simpl. repeat split; try lia; try discriminate; repeat constructor.
  - split; [reflexivity|repeat constructor].
  - lia.
  - lia.
Defined.

(** ** Mirror symmetry and empty arguments *)

Lemma Qabs_opp_eq (x : Q) : Qabs (- x) = Qabs x.
Proof. destruct x as [n d]. unfold Qabs, Qopp. simpl. f_equal. apply Z.abs_opp. Qed.

Lemma map_repeat {A B} (f : A -> B) (x : A) n : map f (repeat x n) = repeat (f x) n.
Proof. induction n as [|n IH]; simpl; auto. f_equal. exact IH. Qed.

Lemma np_repeat_map {A B} (f : A -> B) (xs : list A) k :
  np_repeat (map f xs) k = map f (np_repeat xs k).
Proof.
  unfold np_repeat. induction xs as [|x xs IH]; simpl; auto.
  rewrite List.map_app, IH, map_repeat. reflexivity.
Qed.

Lemma assign_slice_opp n vals :
  assign_slice n (map Qopp vals)
  = match assign_slice n vals with Ok r => Ok (map Qopp r) | Raise e => Raise e end.
Proof.
  unfold assign_slice. rewrite length_map.
  destruct (Nat.eqb (length vals) n); [reflexivity|].
  destruct (Nat.eqb (length vals) 1) eqn:E; [|reflexivity].
  destruct vals as [|a [|b t]]; try discriminate. simpl.
  rewrite map_repeat. reflexivity.
Qed.

Lemma last_map_opp xs : last (map Qopp xs) 0 = - last xs 0.
Proof.
  induction xs as [|a [|b t] IH]; try reflexivity.
  change (last (map Qopp (a :: b :: t)) 0) with (last (map Qopp (b :: t)) 0).
  rewrite IH. reflexivity.
Qed.

Lemma seq_last_opp xs :
  seq_last (map Qopp xs)
  = match seq_last xs with Ok l => Ok (- l) | Raise e => Raise e end.
Proof.
  unfold seq_last. destruct xs as [|x xs]; [reflexivity|].
  change (map Qopp (x :: xs)) with (- x :: map Qopp xs). cbv iota.
  change (- x :: map Qopp xs) with (map Qopp (x :: xs)).
  rewrite last_map_opp. reflexivity.
Qed.

Lemma formatRow_negate N c :
  formatRow N (negate c)
  = match formatRow N c with Ok r => Ok (map Qopp r) | Raise e => Raise e end.
Proof.
  assert (E : as_seq (negate c) = map Qopp (as_seq c)) by (destruct c; reflexivity).
  unfold formatRow. rewrite E, length_map, np_repeat_map, assign_slice_opp, seq_last_opp.
  destruct (assign_slice _ (np_repeat (as_seq c) _)) as [a|e]; [|reflexivity].
  destruct (seq_last (as_seq c)) as [l|e]; [|reflexivity].
  cbv beta iota delta [bindR].
  rewrite <- map_repeat, assign_slice_opp.
  destruct (assign_slice _ (repeat l _)) as [b|e]; [|reflexivity].
  rewrite List.map_app. reflexivity.
Qed.

Lemma maxLen_negate coords : maxLen (map negate coords) = maxLen coords.
Proof.
  induction coords as [|c coords IH]; [reflexivity|].
  change (maxLen (map negate (c :: coords)))
    with (Nat.max (length (as_seq (negate c))) (maxLen (map negate coords))).
  change (maxLen (c :: coords)) with (Nat.max (length (as_seq c)) (maxLen coords)).
  rewrite IH. f_equal. destruct c; simpl; [reflexivity|apply length_map].
Qed.

Lemma formatCoords_negate coords :
  formatCoords (map negate coords) = formatCoords coords.
Proof.
  unfold formatCoords. rewrite maxLen_negate.
  assert (E : forall N l, mapM (formatRow N) (map negate l)
              = match mapM (formatRow N) l with
                | Ok m => Ok (map (map Qopp) m)
                | Raise e => Raise e
                end).
  { intros N l. induction l as [|c l IH]; [reflexivity|].
    simpl map. simpl mapM. rewrite formatRow_negate, IH.
    destruct (formatRow N c); [|reflexivity]. simpl bindR.
    destruct (mapM (formatRow N) l); reflexivity. }
  rewrite E. destruct (mapM _ coords) as [m|e]; [|reflexivity].
  simpl bindR. f_equal. rewrite map_map. apply map_ext. intros row.
  rewrite map_map. apply map_ext. intros x. apply Qabs_opp_eq.
Qed.

(** X4.  Mirror symmetry: for every object and every argument list, the
    call with all coordinates negated returns exactly what the call with
    the coordinates themselves returns ([formatCoords] ends by taking
    absolute values). *)
Theorem call_mirror self coords :
  __call__ (map negate coords) self = __call__ coords self.
Proof.
  destruct coords as [|c coords]; [reflexivity|].
  apply call_through_format; try discriminate.
  apply formatCoords_negate.
Qed.

Lemma formatCoords_empty_axis coords :
  Exists (fun c => as_seq c = []) coords ->
  formatCoords coords
  = Raise (if Nat.eqb (maxLen coords) 0 then IndexError else ValueError).
Proof.
  intros Hex. unfold formatCoords.
  assert (G : forall N l, (forall c, In c l -> (length (as_seq c) <= N)%nat) ->
              Exists (fun c => as_seq c = []) l ->
              mapM (formatRow N) l
              = Raise (if Nat.eqb N 0 then IndexError else ValueError)).
  { intros N l. induction l as [|c l IH]; intros Hle H; [inversion H|].
    simpl mapM. destruct (as_seq c) as [|x xs] eqn:Es.
    - unfold formatRow. rewrite Es. simpl length. simpl Nat.max.
      rewrite Nat.div_1_r, Nat.mod_1_r, Nat.sub_0_r.
      unfold np_repeat, assign_slice. simpl flat_map. simpl length.
      destruct N as [|N]; reflexivity.
    - rewrite formatRow_fill; [|rewrite Es; discriminate|apply Hle; left; reflexivity].
      simpl bindR. rewrite IH.
      + reflexivity.
      + intros c' Hc'. apply Hle. right. exact Hc'.
      + inversion H as [? ? H0|? ? H0]; subst; [congruence|exact H0]. }
  rewrite G; [reflexivity| |exact Hex].
  intros c Hc. apply maxLen_ge, Hc.
Qed.

(** X5.  An empty sequence among the arguments is always refused:
    [formatCoords], and with it the call, raises IndexError when every
    argument is empty and ValueError otherwise, and the object is left as
    it was. *)
Theorem empty_axis_raises self coords :
  Exists (fun c => as_seq c = []) coords ->
  let e := if Nat.eqb (maxLen coords) 0 then IndexError else ValueError in
  formatCoords coords = Raise e /\
  __call__ coords self = (Raise e, self).
Proof.
  intros Hex. cbv zeta.
  pose proof (formatCoords_empty_axis coords Hex) as F.
  split; [exact F|].
  destruct coords as [|c coords]; [inversion Hex|].
  unfold __call__, bindM, reads. rewrite formatCoords_ravel, F. reflexivity.
Qed.

Lemma empty_axis_raises_witness :
  formatCoords [Seq [1; 2]; Seq []] = Raise ValueError /\
  __call__ [Seq [1; 2]; Seq []] (engine [8%Z] [128] [Warp_improved] 0 1)
    = (Raise ValueError, engine [8%Z] [128] [Warp_improved] 0 1).
Proof.
  apply (empty_axis_raises (engine [8%Z] [128] [Warp_improved] 0 1) [Seq [1; 2]; Seq []]).
  apply Exists_cons_tl, Exists_cons_hd. reflexivity.
Defined.

(** ** The bounds resolver below 2^16 lattice units *)

(** X6.  Where a formatted coordinate is non-negative and below 2^16
    spacings, [findBounds] uses the true floor of the unitized coordinate
    as lower index, and the offset it returns is the unitized coordinate
    less its floor, in [0, 1). *)
Theorem findBounds_floor self fCoords D N aD d v n :
  valid self -> matrix D N fCoords -> spacing self D = Ok aD ->
  (d < D)%nat -> (v < 2 ^ D)%nat -> (n < N)%nat ->
  0 <= nth n (nth d (rev fCoords) []) 0 ->
  nth n (nth d (rev fCoords) []) 0 / nth d aD 0 < 65536 ->
  exists fD bIndex bCoords,
    periods self D = Ok fD /\
    findBounds self fCoords = Ok (bIndex, bCoords) /\
    let u := nth n (nth d (rev fCoords) []) 0 / nth d aD 0 in
    nth n (nth v (nth d bIndex []) []) 0%Z
      = ((Qfloor u + nth d (nth v (findCorners D) []) 0) mod nth d fD 0)%Z /\
    nth n (nth d (rev bCoords) []) 0 = u - inject_Z (Qfloor u) /\
    0 <= u - inject_Z (Qfloor u) /\ u - inject_Z (Qfloor u) < 1.
Proof.
  intros Hv HM Ha Hd Hvv Hn X0 U1.
  destruct (valid_axes self D Hv) as (aD' & fD & Ha' & Hf & La & Lf & Hpa & _).
  rewrite Ha in Ha'. injection Ha' as <-.
  exists fD, (bounds_index aD fD fCoords), (bounds_frac aD fCoords).
  split; [exact Hf|].
  split; [eapply findBounds_explicit; eauto|].
  destruct (unitize_nth aD fCoords D N d n HM La Hd Hn) as [_ EU].
  assert (Hpos : 0 < nth d aD 0) by (rewrite Forall_forall in Hpa; apply Hpa, nth_In; lia).
  assert (U0 : 0 <= nth n (nth d (rev fCoords) []) 0 / nth d aD 0)
    by (apply Qle_shift_div_l; [exact Hpos|lra]).
  pose proof (Qfloor_small _ U0 U1) as B.
  assert (E16 : uint16 (Qfloor (nth n (nth d (rev fCoords) []) 0 / nth d aD 0))
                = Qfloor (nth n (nth d (rev fCoords) []) 0 / nth d aD 0))
    by (apply uint16_small; lia).
  cbv zeta. split; [|split; [|split]].
  - rewrite (bounds_index_nth aD fD fCoords D N d v n HM La Lf Hd Hvv Hn), EU, E16.
    reflexivity.
  - rewrite (bounds_frac_nth aD fCoords D N d n HM La Hd Hn), EU, E16. reflexivity.
  - pose proof (Qfloor_le (nth n (nth d (rev fCoords) []) 0 / nth d aD 0)). lra.
  - pose proof (Qlt_floor (nth n (nth d (rev fCoords) []) 0 / nth d aD 0)) as F.
    rewrite inject_Z_plus in F. change (inject_Z 1) with 1 in F. lra.
Qed.

Lemma findBounds_floor_witness :
  exists fD bIndex bCoords,
    periods (engine [8%Z] [128] [Warp_improved] 0 1) 2 = Ok fD /\
    findBounds (engine [8%Z] [128] [Warp_improved] 0 1) [[3; 1000]; [37 # 2; 5]]
      = Ok (bIndex, bCoords) /\
    let u := nth 1 (nth 0 (rev [[3; 1000]; [37 # 2; 5]]) []) 0 / nth 0 [128 # 8; 128 # 8] 0 in
    nth 1 (nth 3 (nth 0 bIndex []) []) 0%Z
      = ((Qfloor u + nth 0 (nth 3 (findCorners 2) []) 0) mod nth 0 fD 0)%Z /\
    nth 1 (nth 0 (rev bCoords) []) 0 = u - inject_Z (Qfloor u) /\
    0 <= u - inject_Z (Qfloor u) /\ u - inject_Z (Qfloor u) < 1.
Proof.
  apply (findBounds_floor (engine [8%Z] [128] [Warp_improved] 0 1)
           [[3; 1000]; [37 # 2; 5]] 2 2 [128 # 8; 128 # 8] 0 3 1).
  - unfold valid; simpl. repeat split; try lia; try discriminate; repeat constructor.
  - split; [reflexivity|repeat constructor].
  - reflexivity.
  - lia.
  - simpl; lia.
  - lia.
  - unfold Qle; simpl; lia.
  - reflexivity.
Defined.

(** X7.  Shape and range of what [findBounds] returns: for D axes and N
    samples, the index tensor has D rows of 2^D vertices of N indices, every
    index lies in [0, mFrequency[:D][row]), and the offsets form a D x N
    matrix, however large the coordinates are. *)
Theorem findBounds_shape self fCoords D N :
  valid self -> matrix D N fCoords ->
  exists fD bIndex bCoords,
    periods self D = Ok fD /\
    findBounds self fCoords = Ok (bIndex, bCoords) /\
    length bIndex = D /\
    Forall (fun row => length row = (2 ^ D)%nat /\ Forall (fun r => length r = N) row) bIndex /\
    (forall d i, (d < D)%nat -> In i (concat (nth d bIndex [])) ->
       (0 <= i < nth d fD 0)%Z) /\
    matrix D N bCoords.
Proof.
  intros Hv HM.
  destruct (valid_axes self D Hv) as (aD & fD & Ha & Hf & La & Lf & _ & Hpf).
  destruct (bounds_index_shape aD fD fCoords D N HM La Lf) as [LB Hshape].
  exists fD, (bounds_index aD fD fCoords), (bounds_frac aD fCoords).
  split; [exact Hf|]. split; [eapply findBounds_explicit; eauto|].
  split; [exact LB|]. split; [exact Hshape|]. split.
  - intros d i Hd Hi.
    destruct (bounds_index_row aD fD fCoords D N d HM La Lf Hd) as (rowDV & E & _).
    rewrite E in Hi. apply in_concat in Hi. destruct Hi as (r & Hr & Hi).
    apply in_map_iff in Hr. destruct Hr as (r0 & <- & _).
    apply in_map_iff in Hi. destruct Hi as (i0 & <- & _).
    apply Z.mod_pos_bound. rewrite Forall_forall in Hpf. apply Hpf, nth_In. lia.
  - destruct (unitize_matrix aD _ D N HM La) as [LU HU]. unfold bounds_frac. split.
    + rewrite length_rev, length_map. exact LU.
    + rewrite Forall_forall. intros r Hr. apply in_rev in Hr.
      apply in_map_iff in Hr. destruct Hr as (u & <- & Hu).
      rewrite length_map. rewrite Forall_forall in HU. apply HU, Hu.
Qed.

Lemma findBounds_shape_witness :
  exists fD bIndex bCoords,
    periods (engine [8%Z; 5%Z] [128] [Warp_improved] 0 1) 2 = Ok fD /\
    findBounds (engine [8%Z; 5%Z] [128] [Warp_improved] 0 1)
               [[3; 1000; 9999999]; [37 # 2; 5; 0]] = Ok (bIndex, bCoords) /\
    length bIndex = 2%nat /\
    Forall (fun row => length row = (2 ^ 2)%nat /\ Forall (fun r => length r = 3%nat) row)
           bIndex /\
    (forall d i, (d < 2)%nat -> In i (concat (nth d bIndex [])) ->
       (0 <= i < nth d fD 0)%Z) /\
    matrix 2 3 bCoords.
Proof.
  apply (findBounds_shape (engine [8%Z; 5%Z] [128] [Warp_improved] 0 1)
           [[3; 1000; 9999999]; [37 # 2; 5; 0]] 2 3).
  - unfold valid; simpl. repeat split; try lia; try discriminate; repeat constructor.
  - split; [reflexivity|repeat constructor].
Defined.

(** ** Bounds on the samples *)

Lemma last_In (l : list Q) d : l <> [] -> In (last l d) l.
Proof.
  induction l as [|a [|b t] IH]; intros H; [congruence|left; reflexivity|].
  right. apply IH. discriminate.
Qed.

Lemma spec_fill_In N xs x : xs <> [] -> In x (spec_fill N xs) -> In x xs.
Proof.
  unfold spec_fill, np_repeat. intros Hne H. apply in_app_or in H. destruct H as [H|H].
  - apply in_flat_map in H. destruct H as (y & Hy & Hx).
    apply repeat_spec in Hx. subst. exact Hy.
  - pose proof (repeat_spec _ _ _ H) as E. subst x. apply last_In, Hne.
Qed.

Lemma spec_formatCoords_In coords row x :
  Forall (fun c => as_seq c <> []) coords ->
  In row (spec_formatCoords coords) -> In x row ->
  exists c, In c coords /\ In x (as_seq c).
Proof.
  intros Hne Hrow Hx. unfold spec_formatCoords in Hrow.
  apply in_map_iff in Hrow. destruct Hrow as (c & <- & Hc).
  exists c. split; [exact Hc|].
  rewrite Forall_forall in Hne.
  destruct (Nat.ltb _ _); [eapply spec_fill_In; [apply Hne, Hc|exact Hx]|exact Hx].
Qed.

(** X8.  The range bound where no coordinate reaches 2^16 spacings: for a
    valid configuration built with lo <= hi, warps that map [0, 1] into
    [0, 1] and provider values in [0, 1), every sample of every call lies in
    [lo, hi]. *)
Theorem range_bound self coords aD :
  valid self -> range_invariant self -> fst (range self) <= snd (range self) ->
  coords <> [] -> Forall (fun c => as_seq c <> []) coords ->
  spacing self (length coords) = Ok aD ->
  Forall unit_warp (__warp self) ->
  (forall idx, 0 <= prng_value (__prng self) (seed self) idx
               /\ prng_value (__prng self) (seed self) idx < 1) ->
  Forall (fun a => Forall (fun c => Forall (fun x => Qabs x / a < 65536) (as_seq c)) coords) aD ->
  exists out,
    fst (__call__ coords self) = Ok out /\
    Forall (fun y => fst (range self) <= y <= snd (range self)) out.
Proof.
  intros Hv Hr Hlh Hc Hne Ha Hw Hp Hsmall.
  destruct (valid_axes self (length coords) Hv) as (aD' & fD & Ha' & Hf & _).
  rewrite Ha in Ha'. injection Ha' as <-.
  rewrite (call_filled self coords Hc Hne).
  assert (E : map ravel (map Seq (spec_formatCoords coords)) = spec_formatCoords coords)
    by (rewrite map_map; simpl; apply map_id).
  apply (range_bound_below_uint16 self _ (length coords) (maxLen coords) aD fD);
    rewrite ?E; auto.
  - apply spec_formatCoords_matrix, Hne.
  - destruct coords; [congruence|simpl; lia].
  - apply maxLen_pos; assumption.
  - eapply Forall_impl; [|exact Hsmall]. intros a H. cbv beta in H.
    rewrite Forall_forall. intros row Hrow. rewrite Forall_forall. intros x Hx.
    destruct (spec_formatCoords_In coords row x Hne Hrow Hx) as (c & Hin & Hxc).
    rewrite Forall_forall in H. specialize (H c Hin).
    rewrite Forall_forall in H. apply H, Hxc.
Qed.

Lemma range_bound_witness :
  exists out,
    fst (__call__ [Seq [3; -1000]; Scalar (37 # 2)]
                  (engine [8%Z] [128] [Warp_improved] (-2) 5)) = Ok out /\
    Forall (fun y => fst (range (engine [8%Z] [128] [Warp_improved] (-2) 5)) <= y
                     <= snd (range (engine [8%Z] [128] [Warp_improved] (-2) 5))) out.
Proof.
  apply (range_bound (engine [8%Z] [128] [Warp_improved] (-2) 5)
           [Seq [3; -1000]; Scalar (37 # 2)] [128 # 8; 128 # 8]).
  - unfold valid; simpl. repeat split; try lia; try discriminate; repeat constructor.
  - reflexivity.
  - unfold Qle; simpl; lia.
  - discriminate.
  - repeat constructor; discriminate.
  - reflexivity.
  - constructor; [exact Warp_improved_unit|constructor].
  - intros idx. apply demo_value_unit.
  - repeat constructor.
Defined.

Lemma collapse_step_const wt vs c :
  Forall (fun v => v == c) vs -> Forall (fun v => v == c) (collapse_step wt vs).
Proof.
  unfold collapse_step.
  assert (G : forall n vs, (length vs <= n)%nat -> Forall (fun v => v == c) vs ->
            Forall (fun v => v == c) (map (blend wt) (pairs_of vs))).
  { induction n as [|n IH]; intros [|a [|b t]] Hn H; simpl in *; try constructor; try lia.
    - inversion H as [|? ? Ha H']; subst. inversion H' as [|? ? Hb _]; subst.
      unfold blend; simpl. rewrite Ha, Hb. ring.
    - apply IH; [lia|]. inversion H as [|? ? _ H']; subst. inversion H'; assumption. }
  apply (G (length vs)). lia.
Qed.

Lemma collapse_const self vals fr D c :
  length fr = D -> (1 <= D)%nat -> length vals = (2 ^ D)%nat ->
  Forall (fun v => v == c) vals ->
  collapse self vals fr == c.
Proof.
  intros Lf HD Lv Hc. unfold collapse. rewrite Lf.
  assert (G : forall ds vs, Forall (fun v => v == c) vs ->
            Forall (fun v => v == c) (fold_left (collapse_turn self fr) ds vs)).
  { induction ds as [|d ds IH]; intros vs H; simpl; [exact H|].
    apply IH. unfold collapse_turn. apply collapse_step_const, H. }
  pose proof (collapse_turns_length self fr (D - 1) 0 vals) as L2.
  replace (D - 1 + 1)%nat with D in L2 by lia. specialize (L2 Lv).
  pose proof (collapse_step_length (warp_at self (-1) (nth (D - 1) fr 0)) _ 1 L2) as L1.
  pose proof (collapse_step_const (warp_at self (-1) (nth (D - 1) fr 0)) _ c
                (G (seq 0 (D - 1)) vals Hc)) as H.
  destruct H; simpl in *; [lia|assumption].
Qed.

(** X9.  A constant lattice gives constant noise: when the provider has the
    same value c at every index, every sample of a call on equal-length
    sequences is c * rangeMul + lo, whatever the warps are and however
    large the coordinates are. *)
Theorem constant_lattice self X D N c :
  valid self -> matrix D N X -> (1 <= D)%nat -> (1 <= N)%nat ->
  (forall idx, prng_value (__prng self) (seed self) idx == c) ->
  exists out,
    fst (__call__ (map Seq X) self) = Ok out /\ length out = N /\
    Forall (fun y => y == c * __rangeMul self + fst (range self)) out.
Proof.
  intros Hv HM HD HN Hc.
  destruct (valid_axes self D Hv) as (aD & fD & Ha & Hf & La & Lf & _).
  rewrite (call_samples_matrix self X D N aD fD Hv HM HD HN Ha Hf). simpl fst.
  eexists. split; [reflexivity|]. split; [rewrite length_map, length_seq; reflexivity|].
  rewrite Forall_map, Forall_forall. intros n Hn.
  assert (LC : length (column X n) = D) by (unfold column; rewrite length_map; apply HM).
  unfold sample. rewrite (collapse_const self _ _ D c); [reflexivity| |exact HD| |].
  - unfold sample_frac. rewrite length_rev, length_map.
    apply sample_unit_length; assumption.
  - rewrite length_map, LC, findCorners_length. reflexivity.
  - rewrite Forall_map, Forall_forall. intros v _. apply Hc.
Qed.

Lemma constant_lattice_witness :
  exists out,
    fst (__call__ (map Seq [[3; 99999999]; [37 # 2; 5]])
           (mkNPerlin 2 [8%Z] [128] (mkNPrng 0 (fun _ _ => 1 # 3)) [fun t => t + 7] (0, 6) 6))
      = Ok out /\ length out = 2%nat /\
    Forall (fun y => y == (1 # 3) * 6 + 0) out.
Proof.
  apply (constant_lattice
           (mkNPerlin 2 [8%Z] [128] (mkNPrng 0 (fun _ _ => 1 # 3)) [fun t => t + 7] (0, 6) 6)
           [[3; 99999999]; [37 # 2; 5]] 2 2 (1 # 3)).
  - unfold valid; simpl. repeat split; try lia; try discriminate; repeat constructor.
  - split; [reflexivity|repeat constructor].
  - lia.
  - lia.
  - intros idx. reflexivity.
Defined.

(** ** One axis: linear interpolation between two lattice values *)

(** X10.  On one axis, for a coordinate of magnitude below 2^16 spacings,
    the call returns the blend of the two lattice values around the
    unitized coordinate u = |x| / spacing: with k = floor(u), t = u - k and
    w the last declared warp, the sample is
    (w(t) * (v[(k+1) mod F] - v[k mod F]) + v[k mod F]) * rangeMul + lo. *)
Theorem one_axis_formula self x a f w :
  valid self -> spacing self 1 = Ok [a] -> periods self 1 = Ok [f] ->
  NTuple.getitem (__warp self) (-1) = Ok w ->
  Qabs x / a < 65536 ->
  let u := Qabs x / a in
  let k := Qfloor u in
  let v := fun i => prng_value (__prng self) (seed self) [i] in
  fst (__call__ [Scalar x] self)
  = Ok [(w (u - inject_Z k) * (v ((k + 1) mod f)%Z - v (k mod f)%Z) + v (k mod f)%Z)
        * __rangeMul self + fst (range self)].
Proof.
  intros Hv Ha Hf Hw U1. cbv zeta.
  destruct (valid_axes self 1 Hv) as (aD & fD & Ha' & Hf' & _ & _ & Hpa & _).
  rewrite Ha in Ha'. injection Ha' as <-.
  assert (Hpos : 0 < a) by (inversion Hpa; assumption).
  assert (U0 : 0 <= Qabs x / a)
    by (apply Qle_shift_div_l; [exact Hpos|]; pose proof (Qabs_nonneg x); lra).
  pose proof (Qfloor_small _ U0 U1) as B.
  assert (E16 : uint16 (Qfloor (Qabs x / a)) = Qfloor (Qabs x / a))
    by (apply uint16_small; lia).
  assert (HM : matrix 1 1 (map ravel [Scalar x])) by (split; [reflexivity|repeat constructor]).
  rewrite (call_samples self [Scalar x] 1 1 [a] [f] Hv HM (le_n 1) (le_n 1) Ha Hf).
  cbn [fst].
  assert (E1 : forall g : nat -> Q, map g (seq 0 1) = [g 0%nat]) by reflexivity.
  rewrite E1. do 2 f_equal. unfold sample. do 2 f_equal.
  assert (Ew : warp_at self (-1) = w) by (unfold warp_at; rewrite Hw; reflexivity).
  unfold collapse, sample_frac, sample_lower, sample_unit, sample_corner, column, collapse_step,
    blend.
  rewrite Ew.
  cbn -[uint16 Qfloor Qabs Qdiv Z.modulo Z.add Qminus Qmult Qplus inject_Z].
  rewrite E16, Z.add_0_r. reflexivity.
Qed.

Lemma one_axis_formula_witness :
  let self := engine [8%Z] [128] [Warp_improved] (-2) 5 in
  let u := Qabs (-1000) / (128 # 8) in
  let k := Qfloor u in
  let v := fun i => prng_value (__prng self) (seed self) [i] in
  fst (__call__ [Scalar (-1000)] self)
  = Ok [(Warp_improved (u - inject_Z k) * (v ((k + 1) mod 8)%Z - v (k mod 8)%Z) + v (k mod 8)%Z)
        * __rangeMul self + fst (range self)].
Proof.
  apply (one_axis_formula (engine [8%Z] [128] [Warp_improved] (-2) 5) (-1000) (128 # 8) 8
           Warp_improved).
  - unfold valid; simpl. repeat split; try lia; try discriminate; repeat constructor.
  - reflexivity.
  - reflexivity.
  - reflexivity.
  - reflexivity.
Defined.

(** ** The range in either orientation *)

(** X11.  [setRange] accepts any pair of numbers, also one with hi < lo;
    after it [applyRange] sends 0 to lo, 1 to hi and every raw value of
    [0, 1] to a value between lo and hi, in whichever order they are. *)
Theorem setRange_orientation self (lo hi raw : Q) :
  0 <= raw <= 1 ->
  let r := setRange (PyTuple [PyFloat lo; PyFloat hi]) self in
  fst r = Ok tt /\ range (snd r) = (lo, hi) /\
  exists y0 y y1,
    applyRange (snd r) [0; raw; 1] = [y0; y; y1] /\
    y0 == lo /\ y1 == hi /\
    (lo <= hi -> lo <= y <= hi) /\ (hi <= lo -> hi <= y <= lo).
Proof.
  intros [H0 H1]. cbv zeta. split; [reflexivity|]. split; [reflexivity|].
  eexists _, _, _. split; [reflexivity|]. simpl.
  split; [ring|]. split; [ring|]. split; intros H; nra.
Qed.

Lemma setRange_orientation_witness :
  let r := setRange (PyTuple [PyFloat 5; PyFloat (-3)]) (engine [8%Z] [128] [Warp_improved] 0 1) in
  fst r = Ok tt /\ range (snd r) = (5, -3) /\
  exists y0 y y1,
    applyRange (snd r) [0; 1 # 4; 1] = [y0; y; y1] /\
    y0 == 5 /\ y1 == -3 /\
    (5 <= -3 -> 5 <= y <= -3) /\ (-3 <= 5 -> -3 <= y <= 5).
Proof.
  apply (setRange_orientation (engine [8%Z] [128] [Warp_improved] 0 1) 5 (-3) (1 # 4)).
  split; unfold Qle; simpl; lia.
Defined.

(** ** Setters: what they accept, store and leave alone *)

Lemma getFrequency_accepts fs :
  Forall (fun f => (1 < f)%Z) fs -> __getFrequency (PyTuple (map PyInt fs)) = Ok fs.
Proof.
  intros H. unfold __getFrequency. cbv zeta.
  change (isinstance_int (PyTuple (map PyInt fs))) with false. cbv iota.
  assert (E : py_all (fun f => py_and (py_gt f 1) (Ok (isinstance_int f))) (map PyInt fs)
              = Ok true).
  { induction H as [|z fs Hz _ IH]; [reflexivity|].
    simpl map. simpl py_all. rewrite IH.
    unfold py_and, py_gt. simpl isinstance_real. simpl num.
    destruct (Qlt_le_dec (inject_Z 1) (inject_Z z)) as [L|L]; [reflexivity|].
    rewrite <- Zle_Qle in L. lia. }
  rewrite E. simpl bindR. f_equal. rewrite map_map. simpl. apply map_id.
Qed.

Lemma getWaveLength_accepts ws :
  Forall (fun w => 0 < w) ws -> __getWaveLength (PyTuple (map PyFloat ws)) = Ok ws.
Proof.
  intros H. unfold __getWaveLength. cbv zeta.
  change (isinstance_real (PyTuple (map PyFloat ws))) with false. cbv iota.
  assert (E : py_all (fun w => py_and (py_gt w 0) (Ok (isinstance_real w))) (map PyFloat ws)
              = Ok true).
  { induction H as [|q ws Hq _ IH]; [reflexivity|].
    simpl map. simpl py_all. rewrite IH.
    unfold py_and, py_gt. simpl isinstance_real. simpl num.
    destruct (Qlt_le_dec (inject_Z 0) q) as [L|L]; [reflexivity|].
    exfalso. apply (Qlt_not_le _ _ Hq). exact L. }
  rewrite E. simpl bindR. f_equal. rewrite map_map. simpl. apply map_id.
Qed.

(** X12.  [setFrequency] accepts every tuple of integers above 1 (and an
    integer as the one-entry tuple), after which [frequency] returns
    exactly those integers and [mFrequency] their multiples by fwm, and no
    other attribute has changed. *)
Theorem setFrequency_roundtrip self fs :
  Forall (fun f => (1 < f)%Z) fs ->
  let r := setFrequency (PyTuple (map PyInt fs)) self in
  fst r = Ok tt /\
  frequency (snd r) = fs /\
  mFrequency (snd r) = map (fun f => (f * fwm self)%Z) fs /\
  (forall z, setFrequency (PyInt z) self = setFrequency (PyTuple [PyInt z]) self) /\
  waveLength (snd r) = waveLength self /\ warp (snd r) = warp self /\
  range (snd r) = range self /\ __rangeMul (snd r) = __rangeMul self /\
  __prng (snd r) = __prng self /\ fwm (snd r) = fwm self.
Proof.
  intros H. cbv zeta. unfold setFrequency, bindM, reads, assign.
  rewrite (getFrequency_accepts fs H). simpl.
  repeat split; reflexivity.
Qed.

Lemma setFrequency_roundtrip_witness :
  let self := engine [8%Z] [128] [Warp_improved] 0 1 in
  let r := setFrequency (PyTuple (map PyInt [2%Z; 16%Z; 3%Z])) self in
  fst r = Ok tt /\
  frequency (snd r) = [2%Z; 16%Z; 3%Z] /\
  mFrequency (snd r) = map (fun f => (f * fwm self)%Z) [2%Z; 16%Z; 3%Z] /\
  (forall z, setFrequency (PyInt z) self = setFrequency (PyTuple [PyInt z]) self) /\
  waveLength (snd r) = waveLength self /\ warp (snd r) = warp self /\
  range (snd r) = range self /\ __rangeMul (snd r) = __rangeMul self /\
  __prng (snd r) = __prng self /\ fwm (snd r) = fwm self.
Proof.
  apply (setFrequency_roundtrip (engine [8%Z] [128] [Warp_improved] 0 1) [2%Z; 16%Z; 3%Z]).
  repeat constructor.
Defined.

(** X13.  [setWaveLength] accepts every tuple of positive numbers, after
    which [waveLength] returns exactly those numbers and [mWaveLength] their
    multiples by fwm, and no other attribute has changed. *)
Theorem setWaveLength_roundtrip self ws :
  Forall (fun w => 0 < w) ws ->
  let r := setWaveLength (PyTuple (map PyFloat ws)) self in
  fst r = Ok tt /\
  waveLength (snd r) = ws /\
  mWaveLength (snd r) = map (fun w => w * inject_Z (fwm self)) ws /\
  (forall q, setWaveLength (PyFloat q) self = setWaveLength (PyTuple [PyFloat q]) self) /\
  frequency (snd r) = frequency self /\ warp (snd r) = warp self /\
  range (snd r) = range self /\ __rangeMul (snd r) = __rangeMul self /\
  __prng (snd r) = __prng self /\ fwm (snd r) = fwm self.
Proof.
  intros H. cbv zeta. unfold setWaveLength, bindM, reads, assign.
  rewrite (getWaveLength_accepts ws H). simpl.
  repeat split; reflexivity.
Qed.

Lemma setWaveLength_roundtrip_witness :
  let self := engine [8%Z] [128] [Warp_improved] 0 1 in
  let r := setWaveLength (PyTuple (map PyFloat [1 # 2; 64])) self in
  fst r = Ok tt /\
  waveLength (snd r) = [1 # 2; 64] /\
  mWaveLength (snd r) = map (fun w => w * inject_Z (fwm self)) [1 # 2; 64] /\
  (forall q, setWaveLength (PyFloat q) self = setWaveLength (PyTuple [PyFloat q]) self) /\
  frequency (snd r) = frequency self /\ warp (snd r) = warp self /\
  range (snd r) = range self /\ __rangeMul (snd r) = __rangeMul self /\
  __prng (snd r) = __prng self /\ fwm (snd r) = fwm self.
Proof.
  apply (setWaveLength_roundtrip (engine [8%Z] [128] [Warp_improved] 0 1) [1 # 2; 64]).
  repeat constructor.
Defined.

(** ** Validity is an invariant of the interface *)

Lemma perform_valid (o : operation) (self : NPerlin) :
  valid self -> declares_axes o -> valid (perform o self).
Proof.
  intros Hv Hd. destruct Hv as (Hk & Hfne & Hf & Hwne & Hw & Hwp).
  destruct o; simpl perform.
  - unfold valid; simpl. repeat split; assumption.
  - unfold setFrequency. rewrite setter_shape.
    destruct (__getFrequency v) as [f|] eqn:E; [|repeat split; assumption].
    unfold valid; simpl. repeat split; try assumption.
    + eapply getFrequency_length; eauto.
    + eapply getFrequency_ok; eauto.
  - unfold setWaveLength. rewrite setter_shape.
    destruct (__getWaveLength v) as [w|] eqn:E; [|repeat split; assumption].
    unfold valid; simpl. repeat split; try assumption.
    + eapply getWaveLength_length; eauto.
    + eapply getWaveLength_ok; eauto.
  - unfold setWarp. rewrite setter_shape.
    destruct (__getWarp v) as [w|] eqn:E; [|repeat split; assumption].
    unfold valid; simpl. repeat split; try assumption.
    eapply getWarp_length; eauto.
  - unfold setRange. rewrite setter_shape.
    destruct (__getRange v) as [rm|]; repeat split; assumption.
  - rewrite call_state. repeat split; assumption.
Qed.

(** X14.  An object built by the constructor with fwm >= 1 and no empty
    tuple, and then put through any sequence of setter and sampling calls
    that hand no empty tuple to a per-axis setter, failed calls included,
    is valid (frequencies above 1, positive wave lengths, a warp declared)
    and keeps rangeMul = range[1] - range[0]; sampling it at any scalars or
    non-empty sequences raises nothing. *)
Theorem valid_is_invariant gen fresh sd f w wp r k self (ops : list operation) coords :
  __init__ gen fresh sd f w wp r k = Ok self ->
  (1 <= k)%Z -> f <> PyTuple [] -> w <> PyTuple [] -> wp <> PyTuple [] ->
  Forall declares_axes ops ->
  Forall (fun c => as_seq c <> []) coords ->
  let self' := perform_all ops self in
  valid self' /\ range_invariant self' /\
  exists out, __call__ coords self' = (Ok out, self').
Proof.
  intros Hi Hk Hf Hw Hwp Hops Hne. cbv zeta.
  destruct (init_valid _ _ _ _ _ _ _ _ _ Hi Hk Hf Hw Hwp) as [Hv Hr].
  assert (G : forall ops s, valid s -> Forall declares_axes ops -> valid (perform_all ops s)).
  { clear. induction ops as [|o ops IH]; intros s Hs H; simpl; [exact Hs|].
    inversion H; subst. apply IH; [apply perform_valid|]; assumption. }
  pose proof (G ops self Hv Hops) as Hv'.
  split; [exact Hv'|]. split; [apply perform_all_range_invariant, Hr|].
  destruct (call_samples_count _ coords Hv' Hne) as (out & E & _).
  exists out. exact E.
Qed.

Lemma valid_is_invariant_witness :
  let self := engine [8%Z] [128] [Warp_improved] 0 1 in
  let self' := perform_all [OpSetFrequency (PyTuple [PyInt 4; PyInt 6]);
                            OpSetRange (PyTuple [PyInt 0]);
                            OpSetWaveLength (PyInt 0);
                            OpCall [Scalar 3];
                            OpSetSeed 5] self in
  valid self' /\ range_invariant self' /\
  exists out, __call__ [Seq [1; 2]; Scalar (-70000)] self' = (Ok out, self').
Proof.
  apply (valid_is_invariant demo_value 0 (Some 0%Z) PyNone PyNone PyNone PyNone 1
           (engine [8%Z] [128] [Warp_improved] 0 1)
           [OpSetFrequency (PyTuple [PyInt 4; PyInt 6]);
            OpSetRange (PyTuple [PyInt 0]);
            OpSetWaveLength (PyInt 0);
            OpCall [Scalar 3];
            OpSetSeed 5]
           [Seq [1; 2]; Scalar (-70000)]).
  - reflexivity.
  - lia.
  - discriminate.
  - discriminate.
  - discriminate.
  - repeat constructor; discriminate.
  - repeat constructor; discriminate.
Defined.

(** ** The multiplier fwm *)

(** X15.  The multiplier is not validated: with fwm = 0 (and a frequency
    and a wave length declared) [amp] divides by zero, so every call on
    scalars or non-empty sequences raises ZeroDivisionError and leaves the
    object as it was. *)
Theorem zero_multiplier_raises self coords :
  fwm self = 0%Z -> __frequency self <> [] -> __waveLength self <> [] ->
  Forall (fun c => as_seq c <> []) coords ->
  amp self = Raise ZeroDivisionError /\
  __call__ coords self = (Raise ZeroDivisionError, self).
Proof.
  intros Hk Hf Hw Hne.
  assert (A : amp self = Raise ZeroDivisionError).
  { unfold amp, mWaveLength, mFrequency, NTuple.scaleQ, NTuple.scaleZ. rewrite Hk.
    destruct (__waveLength self) as [|w ws]; [congruence|].
    destruct (__frequency self) as [|f fs]; [congruence|].
    simpl. unfold py_div. simpl fst; simpl snd. rewrite Z.mul_0_r. reflexivity. }
  split; [exact A|].
  assert (G : forall cs, cs <> [] -> Forall (fun c => as_seq c <> []) cs ->
              __call__ cs self = (Raise ZeroDivisionError, self)).
  { intros cs Hc Hcs. destruct cs as [|c cs]; [congruence|].
    unfold __call__, bindM, reads.
    rewrite formatCoords_ravel, (formatCoords_filled _ Hcs).
    unfold findBounds. rewrite A. reflexivity. }
  destruct coords as [|c coords].
  - change (__call__ [] self) with (__call__ [Scalar 0] self).
    apply G; [discriminate|repeat constructor; discriminate].
  - apply G; [discriminate|exact Hne].
Qed.

Lemma zero_multiplier_raises_witness :
  amp (with_fwm (engine [8%Z] [128] [Warp_improved] 0 1) 0) = Raise ZeroDivisionError /\
  __call__ [Seq [1; 2]; Scalar 3] (with_fwm (engine [8%Z] [128] [Warp_improved] 0 1) 0)
    = (Raise ZeroDivisionError, with_fwm (engine [8%Z] [128] [Warp_improved] 0 1) 0).
Proof.
  apply zero_multiplier_raises.
  - reflexivity.
  - discriminate.
  - discriminate.
  - repeat constructor; discriminate.
Defined.

Lemma Forall2_map_same {A} (F G : A -> Q) (l : list A) :
  (forall x, In x l -> F x == G x) -> Forall2 Qeq (map F l) (map G l).
Proof.
  induction l as [|x l IH]; intros H; simpl; constructor.
  - apply H. left. reflexivity.
  - apply IH. intros y Hy. apply H. right. exact Hy.
Qed.

(** X16.  The internodal spacing does not depend on the multiplier: for
    every fwm other than 0 and non-zero frequencies, [amp] returns
    waveLength[i] / frequency[i] on the axes both tuples declare, while
    [mFrequency] and [mWaveLength] are the declared values times fwm. *)
Theorem amp_ignores_multiplier self k :
  k <> 0%Z -> Forall (fun f => f <> 0%Z) (__frequency self) ->
  exists a,
    amp (with_fwm self k) = Ok a /\
    Forall2 Qeq a (map (fun wf => fst wf / inject_Z (snd wf))
                       (combine (__waveLength self) (__frequency self))) /\
    mFrequency (with_fwm self k) = map (fun f => (f * k)%Z) (__frequency self) /\
    mWaveLength (with_fwm self k) = map (fun w => w * inject_Z k) (__waveLength self).
Proof.
  intros Hk Hf.
  assert (HF : Forall (fun f => f <> 0%Z) (mFrequency (with_fwm self k))).
  { unfold mFrequency, NTuple.scaleZ. simpl. rewrite Forall_map.
    eapply Forall_impl; [|exact Hf]. intros f H. simpl in *. nia. }
  eexists. split; [apply amp_ok, HF|]. split; [|split; reflexivity].
  unfold mWaveLength, mFrequency, NTuple.scaleQ, NTuple.scaleZ. simpl.
  rewrite combine_map_l.
  assert (E : forall (l : list Q) (l' : list Z),
            combine l (map (fun x => (x * k)%Z) l')
            = map (fun p => (fst p, (snd p * k)%Z)) (combine l l')).
  { induction l as [|x l IH]; intros [|y l']; simpl; auto. f_equal. apply IH. }
  rewrite E, !map_map. apply Forall2_map_same.
  intros [w f] Hin. simpl.
  assert (Hf0 : f <> 0%Z).
  { rewrite Forall_forall in Hf. apply Hf. exact (in_combine_r _ _ _ _ Hin). }
  rewrite inject_Z_mult. field. split.
  - intros E0. change 0 with (inject_Z 0) in E0.
    pose proof (proj1 (inject_Z_injective _ _) E0). congruence.
  - intros E0. change 0 with (inject_Z 0) in E0.
    pose proof (proj1 (inject_Z_injective _ _) E0). congruence.
Qed.

Lemma amp_ignores_multiplier_witness :
  exists a,
    amp (with_fwm (engine [8%Z; 4%Z] [128; 10] [Warp_improved] 0 1) 7) = Ok a /\
    Forall2 Qeq a (map (fun wf => fst wf / inject_Z (snd wf))
                       (combine [128; 10] [8%Z; 4%Z])) /\
    mFrequency (with_fwm (engine [8%Z; 4%Z] [128; 10] [Warp_improved] 0 1) 7)
      = map (fun f => (f * 7)%Z) [8%Z; 4%Z] /\
    mWaveLength (with_fwm (engine [8%Z; 4%Z] [128; 10] [Warp_improved] 0 1) 7)
      = map (fun w => w * inject_Z 7) [128; 10].
Proof.
  apply (amp_ignores_multiplier (engine [8%Z; 4%Z] [128; 10] [Warp_improved] 0 1) 7).
  - discriminate.
  - repeat constructor; discriminate.
Defined.

(** ** Formatting is idempotent *)

Lemma formatCoords_ok_nonempty coords m :
  formatCoords coords = Ok m -> Forall (fun c => as_seq c <> []) coords.
Proof.
  intros H. apply Forall_Exists_neg. intros Hex.
  rewrite (formatCoords_empty_axis coords Hex) in H. discriminate.
Qed.

Lemma Qabs_abs_eq (x : Q) : Qabs (Qabs x) = Qabs x.
Proof. destruct x as [n d]. unfold Qabs. f_equal. apply Z.abs_idemp. Qed.

(** X17.  Whatever [formatCoords] returns is a matrix of non-negative
    values, one row per argument and as many columns as the longest
    argument has values, and formatting its rows again returns it
    unchanged. *)
Theorem formatCoords_idempotent coords m :
  formatCoords coords = Ok m ->
  matrix (length coords) (maxLen coords) m /\
  Forall (Forall (fun x => 0 <= x)) m /\
  formatCoords (map Seq m) = Ok m.
Proof.
  intros H. pose proof (formatCoords_ok_nonempty coords m H) as Hne.
  rewrite (formatCoords_filled coords Hne) in H. injection H as <-.
  pose proof (spec_formatCoords_matrix coords Hne) as HM.
  pose proof (abs_matrix _ _ _ HM) as HMa.
  split; [exact HMa|]. split.
  - rewrite Forall_map, Forall_forall. intros row _.
    rewrite Forall_map, Forall_forall. intros x _. apply Qabs_nonneg.
  - destruct coords as [|c coords]; [reflexivity|].
    rewrite (formatCoords_of_matrix _ (length (c :: coords)) (maxLen (c :: coords)) HMa).
    + f_equal. rewrite map_map. apply map_ext. intros row.
      rewrite map_map. apply map_ext. intros x. apply Qabs_abs_eq.
    + simpl; lia.
    + apply maxLen_pos; [discriminate|exact Hne].
Qed.

Lemma formatCoords_idempotent_witness :
  matrix (length [Seq [-1; 2]; Scalar 7; Seq [10; -20; 30]])
         (maxLen [Seq [-1; 2]; Scalar 7; Seq [10; -20; 30]])
         [[1; 2; 2]; [7; 7; 7]; [10; 20; 30]] /\
  Forall (Forall (fun x => 0 <= x)) [[1; 2; 2]; [7; 7; 7]; [10; 20; 30]] /\
  formatCoords (map Seq [[1; 2; 2]; [7; 7; 7]; [10; 20; 30]])
    = Ok [[1; 2; 2]; [7; 7; 7]; [10; 20; 30]].
Proof.
  apply (formatCoords_idempotent [Seq [-1; 2]; Scalar 7; Seq [10; -20; 30]]).
  reflexivity.
Defined.

(** ** The blend stays between the corner values *)

Lemma collapse_step_between wt vs a b :
  0 <= wt <= 1 -> Forall (fun v => a <= v <= b) vs ->
  Forall (fun v => a <= v <= b) (collapse_step wt vs).
Proof.
  intros Hw. unfold collapse_step.
  assert (G : forall n vs, (length vs <= n)%nat -> Forall (fun v => a <= v <= b) vs ->
            Forall (fun v => a <= v <= b) (map (blend wt) (pairs_of vs))).
  { induction n as [|n IH]; intros [|p [|q t]] Hn H; simpl in *; try constructor; try lia.
    - inversion H as [|? ? Hp H']; subst. inversion H' as [|? ? Hq _]; subst.
      unfold blend; simpl. nra.
    - apply IH; [lia|]. inversion H as [|? ? _ H']; subst. inversion H'; assumption. }
  apply (G (length vs)). lia.
Qed.

Lemma collapse_between self vals fr D a b :
  Forall unit_warp (__warp self) ->
  length fr = D -> (1 <= D)%nat -> length vals = (2 ^ D)%nat ->
  Forall (fun v => a <= v <= b) vals -> Forall (fun q => 0 <= q <= 1) fr ->
  a <= collapse self vals fr <= b.
Proof.
  intros Hw Lf HD Lv Hv Hf. unfold collapse. rewrite Lf.
  assert (Hwa : forall d, unit_warp (warp_at self d)).
  { intros d. apply warp_at_in; [exact Hw|]. intros t Ht. exact Ht. }
  assert (Hn : forall d, 0 <= nth d fr 0 <= 1).
  { intros d. destruct (Nat.lt_ge_cases d (length fr)) as [H|H].
    - rewrite Forall_forall in Hf. apply Hf, nth_In, H.
    - rewrite nth_overflow by exact H. lra. }
  assert (G : forall ds vs, Forall (fun v => a <= v <= b) vs ->
            Forall (fun v => a <= v <= b) (fold_left (collapse_turn self fr) ds vs)).
  { induction ds as [|d ds IH]; intros vs H; simpl; [exact H|].
    apply IH. unfold collapse_turn. apply collapse_step_between; [apply Hwa, Hn|exact H]. }
  pose proof (collapse_turns_length self fr (D - 1) 0 vals) as L2.
  replace (D - 1 + 1)%nat with D in L2 by lia. specialize (L2 Lv).
  pose proof (collapse_step_length (warp_at self (-1) (nth (D - 1) fr 0)) _ 1 L2) as L1.
  pose proof (collapse_step_between _ _ a b (Hwa (-1)%Z _ (Hn (D - 1)%nat))
                (G (seq 0 (D - 1)) vals Hv)) as H.
  destruct H; simpl in *; [lia|assumption].
Qed.

(** X18.  [bNoise] on N samples of 2^D corner values and D offsets each
    returns N values; with warps that map [0, 1] into [0, 1] and offsets in
    [0, 1], each of them lies between any two bounds a <= b that enclose
    the corner values. *)
Theorem bNoise_between self bSpace bCoords D a b :
  __warp self <> [] -> Forall unit_warp (__warp self) ->
  (1 <= D)%nat -> bCoords <> [] -> length bSpace = length bCoords ->
  Forall (fun r => length r = (2 ^ D)%nat /\ Forall (fun v => a <= v <= b) r) bSpace ->
  Forall (fun c => length c = D /\ Forall (fun q => 0 <= q <= 1) c) bCoords ->
  exists out,
    bNoise self bSpace bCoords = Ok out /\ length out = length bCoords /\
    Forall (fun y => a <= y <= b) out.
Proof.
  intros Hne Hw HD Hc HL Hs Hb.
  rewrite (bNoise_rows self bCoords D Hne bSpace HD Hc HL).
  - eexists. split; [reflexivity|]. split; [rewrite length_map, length_combine; lia|].
    rewrite Forall_map, Forall_forall. intros [r c] Hin. simpl.
    rewrite Forall_forall in Hs, Hb.
    destruct (Hs r (in_combine_l _ _ _ _ Hin)) as [Lr Hr].
    destruct (Hb c (in_combine_r _ _ _ _ Hin)) as [Lc Hq].
    apply (collapse_between self r c D a b); assumption.
  - eapply Forall_impl; [|exact Hs]. intros r [H _]. exact H.
  - eapply Forall_impl; [|exact Hb]. intros c [H _]. exact H.
Qed.

Lemma bNoise_between_witness :
  exists out,
    bNoise (engine [8%Z] [128] [Warp_improved] 0 1)
           [[2; 3; 5; 4]; [3; 3; 2; 5]] [[1 # 2; 0]; [1; 1 # 3]] = Ok out /\
    length out = length [[1 # 2; 0]; [1; 1 # 3]] /\
    Forall (fun y => 2 <= y <= 5) out.
Proof.
  apply (bNoise_between (engine [8%Z] [128] [Warp_improved] 0 1)
           [[2; 3; 5; 4]; [3; 3; 2; 5]] [[1 # 2; 0]; [1; 1 # 3]] 2 2 5).
  - discriminate.
  - constructor; [exact Warp_improved_unit|constructor].
  - lia.
  - discriminate.
  - reflexivity.
  - repeat constructor; unfold Qle; simpl; lia.
  - repeat constructor; unfold Qle; simpl; lia.
Defined.

(** ** Validation of the warp *)

(** X19.  [setWarp] succeeds exactly on a Warp or a tuple of Warps, storing
    them in order and changing no other attribute; on anything else it
    raises AssertionError and leaves the object as it was. *)
Theorem setWarp_accepts_exactly self v :
  let r := setWarp v self in
  if (isinstance_Warp v || isinstance_tuple v) && forallb isinstance_Warp (entries v)
  then fst r = Ok tt /\ warp (snd r) = map warp_of (entries v) /\
       frequency (snd r) = frequency self /\ waveLength (snd r) = waveLength self /\
       range (snd r) = range self /\ __rangeMul (snd r) = __rangeMul self /\
       __prng (snd r) = __prng self /\ fwm (snd r) = fwm self
  else fst r = Raise AssertionError /\ snd r = self.
Proof.
  cbv zeta. unfold setWarp, bindM, reads, assign, __getWarp.
  destruct v as [|b|z|q|l|l|w]; simpl; try (split; reflexivity).
  - destruct (forallb isinstance_Warp l); simpl; repeat split; reflexivity.
  - repeat split; reflexivity.
Qed.
